(** * enthrall: the master-side control plane

    A shallow embedding of [main.c] (the master's event loop, remote
    lifecycle, focus controller, edge-event detector and scheduler) and the
    properties of it that the specification states.

    Conventions of the embedding:
    - [uint64_t] values are [Z] with the wrap-around written out ([u64]);
      [int] values are plain [Z];
    - [float] is IEEE binary32, through the Standard Library's [SpecFloat]
      instantiated at precision 24 and maximal exponent 128;
    - a [struct remote*] is an index into the registry [config->remotes];
      [NULL] is [None];
    - the program state is threaded explicitly through a small state and
      error monad; calls into the platform driver, into the message channel
      and to [elog] are recorded, in order, in the [trace] of the state. *)

From stdpp Require Import base list strings pretty.
From Stdlib Require Import ZArith Lia Floats.SpecFloat Sorting.Sorted.

Local Open Scope Z_scope.

(** ** Machine integers *)

Definition UINT64_MOD : Z := 2 ^ 64.

(** Reduction of an integer to its [uint64_t] representative. *)
Definition u64 (z : Z) : Z := z mod UINT64_MOD.

Definition add64 (a b : Z) : Z := u64 (a + b).
Definition sub64 (a b : Z) : Z := u64 (a - b).
Definition mul64 (a b : Z) : Z := u64 (a * b).

(** [1ULL << n] for a shift count below the width. *)
Definition shl64 (a n : Z) : Z := u64 (Z.shiftl a n).

(** ** Single-precision floats *)

Module F32.
Definition prec : Z := 24.
Definition emax : Z := 128.

Definition t := spec_float.

(** Conversion of an integer, rounding to nearest even: [(float)i]. *)
Definition of_Z (z : Z) : t := binary_normalize prec emax z 0 false.

Definition add : t -> t -> t := SFadd prec emax.
Definition sub : t -> t -> t := SFsub prec emax.
Definition mul : t -> t -> t := SFmul prec emax.
Definition div : t -> t -> t := SFdiv prec emax.

Definition zero : t := S754_zero false.
Definition one : t := of_Z 1.

(** [(uint64_t)f]: truncation toward zero.  The conversion of a negative,
    infinite or NaN value is undefined in C; it reads as 0 here. *)
Definition to_u64 (f : t) : Z :=
  match f with
  | S754_finite false m e =>
      if 0 <=? e then u64 (Z.pos m * 2 ^ e) else u64 (Z.pos m / 2 ^ (- e))
  | _ => 0
  end.
End F32.

Abbreviation float := F32.t.

(** ** Data model (types.h, proto.h) *)

Abbreviation rid := nat (only parsing).

Inductive direction_t := LEFT | RIGHT | UP | DOWN.

(** [for_each_direction] *)
Definition all_directions : list direction_t := [LEFT; RIGHT; UP; DOWN].

(** Modelled from the spec: types.h is not among the sources; the edge mask
    has one bit per direction, numbered in the order the directions are
    listed. *)
Definition dir_index (d : direction_t) : Z :=
  match d with LEFT => 0 | RIGHT => 1 | UP => 2 | DOWN => 3 end.

Definition ALLDIRS_MASK : Z := 15.

(** An array indexed by direction ([neighbors[dir]], [edgehist[dir]]). *)
Record dirmap (X : Type) := DirMap
  { at_left : X; at_right : X; at_up : X; at_down : X }.
Arguments DirMap {X} _ _ _ _.
Arguments at_left {X} _.
Arguments at_right {X} _.
Arguments at_up {X} _.
Arguments at_down {X} _.

Definition dm_get {X} (d : direction_t) (m : dirmap X) : X :=
  match d with
  | LEFT => at_left m | RIGHT => at_right m | UP => at_up m | DOWN => at_down m
  end.

Definition dm_set {X} (d : direction_t) (x : X) (m : dirmap X) : dirmap X :=
  match d with
  | LEFT => DirMap x (at_right m) (at_up m) (at_down m)
  | RIGHT => DirMap (at_left m) x (at_up m) (at_down m)
  | UP => DirMap (at_left m) (at_right m) x (at_down m)
  | DOWN => DirMap (at_left m) (at_right m) (at_up m) x
  end.

Definition dm_const {X} (x : X) : dirmap X := DirMap x x x x.

Inductive noderef :=
| NT_NONE
| NT_MASTER
| NT_REMOTE (node : rid)
| NT_REMOTE_TMPNAME (name : string).

(** The number of a node type, as [%d] prints it.  types.h is not among
    the sources: the enumerators are taken in the order [NT_NONE],
    [NT_MASTER], [NT_REMOTE], [NT_REMOTE_TMPNAME], counted from 0. *)
Definition nodetype_number (n : noderef) : Z :=
  match n with
  | NT_NONE => 0
  | NT_MASTER => 1
  | NT_REMOTE _ => 2
  | NT_REMOTE_TMPNAME _ => 3
  end.

Inductive connstate_t := CS_SETTINGUP | CS_CONNECTED | CS_FAILED | CS_PERMFAILED.

Inductive edgeevent_t := EE_DEPART | EE_ARRIVE.

Inductive pressrel_t := PR_PRESS | PR_RELEASE.

Abbreviation keycode_t := Z (only parsing).
Abbreviation mousebutton_t := Z (only parsing).

Record xypoint := XY { pt_x : Z; pt_y : Z }.

#[global] Instance direction_eq_dec : EqDecision direction_t.
Proof. solve_decision. Defined.
#[global] Instance connstate_eq_dec : EqDecision connstate_t.
Proof. solve_decision. Defined.
#[global] Instance edgeevent_eq_dec : EqDecision edgeevent_t.
Proof. solve_decision. Defined.

(** The payload of a wire message, by message type. *)
Inductive msgbody :=
| MT_SETUP (prot_vers : Z) (params : list (string * string))
| MT_READY
| MT_KEYEVENT (keycode : keycode_t) (pressrel : pressrel_t)
| MT_MOVEREL (dx dy : Z)
| MT_CLICKEVENT (button : mousebutton_t) (pressrel : pressrel_t)
| MT_SETMOUSEPOSSCREENREL (xpos ypos : float)
| MT_GETCLIPBOARD
| MT_SETCLIPBOARD (buf : string)
| MT_SETBRIGHTNESS (brightness : float)
| MT_EDGEMASKCHANGE (old new : Z) (xpos ypos : float)
| MT_LOGMSG (buf : string).

Record message := Message { body : msgbody; sendtime : Z }.

Definition new_message (b : msgbody) : message := Message b 0.

Definition with_sendtime (t : Z) (m : message) : message := Message (body m) t.

(** *** Configuration *)

Inductive focus_hint_type := FH_NONE | FH_DIM_INACTIVE | FH_FLASH_ACTIVE.

Record focus_hint_t := FocusHint
  { fh_type : focus_hint_type;
    fh_brightness : float;
    fh_duration : Z;
    fh_fade_steps : Z }.

Inductive mouseswitch_type := MS_NONE | MS_MULTITAP.

Record mouseswitch_t := MouseSwitch
  { ms_type : mouseswitch_type; ms_num : Z; ms_window : Z }.

Inductive nullswitch_t := NS_NO | NS_YES | NS_HOTKEYONLY.

#[global] Instance focus_hint_type_eq_dec : EqDecision focus_hint_type.
Proof. solve_decision. Defined.
#[global] Instance mouseswitch_type_eq_dec : EqDecision mouseswitch_type.
Proof. solve_decision. Defined.
#[global] Instance nullswitch_eq_dec : EqDecision nullswitch_t.
Proof. solve_decision. Defined.

Inductive action :=
| AT_SWITCH (dir : direction_t)
| AT_SWITCHTO (node : noderef)
| AT_RECONNECT
| AT_QUIT.

(** The part of [struct config] that stays fixed once the event loop runs. *)
Record config_t := Config
  { master_neighbors : dirmap noderef;
    focus_hint : focus_hint_t;
    mouseswitch : mouseswitch_t;
    show_nullswitch : nullswitch_t }.

(** *** Edge-event history *)

Record edge_state := EdgeState
  { evidx : Z;
    event_times : list Z;
    last_evtype : edgeevent_t }.

(** *** Message channel *)

(** Modelled from the spec: msgchan.c is not among the sources.  A channel
    holds the outbound messages not yet written to its descriptor; the
    backlog is bounded by a quota counted in queued messages; closing a
    channel closes the descriptor and discards the buffers. *)
Record msgchan := MsgChan { mc_open : bool; sendqueue : list message }.

Definition mc_init : msgchan := MsgChan true [].

Definition mc_close (mc : msgchan) : msgchan := MsgChan false [].

Definition mc_have_outbound_data (mc : msgchan) : bool :=
  match sendqueue mc with [] => false | _ => true end.

(** *** Remotes *)

Record remote := Remote
  { alias : string;
    params : list (string * string);
    neighbors : dirmap noderef;
    state : connstate_t;
    failcount : Z;
    next_reconnect_time : Z;
    sshpid : Z;
    chan : msgchan;
    scheduled_messages : list message;
    edgehist : dirmap edge_state }.

Definition set_state (v : connstate_t) (r : remote) : remote :=
  Remote (alias r) (params r) (neighbors r) v (failcount r)
         (next_reconnect_time r) (sshpid r) (chan r) (scheduled_messages r)
         (edgehist r).

Definition set_failcount (v : Z) (r : remote) : remote :=
  Remote (alias r) (params r) (neighbors r) (state r) v
         (next_reconnect_time r) (sshpid r) (chan r) (scheduled_messages r)
         (edgehist r).

Definition set_next_reconnect_time (v : Z) (r : remote) : remote :=
  Remote (alias r) (params r) (neighbors r) (state r) (failcount r)
         v (sshpid r) (chan r) (scheduled_messages r) (edgehist r).

Definition set_sshpid (v : Z) (r : remote) : remote :=
  Remote (alias r) (params r) (neighbors r) (state r) (failcount r)
         (next_reconnect_time r) v (chan r) (scheduled_messages r)
         (edgehist r).

Definition set_chan (v : msgchan) (r : remote) : remote :=
  Remote (alias r) (params r) (neighbors r) (state r) (failcount r)
         (next_reconnect_time r) (sshpid r) v (scheduled_messages r)
         (edgehist r).

Definition set_scheduled_messages (v : list message) (r : remote) : remote :=
  Remote (alias r) (params r) (neighbors r) (state r) (failcount r)
         (next_reconnect_time r) (sshpid r) (chan r) v (edgehist r).

Definition set_edgehist (v : dirmap edge_state) (r : remote) : remote :=
  Remote (alias r) (params r) (neighbors r) (state r) (failcount r)
         (next_reconnect_time r) (sshpid r) (chan r) (scheduled_messages r) v.

(** ** Clock and scheduler *)

Record scheduled_call (F A : Type) := ScheduledCall
  { sc_fn : F; sc_arg : A; calltime : Z }.
Arguments ScheduledCall {F A} _ _ _.
Arguments sc_fn {F A} _.
Arguments sc_arg {F A} _.
Arguments calltime {F A} _.

(** The insertion loop shared by [schedule_call] and [schedule_message]:
    walk the list up to the first entry that is strictly later than the new
    one and link the new entry in front of it. *)
Fixpoint insert_by_time {X : Type} (time : X -> Z) (new : X) (q : list X)
  : list X :=
  match q with
  | [] => [new]
  | x :: rest =>
      if time new <? time x then new :: x :: rest
      else x :: insert_by_time time new rest
  end.

(** The scheduler of main.c, for any program state that holds the list
    [scheduled_calls] and any meaning of the function pointers stored in
    it. *)
Module Scheduler.
Section Generic.
Context {St F A : Type}.
Variable get_calls : St -> list (scheduled_call F A).
Variable put_calls : list (scheduled_call F A) -> St -> St.
(** [call->fn(call->arg)] *)
Variable invoke : F -> A -> St -> St.

Definition schedule_call (fn : F) (arg : A) (when : Z) (s : St) : St :=
  put_calls (insert_by_time calltime (ScheduledCall fn arg when) (get_calls s)) s.

(** The [while] loop of [run_scheduled_calls]; it goes round once per
    unit of [fuel] and returns the calls it made, in order. *)
Fixpoint run_scheduled_calls (fuel : nat) (when : Z) (s : St)
  : option (list (scheduled_call F A) * St) :=
  match fuel with
  | O => None
  | S fuel' =>
      match get_calls s with
      | call :: rest =>
          if calltime call <=? when then
            match run_scheduled_calls fuel' when
                    (invoke (sc_fn call) (sc_arg call) (put_calls rest s)) with
            | Some (fired, s') => Some (call :: fired, s')
            | None => None
            end
          else Some ([], s)
      | [] => Some ([], s)
      end
  end.
End Generic.
End Scheduler.

(** ** Program state *)

(** The functions that main.c hands to [schedule_call]. *)
Inductive callback := FN_set_brightness_cb.

(** Calls that leave the program, in the order they are made. *)
Inductive event :=
| EvLog (text : string)
| EvLogPartial (text : string)
| EvEnqueue (rmt : rid) (msg : message)
| EvClose (rmt : rid)
| EvSpawn (rmt : rid) (pid : Z)
| EvKill (pid : Z)
| EvGrabInputs
| EvUngrabInputs
| EvSetMousepos (pt : xypoint)
| EvSetMouseposScreenrel (x y : float)
| EvSetDisplayBrightness (f : float)
| EvSetClipboard (buf : string).

Record world := World
  { focused_remote : option rid;
    remotes : list remote;
    scheduled_calls : list (scheduled_call callback float);
    saved_master_mousepos : xypoint;
    master_edgehist : dirmap edge_state;
    (* the platform and the operating system, as the program sees them *)
    clock : Z;
    next_pid : Z;
    mousepos : xypoint;
    clipboard : string;
    held_modifiers : list keycode_t;
    trace : list event }.

Definition set_focused_remote (v : option rid) (s : world) : world :=
  World v (remotes s) (scheduled_calls s) (saved_master_mousepos s)
        (master_edgehist s) (clock s) (next_pid s) (mousepos s) (clipboard s)
        (held_modifiers s) (trace s).

Definition set_remotes (v : list remote) (s : world) : world :=
  World (focused_remote s) v (scheduled_calls s) (saved_master_mousepos s)
        (master_edgehist s) (clock s) (next_pid s) (mousepos s) (clipboard s)
        (held_modifiers s) (trace s).

Definition set_scheduled_calls (v : list (scheduled_call callback float))
  (s : world) : world :=
  World (focused_remote s) (remotes s) v (saved_master_mousepos s)
        (master_edgehist s) (clock s) (next_pid s) (mousepos s) (clipboard s)
        (held_modifiers s) (trace s).

Definition set_saved_master_mousepos (v : xypoint) (s : world) : world :=
  World (focused_remote s) (remotes s) (scheduled_calls s) v
        (master_edgehist s) (clock s) (next_pid s) (mousepos s) (clipboard s)
        (held_modifiers s) (trace s).

Definition set_master_edgehist (v : dirmap edge_state) (s : world) : world :=
  World (focused_remote s) (remotes s) (scheduled_calls s)
        (saved_master_mousepos s) v (clock s) (next_pid s) (mousepos s)
        (clipboard s) (held_modifiers s) (trace s).

Definition set_clock (v : Z) (s : world) : world :=
  World (focused_remote s) (remotes s) (scheduled_calls s)
        (saved_master_mousepos s) (master_edgehist s) v (next_pid s)
        (mousepos s) (clipboard s) (held_modifiers s) (trace s).

Definition set_next_pid (v : Z) (s : world) : world :=
  World (focused_remote s) (remotes s) (scheduled_calls s)
        (saved_master_mousepos s) (master_edgehist s) (clock s) v
        (mousepos s) (clipboard s) (held_modifiers s) (trace s).

Definition set_mousepos_field (v : xypoint) (s : world) : world :=
  World (focused_remote s) (remotes s) (scheduled_calls s)
        (saved_master_mousepos s) (master_edgehist s) (clock s) (next_pid s)
        v (clipboard s) (held_modifiers s) (trace s).

Definition set_clipboard (v : string) (s : world) : world :=
  World (focused_remote s) (remotes s) (scheduled_calls s)
        (saved_master_mousepos s) (master_edgehist s) (clock s) (next_pid s)
        (mousepos s) v (held_modifiers s) (trace s).

Definition set_held_modifiers (v : list keycode_t) (s : world) : world :=
  World (focused_remote s) (remotes s) (scheduled_calls s)
        (saved_master_mousepos s) (master_edgehist s) (clock s) (next_pid s)
        (mousepos s) (clipboard s) v (trace s).

Definition set_trace (v : list event) (s : world) : world :=
  World (focused_remote s) (remotes s) (scheduled_calls s)
        (saved_master_mousepos s) (master_edgehist s) (clock s) (next_pid s)
        (mousepos s) (clipboard s) (held_modifiers s) v.

(** Append one event to the trace. *)
Definition emit (e : event) (s : world) : world :=
  set_trace (trace s ++ [e]) s.

(** Update the remote behind a handle.  Handles are pointers to registry
    entries in the program, so a handle outside the registry does not
    arise; it leaves the state as it is. *)
Definition alter_remote (f : remote -> remote) (rmt : rid) (s : world) : world :=
  set_remotes (alter f rmt (remotes s)) s.

(** ** The state and error monad *)

Inductive halt :=
| OutOfFuel
| AssertFailed
| OutOfBounds
| Exited (code : Z).

Inductive result (A : Type) :=
| Ok (a : A) (s : world)
| Halt (h : halt).
Arguments Ok {A} _ _.
Arguments Halt {A} _.

Definition M (A : Type) : Type := world -> result A.

Definition ret {A} (a : A) : M A := fun s => Ok a s.

Definition bind {A B} (m : M A) (k : A -> M B) : M B :=
  fun s => match m s with
           | Ok a s' => k a s'
           | Halt h => Halt h
           end.

Notation "'let*' x := m 'in' k" := (bind m (fun x => k))
  (at level 10, x name, m at level 100, k at level 200,
   format "'[v' 'let*'  x  :=  m  'in' '/' k ']'").
Notation "m >> k" := (bind m (fun _ => k))
  (at level 61, left associativity).

Definition gets {A} (f : world -> A) : M A := fun s => Ok (f s) s.
Definition modify (f : world -> world) : M unit := fun s => Ok tt (f s).
Definition halt_with {A} (h : halt) : M A := fun _ => Halt h.

(** A loop over a list, as [for_each_remote] and [for_each_direction]. *)
Fixpoint for_each {X} (l : list X) (bodyf : X -> M unit) : M unit :=
  match l with
  | [] => ret tt
  | x :: rest => bodyf x >> for_each rest bodyf
  end.

(** [elog] in master mode writes to stderr.  [EvLog text] stands for the
    line [text] and the newline that ends it; [EvLogPartial text] for output
    that does not end its line. *)
Definition elog (text : string) : M unit := modify (emit (EvLog text)).
Definition elog_partial (text : string) : M unit :=
  modify (emit (EvLogPartial text)).

Definition get_microtime : M Z := gets clock.

(** Reads through a handle; the default stands in for a handle outside the
    registry. *)
Definition remote_field {A} (f : remote -> A) (d : A) (rmt : rid) : M A :=
  gets (fun s => from_option f d (remotes s !! rmt)).

(** ** C strings *)

(** The string that a [char*] to the bytes [buf] denotes: the bytes before
    the first NUL. *)
Fixpoint c_string (buf : string) : string :=
  match buf with
  | EmptyString => EmptyString
  | String c rest =>
      if Ascii.eqb c Ascii.zero then EmptyString else String c (c_string rest)
  end.

Definition newline : Ascii.ascii := Ascii.ascii_of_nat 10.

(** The last byte of a buffer, [buf[len - 1]]; none in an empty buffer. *)
Fixpoint last_byte (buf : string) : option Ascii.ascii :=
  match buf with
  | EmptyString => None
  | String c EmptyString => Some c
  | String _ rest => last_byte rest
  end.

(** The text without the newline that ends it, if one does. *)
Fixpoint chomp (text : string) : option string :=
  match text with
  | EmptyString => None
  | String c EmptyString => if Ascii.eqb c newline then Some EmptyString else None
  | String c rest => String c <$> chomp rest
  end.

Definition INT_MAX : Z := 2 ^ 31 - 1.

(** ** Platform driver (platform.h)

    The driver is an external collaborator.  Each call is recorded in the
    trace; the pointer position, the clipboard text and the set of held
    modifier keys are what the driver would report. *)

Definition grab_inputs : M unit := modify (emit EvGrabInputs).
Definition ungrab_inputs : M unit := modify (emit EvUngrabInputs).
Definition get_mousepos : M xypoint := gets mousepos.
Definition set_mousepos (pt : xypoint) : M unit :=
  modify (fun s => emit (EvSetMousepos pt) (set_mousepos_field pt s)).
Definition set_mousepos_screenrel (x y : float) : M unit :=
  modify (emit (EvSetMouseposScreenrel x y)).
(** [clipboard] is the text of the clipboard as [get_clipboard_text]
    reports it, a C string: of the bytes handed to [set_clipboard_from_buf]
    it holds those before the first NUL, which is all that the [strlen] of
    the callers of [get_clipboard_text] counts. *)
Definition get_clipboard_text : M string := gets clipboard.
Definition set_clipboard_from_buf (buf : string) : M unit :=
  modify (fun s => emit (EvSetClipboard buf) (set_clipboard (c_string buf) s)).
Definition set_display_brightness (f : float) : M unit :=
  modify (emit (EvSetDisplayBrightness f)).
Definition get_current_modifiers : M (list keycode_t) := gets held_modifiers.

Definition UINT32_MAX : Z := 2 ^ 32 - 1.

Definition RECONNECT_INTERVAL_UNIT : Z := 500 * 1000.
Definition MAX_RECONNECT_INTERVAL : Z :=
  (30 * 1000 * 1000) `quot` RECONNECT_INTERVAL_UNIT.
Definition MAX_RECONNECT_ATTEMPTS : Z := 10.

(** ** The master *)

Section Master.
(** Constants of headers that are not among the sources. *)
Variable EDGESTATE_HISTLEN : Z.
Variable MAX_SEND_BACKLOG : nat.
Variable PROT_VERSION : Z.
(** [config] and the platform's [screen_center]. *)
Variable cfg : config_t.
Variable screen_center : xypoint.

(** Modelled from the spec: [mc_enqueue_message] of msgchan.c adds the
    message to the outbound buffer and reports failure when the backlog
    exceeds the quota. *)
Definition mc_enqueue_message (mc : msgchan) (msg : message) : msgchan * bool :=
  let q := sendqueue mc ++ [msg] in
  (MsgChan (mc_open mc) q, bool_decide (MAX_SEND_BACKLOG < length q)%nat).

(** The call of [mc_enqueue_message] on a remote's channel. *)
Definition mc_enqueue (rmt : rid) (msg : message) : M bool := fun s =>
  match remotes s !! rmt with
  | None => Ok false s
  | Some r =>
      let '(mc, full) := mc_enqueue_message (chan r) msg in
      Ok full (emit (EvEnqueue rmt msg) (alter_remote (set_chan mc) rmt s))
  end.

Definition schedule_call (fn : callback) (arg : float) (when : Z) : M unit :=
  modify (Scheduler.schedule_call scheduled_calls set_scheduled_calls fn arg when).

Definition schedule_message (rmt : rid) (newmsg : message) : M unit :=
  modify (alter_remote
            (fun r => set_scheduled_messages
                        (insert_by_time sendtime newmsg (scheduled_messages r)) r)
            rmt).

Definition schedule_brightness_change (rmt : option rid) (f : float) (when : Z)
  : M unit :=
  match rmt with
  | Some r => schedule_message r (with_sendtime when (new_message (MT_SETBRIGHTNESS f)))
  | None => schedule_call FN_set_brightness_cb f when
  end.

(** [enqueue_message], [fail_remote], [disconnect_remote], [focus_master]
    and [focus_node] call each other.  The functions are written over the
    recursive call [fail_remote_rec]; [fail_remote] then closes the knot
    with a bound on the nesting of failures. *)
Section Knot.
Variable fail_remote_rec : rid -> string -> M unit.

Definition enqueue_message (rmt : rid) (msg : message) : M unit :=
  let* full := mc_enqueue rmt msg in
  if full then fail_remote_rec rmt "send backlog exceeded" else ret tt.

Definition send_keyevent (rmt : option rid) (kc : keycode_t) (pr : pressrel_t)
  : M unit :=
  match rmt with
  | None => ret tt
  | Some r => enqueue_message r (new_message (MT_KEYEVENT kc pr))
  end.

Definition send_moverel (rmt : option rid) (dx dy : Z) : M unit :=
  match rmt with
  | None => ret tt
  | Some r => enqueue_message r (new_message (MT_MOVEREL dx dy))
  end.

Definition send_clickevent (rmt : option rid) (button : mousebutton_t)
  (pr : pressrel_t) : M unit :=
  match rmt with
  | None => ret tt
  | Some r => enqueue_message r (new_message (MT_CLICKEVENT button pr))
  end.

Definition send_setbrightness (rmt : option rid) (f : float) : M unit :=
  match rmt with
  | None => ret tt
  | Some r => enqueue_message r (new_message (MT_SETBRIGHTNESS f))
  end.

Definition set_node_display_brightness (rmt : option rid) (f : float) : M unit :=
  match rmt with
  | None => set_display_brightness f
  | Some _ => send_setbrightness rmt f
  end.

(** The body of the loop of [transition_brightness] for step [i]. *)
Definition fade_step (node : option rid) (from to : float) (duration steps : Z)
  (now_us : Z) (i : Z) : M unit :=
  let frac := F32.div (F32.of_Z i) (F32.of_Z steps) in
  let time := add64 now_us (F32.to_u64 (F32.mul frac (F32.of_Z duration))) in
  let level := F32.add from (F32.mul frac (F32.sub to from)) in
  schedule_brightness_change node level time.

(** [for (i = ...; i < steps; i++)], at most [n] times round. *)
Fixpoint fade_loop (n : nat) (node : option rid) (from to : float)
  (duration steps : Z) (now_us : Z) (i : Z) : M unit :=
  match n with
  | O => ret tt
  | S n' =>
      if i <? steps then
        fade_step node from to duration steps now_us i >>
        fade_loop n' node from to duration steps now_us (i + 1)
      else ret tt
  end.

Definition transition_brightness (node : option rid) (from to : float)
  (duration steps : Z) : M unit :=
  let* now_us := get_microtime in
  set_node_display_brightness node from >>
  fade_loop (Z.to_nat (steps - 1)) node from to duration steps now_us 1 >>
  schedule_brightness_change node to (add64 now_us duration).

Definition indicate_switch (from to : option rid) : M unit :=
  let fh := focus_hint cfg in
  match fh_type fh with
  | FH_NONE => ret tt
  | FH_DIM_INACTIVE =>
      (if decide (from <> to) then
         transition_brightness from F32.one (fh_brightness fh)
                               (fh_duration fh) (fh_fade_steps fh)
       else ret tt) >>
      transition_brightness to (fh_brightness fh) F32.one
                            (fh_duration fh) (fh_fade_steps fh)
  | FH_FLASH_ACTIVE =>
      transition_brightness to (fh_brightness fh) F32.one
                            (fh_duration fh) (fh_fade_steps fh)
  end.

Definition transfer_clipboard (from to : option rid) : M unit :=
  match from, to with
  | None, None => elog "switching from master to master??"
  | Some f, _ => enqueue_message f (new_message MT_GETCLIPBOARD)
  | None, Some t =>
      let* text := get_clipboard_text in
      if Z.of_nat (String.length text) <=? UINT32_MAX then
        enqueue_message t (new_message (MT_SETCLIPBOARD text))
      else halt_with AssertFailed
  end.

Definition transfer_modifiers (from to : option rid) (modkeys : list keycode_t)
  : M unit :=
  (match from with
   | Some f =>
       for_each modkeys
         (fun k => enqueue_message f (new_message (MT_KEYEVENT k PR_RELEASE)))
   | None => ret tt
   end) >>
  (match to with
   | Some t =>
       for_each modkeys
         (fun k => enqueue_message t (new_message (MT_KEYEVENT k PR_PRESS)))
   | None => ret tt
   end).

(** [focus_node] from the visual indication on, for the node the target
    resolved to.  The global [focused_remote] is read afresh wherever
    the C code names it: the calls in between may change it. *)
Definition focus_switch (switch_to : option rid) (modkeys : list keycode_t)
  (from_hotkey : bool) : M Z :=
  let* focused := gets focused_remote in
  (if bool_decide (switch_to <> focused)
      || match show_nullswitch cfg with
         | NS_YES => true
         | NS_HOTKEYONLY => from_hotkey
         | NS_NO => false
         end
   then indicate_switch focused switch_to
   else ret tt) >>
  let* focused := gets focused_remote in
  if decide (switch_to = focused) then ret 0
  else
    (match focused, switch_to with
     | Some _, None =>
         ungrab_inputs >>
         let* saved := gets saved_master_mousepos in
         set_mousepos saved
     | None, Some _ =>
         (let* pos := get_mousepos in
          modify (set_saved_master_mousepos pos)) >>
         grab_inputs
     | _, _ => ret tt
     end) >>
    (match switch_to with
     | Some _ => set_mousepos screen_center
     | None => ret tt
     end) >>
    (let* focused := gets focused_remote in
     transfer_clipboard focused switch_to) >>
    (let* focused := gets focused_remote in
     transfer_modifiers focused switch_to modkeys) >>
    modify (set_focused_remote switch_to) >>
    ret 1.

Definition focus_node (n : noderef) (modkeys : list keycode_t)
  (from_hotkey : bool) : M Z :=
  match n with
  | NT_NONE =>
      let* focused := gets focused_remote in
      focus_switch focused modkeys from_hotkey
  | NT_MASTER => focus_switch None modkeys from_hotkey
  | NT_REMOTE r =>
      let* st := remote_field (fun x => Some (state x)) None r in
      if decide (st = Some CS_CONNECTED) then
        focus_switch (Some r) modkeys from_hotkey
      else
        (let* name := remote_field alias "" r in
         elog ("remote '" +:+ name +:+ "' not connected, can't focus")) >>
        ret 0
  | NT_REMOTE_TMPNAME _ =>
      elog ("unexpected neighbor type " +:+ pretty (nodetype_number n)) >> ret 0
  end.

Definition focus_master : M unit :=
  let* modkeys := get_current_modifiers in
  focus_node NT_MASTER modkeys false >> ret tt.

Definition disconnect_remote (rmt : rid) : M unit :=
  (* Close fds and reset send & receive queues/buffers *)
  modify (fun s => emit (EvClose rmt)
                     (alter_remote (fun r => set_chan (mc_close (chan r)) r) rmt s)) >>
  (* Clear out scheduled messages *)
  modify (alter_remote (set_scheduled_messages []) rmt) >>
  (let* pid := remote_field sshpid (-1) rmt in
   if 0 <? pid then modify (emit (EvKill pid)) else ret tt) >>
  modify (alter_remote (set_sshpid (-1)) rmt) >>
  let* focused := gets focused_remote in
  if decide (focused = Some rmt) then focus_master else ret tt.

Definition fail_remote_body (rmt : rid) (reason : string) : M unit :=
  (let* name := remote_field alias "" rmt in
   elog ("disconnecting remote '" +:+ name +:+ "': " +:+ reason)) >>
  disconnect_remote rmt >>
  modify (alter_remote (fun r => set_failcount (failcount r + 1) r) rmt) >>
  let* fc := remote_field failcount 0 rmt in
  if MAX_RECONNECT_ATTEMPTS <? fc then
    (let* name := remote_field alias "" rmt in
     elog ("remote '" +:+ name +:+ "' exceeds failure limits, permfailing.")) >>
    modify (alter_remote (set_state CS_PERMFAILED) rmt)
  else
    modify (alter_remote (set_state CS_FAILED) rmt) >>
    (* 0.5s, 1s, 2s, 4s, 8s...capped at MAX_RECONNECT_INTERVAL *)
    let lshift := u64 (fc - 1) in
    let lshift := if 63 <? lshift then 63 else lshift in
    let tmp := shl64 1 lshift in
    let tmp := if MAX_RECONNECT_INTERVAL <? tmp then MAX_RECONNECT_INTERVAL else tmp in
    let* now := get_microtime in
    modify (alter_remote
              (set_next_reconnect_time (add64 now (mul64 tmp RECONNECT_INTERVAL_UNIT)))
              rmt).
End Knot.

(** [fail_remote], with at most [fuel] failures nested in one another. *)
Fixpoint fail_remote (fuel : nat) (rmt : rid) (reason : string) : M unit :=
  match fuel with
  | O => halt_with OutOfFuel
  | S fuel' => fail_remote_body (fail_remote fuel') rmt reason
  end.

(** *** Scheduled calls and messages *)

Definition set_brightness_cb (arg : float) : world -> world :=
  emit (EvSetDisplayBrightness arg).

(** [call->fn(call->arg)] for the functions main.c schedules. *)
Definition invoke_callback (fn : callback) (arg : float) : world -> world :=
  match fn with
  | FN_set_brightness_cb => set_brightness_cb arg
  end.

Definition run_scheduled_calls (fuel : nat) (when : Z) : M unit := fun s =>
  match Scheduler.run_scheduled_calls scheduled_calls set_scheduled_calls
          invoke_callback fuel when s with
  | Some (_, s') => Ok tt s'
  | None => Halt OutOfFuel
  end.

Definition remote_live (r : remote) : bool :=
  bool_decide (state r = CS_CONNECTED) || bool_decide (state r = CS_SETTINGUP).

(** The [while] loop of [enqueue_scheduled_messages], at most [n] times
    round. *)
Fixpoint enqueue_scheduled_messages (fuel n : nat) (rmt : rid) (when : Z)
  : M unit :=
  match n with
  | O => halt_with OutOfFuel
  | S n' =>
      let* q := remote_field scheduled_messages [] rmt in
      match q with
      | msg :: rest =>
          if sendtime msg <=? when then
            modify (alter_remote (set_scheduled_messages rest) rmt) >>
            enqueue_message (fail_remote fuel) rmt msg >>
            enqueue_scheduled_messages fuel n' rmt when
          else ret tt
      | [] => ret tt
      end
  end.

(** *** Remote lifecycle *)

(** [socketpair] and [fork] are taken to succeed; the operating system
    hands out the next process id. *)
Definition setup_remote (fuel : nat) (rmt : rid) : M unit :=
  let* pid := gets next_pid in
  modify (fun s => emit (EvSpawn rmt pid) (set_next_pid (pid + 1) s)) >>
  modify (alter_remote (set_sshpid pid) rmt) >>
  modify (alter_remote (set_state CS_SETTINGUP) rmt) >>
  modify (alter_remote (set_chan mc_init) rmt) >>
  let* kv := remote_field params [] rmt in
  enqueue_message (fail_remote fuel) rmt (new_message (MT_SETUP PROT_VERSION kv)).

(** *** Focus by direction *)

Definition focus_neighbor (fuel : nat) (dir : direction_t)
  (modkeys : list keycode_t) (from_hotkey : bool) : M Z :=
  let* focused := gets focused_remote in
  let* n := match focused with
            | Some r => remote_field (fun x => dm_get dir (neighbors x)) NT_NONE r
            | None => ret (dm_get dir (master_neighbors cfg))
            end in
  focus_node (fail_remote fuel) n modkeys from_hotkey.

(** *** Edge events *)

Definition record_edgeevent (es : edge_state) (evtype : edgeevent_t) (when : Z)
  : edge_state * Z :=
  if decide (evtype = last_evtype es) then (es, 1)
  else
    let idx := (evidx es + 1) `rem` EDGESTATE_HISTLEN in
    (EdgeState idx (<[Z.to_nat idx := when]> (event_times es)) evtype, 0).

(** [None] when the assertion on [rel_idx] fails. *)
Definition get_edgehist_entry (es : edge_state) (rel_idx : Z) : option Z :=
  if (rel_idx <? EDGESTATE_HISTLEN) && (0 <=? rel_idx) then
    let idx := (evidx es - rel_idx + EDGESTATE_HISTLEN) `rem` EDGESTATE_HISTLEN in
    Some (default 0 (event_times es !! Z.to_nat idx))
  else None.

(** A [struct edge_state*]: the history of one direction of the master
    ([None]) or of a remote. *)
Record histref := HistRef { hist_owner : option rid; hist_dir : direction_t }.

Definition empty_edge_state : edge_state := EdgeState 0 [] EE_DEPART.

Definition get_hist (h : histref) (s : world) : edge_state :=
  match hist_owner h with
  | None => dm_get (hist_dir h) (master_edgehist s)
  | Some r =>
      from_option (fun x => dm_get (hist_dir h) (edgehist x)) empty_edge_state
                  (remotes s !! r)
  end.

Definition put_hist (h : histref) (es : edge_state) (s : world) : world :=
  match hist_owner h with
  | None => set_master_edgehist (dm_set (hist_dir h) es (master_edgehist s)) s
  | Some r =>
      alter_remote (fun x => set_edgehist (dm_set (hist_dir h) es (edgehist x)) x) r s
  end.

(** The position on the destination screen that continues a move across
    the edge [dir] from ([src_x], [src_y]). *)
Definition reposition_target (dir : direction_t) (src_x src_y : float)
  : float * float :=
  match dir with
  | LEFT => (F32.one, src_y)
  | RIGHT => (F32.zero, src_y)
  | UP => (src_x, F32.one)
  | DOWN => (src_x, F32.zero)
  end.

Definition edgeswitch_reposition (fuel : nat) (dir : direction_t)
  (src_x src_y : float) : M unit :=
  let '(x, y) := reposition_target dir src_x src_y in
  let* focused := gets focused_remote in
  match focused with
  | Some r =>
      enqueue_message (fail_remote fuel) r
                      (new_message (MT_SETMOUSEPOSSCREENREL x y))
  | None => set_mousepos_screenrel x y
  end.

Definition trigger_edgeevent (fuel : nat) (ehist : histref) (dir : direction_t)
  (evtype : edgeevent_t) (src_xpos src_ypos : float) : M Z :=
  let* now_us := get_microtime in
  let* es := gets (get_hist ehist) in
  let '(es', status) := record_edgeevent es evtype now_us in
  modify (put_hist ehist es') >>
  if negb (status =? 0) then ret status
  else if bool_decide (ms_type (mouseswitch cfg) = MS_MULTITAP
                       /\ evtype = EE_ARRIVE) then
    let start_idx := (ms_num (mouseswitch cfg) - 1) * 2 in
    let* es := gets (get_hist ehist) in
    match get_edgehist_entry es start_idx with
    | None => halt_with AssertFailed
    | Some t =>
        let duration := sub64 now_us t in
        if duration <? ms_window (mouseswitch cfg) then
          let* modkeys := get_current_modifiers in
          let* switched := focus_neighbor fuel dir modkeys false in
          (if negb (switched =? 0)
           then edgeswitch_reposition fuel dir src_xpos src_ypos
           else ret tt) >>
          ret 0
        else ret 0
    end
  else ret 0.

(** The body of the loop of [check_edgeevents] for the direction [dir]. *)
Definition check_edge (fuel : nat) (hist : option rid) (srcname : string)
  (old new : Z) (xpos ypos : float) (dir : direction_t) : M unit :=
  let dirmask := Z.shiftl 1 (dir_index dir) in
  if negb (Z.land old dirmask =? Z.land new dirmask) then
    let edgeevtype := if negb (Z.land new dirmask =? 0)
                      then EE_ARRIVE else EE_DEPART in
    let* status := trigger_edgeevent fuel (HistRef hist dir) dir edgeevtype
                                     xpos ypos in
    if negb (status =? 0)
    then elog ("out-of-sync edge event on " +:+ srcname +:+ " ignored")
    else ret tt
  else ret tt.

Definition check_edgeevents (fuel : nat) (hist : option rid) (srcname : string)
  (old new : Z) (xpos ypos : float) : M unit :=
  for_each all_directions (check_edge fuel hist srcname old new xpos ypos).

Definition trigger_edgeevent_cb (fuel : nat) (old new : Z) (xpos ypos : float)
  : M unit :=
  check_edgeevents fuel None "master" old new xpos ypos.

(** *** Messages from a remote *)

Definition handle_message (fuel : nat) (rmt : rid) (msg : message) : M unit :=
  match body msg with
  | MT_READY =>
      let* st := remote_field (fun x => Some (state x)) None rmt in
      if decide (st = Some CS_SETTINGUP) then
        modify (alter_remote (set_state CS_CONNECTED) rmt) >>
        modify (alter_remote (set_failcount 0) rmt) >>
        (let* name := remote_field alias "" rmt in
         elog ("remote '" +:+ name +:+ "' becomes ready...")) >>
        match fh_type (focus_hint cfg) with
        | FH_DIM_INACTIVE =>
            transition_brightness (fail_remote fuel) (Some rmt) F32.one
              (fh_brightness (focus_hint cfg)) (fh_duration (focus_hint cfg))
              (fh_fade_steps (focus_hint cfg))
        | _ => ret tt
        end
      else fail_remote fuel rmt "unexpected READY message"
  | MT_SETCLIPBOARD buf =>
      let* st := remote_field (fun x => Some (state x)) None rmt in
      if decide (st = Some CS_CONNECTED) then
        set_clipboard_from_buf buf >>
        let* focused := gets focused_remote in
        match focused with
        | Some f =>
            let* text := get_clipboard_text in
            enqueue_message (fail_remote fuel) f (new_message (MT_SETCLIPBOARD text))
        | None => ret tt
        end
      else
        let* name := remote_field alias "" rmt in
        elog ("got unexpected SETCLIPBOARD from non-connected remote '"
              +:+ name +:+ "', ignoring.")
  | MT_LOGMSG buf =>
      let len := Z.of_nat (String.length buf) in
      let loglen := if INT_MAX <? len then INT_MAX else len in
      let* name := remote_field alias "" rmt in
      (* "%.*s" prints at most [loglen] bytes and stops at a NUL *)
      let shown := c_string (String.substring 0 (Z.to_nat loglen) buf) in
      match last_byte buf with
      | None => halt_with OutOfBounds
      | Some c =>
          if Ascii.eqb c newline then
            match chomp shown with
            | Some line => elog (name +:+ ": " +:+ line)
            | None => elog_partial (name +:+ ": " +:+ shown)
            end
          else elog (name +:+ ": " +:+ shown)
      end
  | MT_EDGEMASKCHANGE old new xpos ypos =>
      if negb (Z.land old (Z.lnot ALLDIRS_MASK) =? 0)
         || negb (Z.land new (Z.lnot ALLDIRS_MASK) =? 0)
      then fail_remote fuel rmt "invalid edge mask"
      else
        let* name := remote_field alias "" rmt in
        check_edgeevents fuel (Some rmt) name old new xpos ypos
  | _ => fail_remote fuel rmt "unexpected message type"
  end.

(** What [recv_message] and [send_message] report for a descriptor that
    [select] found ready. *)
Inductive recv_result :=
| RecvIncomplete
| RecvError
| RecvMessage (msg : message).

Inductive send_result :=
| SendError
| SendBlocked
| SendProgress (sent : nat).

Definition read_rmtdata (fuel : nat) (rmt : rid) (got : recv_result) : M unit :=
  match got with
  | RecvIncomplete => ret tt
  | RecvError => fail_remote fuel rmt "failed to receive valid message"
  | RecvMessage msg => handle_message fuel rmt msg
  end.

(** Modelled from the spec: [send_message] of msgchan.c writes as much of
    the buffered data as the descriptor accepts; here, the first [sent]
    messages of the queue. *)
Definition mc_sent (sent : nat) (mc : msgchan) : msgchan :=
  MsgChan (mc_open mc) (drop sent (sendqueue mc)).

Definition write_rmtdata (fuel : nat) (rmt : rid) (res : send_result) : M unit :=
  match res with
  | SendError => fail_remote fuel rmt "failed to send message"
  | SendBlocked => halt_with AssertFailed
  | SendProgress sent =>
      modify (alter_remote (fun r => set_chan (mc_sent sent (chan r)) r) rmt)
  end.

(** *** Hotkeys *)

(** [action_cb]; [modkeys] is what [get_hotkey_modifiers] reports. *)
Definition action_cb (fuel : nat) (a : action) (modkeys : list keycode_t)
  : M unit :=
  match a with
  | AT_SWITCH dir => focus_neighbor fuel dir modkeys true >> ret tt
  | AT_SWITCHTO node => focus_node (fail_remote fuel) node modkeys true >> ret tt
  | AT_RECONNECT =>
      let* now_us := get_microtime in
      modify (fun s =>
        set_remotes
          (map (fun r =>
                  set_next_reconnect_time now_us
                    (set_failcount 0
                       (if decide (state r = CS_PERMFAILED)
                        then set_state CS_FAILED r else r)))
               (remotes s)) s)
  | AT_QUIT => halt_with (Exited 0)
  end.

(** *** Event loop *)

(** What the platform driver delivers from [process_events]: calls back
    into main.c, and changes of what the driver will report. *)
Inductive platform_event :=
| PE_Hotkey (a : action) (modkeys : list keycode_t)
| PE_EdgeMask (old new : Z) (xpos ypos : float)
| PE_Key (kc : keycode_t) (pr : pressrel_t)
| PE_Motion (dx dy : Z)
| PE_Button (button : mousebutton_t) (pr : pressrel_t)
| PE_Modifiers (held : list keycode_t)
| PE_Clipboard (text : string)
| PE_Pointer (pt : xypoint).

Definition handle_event (fuel : nat) (ev : platform_event) : M unit :=
  match ev with
  | PE_Hotkey a modkeys => action_cb fuel a modkeys
  | PE_EdgeMask old new xpos ypos => trigger_edgeevent_cb fuel old new xpos ypos
  | PE_Key kc pr =>
      let* focused := gets focused_remote in
      send_keyevent (fail_remote fuel) focused kc pr
  | PE_Motion dx dy =>
      let* focused := gets focused_remote in
      send_moverel (fail_remote fuel) focused dx dy
  | PE_Button button pr =>
      let* focused := gets focused_remote in
      send_clickevent (fail_remote fuel) focused button pr
  | PE_Modifiers held => modify (set_held_modifiers held)
  | PE_Clipboard text => modify (set_clipboard text)
  | PE_Pointer pt => modify (set_mousepos_field pt)
  end.

Definition process_events (fuel : nat) (evs : list platform_event) : M unit :=
  for_each evs (handle_event fuel).

(** What one pass of [handle_fds] takes from outside: the clock reading,
    what [select] reports ready together with the outcome of the read or
    write on it, and the pending platform events. *)
Record fds_input := FdsInput
  { in_now : Z;
    in_readable : rid -> option recv_result;
    in_writable : rid -> option send_result;
    in_events : list platform_event }.

Fixpoint for_each_collect {X Y} (l : list X) (f : X -> M Y) : M (list Y) :=
  match l with
  | [] => ret []
  | x :: rest =>
      let* y := f x in
      let* ys := for_each_collect rest f in
      ret (y :: ys)
  end.

(** The body of the first loop over the remotes; returns whether the
    descriptor went into [rfds] and into [wfds]. *)
Definition prepare_remote (fuel : nat) (now_us : Z) (rmt : rid) : M (bool * bool) :=
  (let* st := remote_field (fun x => Some (state x)) None rmt in
   let* nrt := remote_field next_reconnect_time 0 rmt in
   if bool_decide (st = Some CS_FAILED) && (nrt <? now_us)
   then setup_remote fuel rmt else ret tt) >>
  let* live := remote_field remote_live false rmt in
  if live then
    enqueue_scheduled_messages fuel fuel rmt now_us >>
    let* outbound := remote_field (fun x => mc_have_outbound_data (chan x)) false rmt in
    ret (true, outbound)
  else ret (false, false).

(** The body of the second loop over the remotes. *)
Definition service_remote (fuel : nat) (inp : fds_input) (rmt : rid)
  (sets : bool * bool) : M unit :=
  (let* live := remote_field remote_live false rmt in
   match in_readable inp rmt with
   | Some got => if live && sets.1 then read_rmtdata fuel rmt got else ret tt
   | None => ret tt
   end) >>
  (* read_rmtdata() might have changed the remote's status, so check
     remote_live() again. *)
  (let* live := remote_field remote_live false rmt in
   match in_writable inp rmt with
   | Some res => if live && sets.2 then write_rmtdata fuel rmt res else ret tt
   | None => ret tt
   end).

Definition handle_fds (fuel : nat) (inp : fds_input) : M unit :=
  modify (set_clock (in_now inp)) >>
  let* now_us := get_microtime in
  run_scheduled_calls fuel now_us >>
  let* n := gets (fun s => length (remotes s)) in
  let* fdsets := for_each_collect (seq 0 n) (prepare_remote fuel now_us) in
  for_each (zip (seq 0 n) fdsets)
           (fun '(rmt, sets) => service_remote fuel inp rmt sets) >>
  process_events fuel (in_events inp).

(** [main] from the end of configuration on: every remote is set up. *)
Definition main_setup (fuel : nat) : M unit :=
  let* n := gets (fun s => length (remotes s)) in
  for_each (seq 0 n) (setup_remote fuel).

(** Modelled from the spec: the configuration parser is not among the
    sources.  When [main] reaches the set-up of the remotes, the master
    is focused, nothing is scheduled and no remote has failed. *)
Definition startup_world (s : world) : Prop :=
  focused_remote s = None /\
  scheduled_calls s = [] /\
  Forall (fun r => scheduled_messages r = [] /\ failcount r = 0) (remotes s).

(** The states the program passes through between two passes of the
    event loop. *)
Inductive reachable : world -> Prop :=
| reachable_start s0 s fuel :
    startup_world s0 -> main_setup fuel s0 = Ok tt s -> reachable s
| reachable_step s inp fuel s' :
    reachable s -> handle_fds fuel inp s = Ok tt s' -> reachable s'.

End Master.

(** ** Notions used by the statements *)

(** The edge events of a sequence that [record_edgeevent] records, that
    is, those for which it returns 0, with the history it leaves. *)
Fixpoint record_all (histlen : Z) (es : edge_state) (evs : list (edgeevent_t * Z))
  : edge_state * list (edgeevent_t * Z) :=
  match evs with
  | [] => (es, [])
  | (ev, when) :: rest =>
      let '(es1, status) := record_edgeevent histlen es ev when in
      let '(es2, recorded) := record_all histlen es1 rest in
      (es2, if status =? 0 then (ev, when) :: recorded else recorded)
  end.

Definition other_evtype (ev : edgeevent_t) : edgeevent_t :=
  match ev with EE_ARRIVE => EE_DEPART | EE_DEPART => EE_ARRIVE end.

(** ** Edge-event history *)

Section EdgeHistory.
Variable HISTLEN : Z.

Lemma record_edgeevent_duplicate es ev when :
  ev = last_evtype es -> record_edgeevent HISTLEN es ev when = (es, 1).
Proof.
  intros ->. unfold record_edgeevent.
  destruct (decide (last_evtype es = last_evtype es)); [reflexivity | congruence].
Qed.

Lemma record_edgeevent_fresh es ev when :
  ev <> last_evtype es ->
  exists es', record_edgeevent HISTLEN es ev when = (es', 0)
              /\ last_evtype es' = ev.
Proof.
  intros Hne. unfold record_edgeevent.
  destruct (decide (ev = last_evtype es)); [congruence |].
  eexists; split; reflexivity.
Qed.

Lemma record_edgeevent_last es ev when :
  last_evtype (record_edgeevent HISTLEN es ev when).1 = ev.
Proof.
  unfold record_edgeevent.
  destruct (decide (ev = last_evtype es)) as [-> | ]; reflexivity.
Qed.

(** The first recorded event of a sequence differs from the last one
    recorded before it. *)
Lemma record_all_head es evs ev when rest :
  (record_all HISTLEN es evs).2 = (ev, when) :: rest -> ev <> last_evtype es.
Proof.
  revert es. induction evs as [| [e t] evs IH]; intros es; simpl; [discriminate |].
  unfold record_edgeevent at 1.
  destruct (decide (e = last_evtype es)) as [Heq | Hne]; simpl.
  - destruct (record_all HISTLEN es evs) as [es2 recd] eqn:Hrec. simpl.
    intros ->. apply (IH es). rewrite Hrec. reflexivity.
  - match goal with
    | |- context [record_all HISTLEN ?e0 evs] =>
        destruct (record_all HISTLEN e0 evs) as [es2 recd]
    end.
    simpl. intros [= -> _ _]. exact Hne.
Qed.

Lemma record_all_adjacent es evs i a ta b tb :
  (record_all HISTLEN es evs).2 !! i = Some (a, ta) ->
  (record_all HISTLEN es evs).2 !! S i = Some (b, tb) ->
  b = other_evtype a.
Proof.
  revert es i. induction evs as [| [e t] evs IH]; intros es i; simpl; [discriminate |].
  unfold record_edgeevent at 1 2.
  destruct (decide (e = last_evtype es)) as [Heq | Hne]; simpl.
  - specialize (IH es i).
    destruct (record_all HISTLEN es evs) as [es2 recd]. simpl in *. exact IH.
  - set (es1 := EdgeState _ _ e).
    pose proof (record_all_head es1 evs) as Hhead.
    specialize (IH es1).
    destruct (record_all HISTLEN es1 evs) as [es2 recd]. simpl in *.
    destruct i as [| i]; simpl.
    + intros [= -> ->] Hb.
      destruct recd as [| [b' tb'] recd]; [discriminate |].
      simpl in Hb. injection Hb as -> ->.
      specialize (Hhead b tb recd eq_refl). simpl in Hhead.
      destruct a, b; simpl; congruence.
    + apply IH.
Qed.
End EdgeHistory.

(** ** Elementary facts about the state *)

Lemma dm_set_get {X} (d : direction_t) (m : dirmap X) : dm_set d (dm_get d m) m = m.
Proof. destruct d, m; reflexivity. Qed.

Lemma dm_get_set {X} (d : direction_t) (x : X) (m : dirmap X) :
  dm_get d (dm_set d x m) = x.
Proof. destruct d; reflexivity. Qed.

Lemma alter_fixed {X} (f : X -> X) (l : list X) (i : nat) (x : X) :
  l !! i = Some x -> f x = x -> alter f i l = l.
Proof.
  revert i. induction l as [| y l IH]; intros [| i]; simpl; try discriminate.
  - intros [= ->] ->. reflexivity.
  - intros Hl Hf. f_equal. eauto.
Qed.

Lemma alter_outside {X} (f : X -> X) (l : list X) (i : nat) :
  l !! i = None -> alter f i l = l.
Proof.
  revert i. induction l as [| y l IH]; intros [| i]; simpl; try discriminate;
    try reflexivity.
  intros Hl. f_equal. eauto.
Qed.

Lemma set_remotes_same (s : world) : set_remotes (remotes s) s = s.
Proof. destruct s; reflexivity. Qed.

Lemma set_edgehist_same (r : remote) : set_edgehist (edgehist r) r = r.
Proof. destruct r; reflexivity. Qed.

Lemma put_hist_get_hist (h : histref) (s : world) : put_hist h (get_hist h s) s = s.
Proof.
  destruct h as [[r |] d]; unfold put_hist, get_hist; simpl.
  - unfold alter_remote.
    destruct (remotes s !! r) as [x |] eqn:Hr; simpl.
    + rewrite (alter_fixed _ _ _ x Hr); [apply set_remotes_same |].
      rewrite dm_set_get. apply set_edgehist_same.
    + rewrite (alter_outside _ _ _ Hr). apply set_remotes_same.
  - rewrite dm_set_get. destruct s; reflexivity.
Qed.

(** An edge event of the type recorded last is turned away by
    [trigger_edgeevent] with a non-zero status and no effect at all. *)
Lemma trigger_edgeevent_duplicate histlen quota cfg center fuel h dir ev x y s :
  ev = last_evtype (get_hist h s) ->
  trigger_edgeevent histlen quota cfg center fuel h dir ev x y s = Ok 1 s.
Proof.
  intros Hev. unfold trigger_edgeevent, bind, get_microtime, gets, modify, ret.
  rewrite (record_edgeevent_duplicate histlen _ _ _ Hev). simpl.
  rewrite put_hist_get_hist. reflexivity.
Qed.

(** The type of event [check_edgeevents] derives for a direction whose bit
    differs between the two masks. *)
Definition edge_evtype (new : Z) (dir : direction_t) : edgeevent_t :=
  if negb (Z.land new (Z.shiftl 1 (dir_index dir)) =? 0) then EE_ARRIVE else EE_DEPART.

Lemma check_edge_duplicate histlen quota cfg center fuel hist srcname old new x y dir s :
  Z.land old (Z.shiftl 1 (dir_index dir)) <> Z.land new (Z.shiftl 1 (dir_index dir)) ->
  edge_evtype new dir = last_evtype (get_hist (HistRef hist dir) s) ->
  check_edge histlen quota cfg center fuel hist srcname old new x y dir s
  = Ok tt (emit (EvLog ("out-of-sync edge event on " +:+ srcname +:+ " ignored")) s).
Proof.
  intros Hbit Hev. unfold check_edge.
  apply Z.eqb_neq in Hbit. rewrite Hbit. simpl.
  unfold bind. fold (edge_evtype new dir).
  rewrite (trigger_edgeevent_duplicate _ _ _ _ _ _ _ _ _ _ _ Hev). reflexivity.
Qed.

(** C8.  An edge event whose type equals the type recorded last is turned
    away without any change to the history, and [check_edgeevents] logs it
    as out of sync; hence, of the events recorded in a history from any
    point on, the first differs from the one recorded last before it, the
    event before a recorded ARRIVE is a DEPART, and the event before a
    recorded DEPART is an ARRIVE. *)
Theorem edge_history_alternates :
  forall (histlen : Z) (quota : nat) (cfg : config_t) (center : xypoint),
    (forall es ev when,
        ev = last_evtype es -> record_edgeevent histlen es ev when = (es, 1)) /\
    (forall fuel hist srcname old new x y dir s,
        Z.land old (Z.shiftl 1 (dir_index dir)) <> Z.land new (Z.shiftl 1 (dir_index dir)) ->
        edge_evtype new dir = last_evtype (get_hist (HistRef hist dir) s) ->
        check_edge histlen quota cfg center fuel hist srcname old new x y dir s
        = Ok tt (emit (EvLog ("out-of-sync edge event on " +:+ srcname +:+ " ignored")) s)) /\
    (forall es evs,
        let recorded := (record_all histlen es evs).2 in
        (forall ev when, recorded !! 0%nat = Some (ev, when) -> ev <> last_evtype es) /\
        (forall i when, recorded !! S i = Some (EE_ARRIVE, when) ->
                        exists when', recorded !! i = Some (EE_DEPART, when')) /\
        (forall i when, recorded !! S i = Some (EE_DEPART, when) ->
                        exists when', recorded !! i = Some (EE_ARRIVE, when'))).
Proof.
  intros histlen quota cfg center. split; [| split].
  - intros es ev when. apply record_edgeevent_duplicate.
  - intros. apply check_edge_duplicate; assumption.
  - intros es evs recorded. subst recorded. split; [| split].
    + intros ev when H0.
      destruct (record_all histlen es evs).2 as [| [e t] rest] eqn:Hrec;
        [discriminate |].
      simpl in H0. injection H0 as -> ->.
      eapply record_all_head; eassumption.
    + intros i when HS.
      destruct ((record_all histlen es evs).2 !! i) as [[a ta] |] eqn:Hi.
      * pose proof (record_all_adjacent histlen es evs i a ta _ _ Hi HS) as Hadj.
        destruct a; simpl in Hadj; [eauto | discriminate].
      * apply lookup_ge_None in Hi. apply lookup_lt_Some in HS. lia.
    + intros i when HS.
      destruct ((record_all histlen es evs).2 !! i) as [[a ta] |] eqn:Hi.
      * pose proof (record_all_adjacent histlen es evs i a ta _ _ Hi HS) as Hadj.
        destruct a; simpl in Hadj; [discriminate | eauto].
      * apply lookup_ge_None in Hi. apply lookup_lt_Some in HS. lia.
Qed.

(** ** Messages from a remote that is not connected *)

Definition unexpected_type (b : msgbody) : Prop :=
  match b with
  | MT_READY | MT_SETCLIPBOARD _ | MT_LOGMSG _ | MT_EDGEMASKCHANGE _ _ _ _ => False
  | _ => True
  end.

(** C10.  A SETCLIPBOARD message from a remote that is not CONNECTED is
    logged and otherwise ignored: the local clipboard, the focus, the
    scheduled calls and every remote (its state, failure counter and channel
    included) stay as they are and the only event is the log line; a message
    of an unexpected type, in contrast, fails the remote. *)
Theorem setclipboard_from_unconnected_ignored :
  forall histlen quota cfg center fuel rmt r buf t s,
    remotes s !! rmt = Some r ->
    state r <> CS_CONNECTED ->
    (exists s',
        handle_message histlen quota cfg center fuel rmt
                       (Message (MT_SETCLIPBOARD buf) t) s = Ok tt s' /\
        clipboard s' = clipboard s /\
        remotes s' = remotes s /\
        focused_remote s' = focused_remote s /\
        scheduled_calls s' = scheduled_calls s /\
        trace s' = trace s ++
          [EvLog ("got unexpected SETCLIPBOARD from non-connected remote '"
                  +:+ alias r +:+ "', ignoring.")]) /\
    (forall b, unexpected_type b ->
        handle_message histlen quota cfg center fuel rmt (Message b t) s
        = fail_remote quota cfg center fuel rmt "unexpected message type" s).
Proof.
  intros histlen quota cfg center fuel rmt r buf t s Hr Hst. split.
  - eexists. split.
    + unfold handle_message, bind, remote_field, gets, elog, modify. simpl.
      rewrite Hr. simpl.
      destruct (decide (Some (state r) = Some CS_CONNECTED)) as [Heq |]; [congruence |].
      reflexivity.
    + rewrite Hr. repeat split.
  - intros b Hb. destruct b; simpl in Hb; try contradiction; reflexivity.
Qed.

(** ** Multi-tap edge switching *)

(** The history a [histref] points to exists: it is the master's, or that
    of a remote in the registry. *)
Definition hist_valid (h : histref) (s : world) : Prop :=
  match hist_owner h with
  | None => True
  | Some r => is_Some (remotes s !! r)
  end.

Lemma get_hist_put_hist h es s :
  hist_valid h s -> get_hist h (put_hist h es s) = es.
Proof.
  destruct h as [[r |] d]; unfold hist_valid, get_hist, put_hist; simpl.
  - intros [x Hx]. rewrite list_lookup_alter_eq, Hx. simpl. apply dm_get_set.
  - intros _. apply dm_get_set.
Qed.

Lemma sub64_small a b : 0 <= b -> b <= a -> a < UINT64_MOD -> sub64 a b = a - b.
Proof.
  intros. unfold sub64, u64. apply Z.mod_small. lia.
Qed.

(** With mouseswitch type MULTITAP, tap count [N] and window [W]: when an
    ARRIVE event is recorded and the entry [(N-1)*2] positions back in the
    history, of timestamp [ts], is less than [W] before now,
    [trigger_edgeevent] is [focus_neighbor] in the direction of the edge,
    followed after a real switch by [edgeswitch_reposition]. *)
Lemma trigger_edgeevent_multitap :
  forall histlen quota cfg center fuel h dir src_x src_y s N W ts,
    ms_type (mouseswitch cfg) = MS_MULTITAP ->
    ms_num (mouseswitch cfg) = N ->
    ms_window (mouseswitch cfg) = W ->
    hist_valid h s ->
    last_evtype (get_hist h s) <> EE_ARRIVE ->
    get_edgehist_entry histlen
      (record_edgeevent histlen (get_hist h s) EE_ARRIVE (clock s)).1
      ((N - 1) * 2) = Some ts ->
    0 <= ts <= clock s -> clock s < UINT64_MOD ->
    clock s - ts < W ->
    trigger_edgeevent histlen quota cfg center fuel h dir EE_ARRIVE src_x src_y s
    = (let* switched := focus_neighbor quota cfg center fuel dir (held_modifiers s) false in
       (if negb (switched =? 0)
        then edgeswitch_reposition quota cfg center fuel dir src_x src_y
        else ret tt) >>
       ret 0)
        (put_hist h (record_edgeevent histlen (get_hist h s) EE_ARRIVE (clock s)).1 s)
    /\
    (forall s2 R,
        focused_remote s2 = Some R ->
        edgeswitch_reposition quota cfg center fuel dir src_x src_y s2
        = enqueue_message quota (fail_remote quota cfg center fuel) R
            (new_message
               match dir with
               | LEFT => MT_SETMOUSEPOSSCREENREL F32.one src_y
               | RIGHT => MT_SETMOUSEPOSSCREENREL F32.zero src_y
               | UP => MT_SETMOUSEPOSSCREENREL src_x F32.one
               | DOWN => MT_SETMOUSEPOSSCREENREL src_x F32.zero
               end) s2).
Proof.
  intros histlen quota cfg center fuel h dir src_x src_y s N W ts
         Htype HN HW Hvalid Hlast Hentry Hts Hnow Hwin.
  split.
  - unfold trigger_edgeevent.
    unfold bind at 1. unfold get_microtime at 1, gets at 1.
    unfold bind at 1. unfold gets at 1.
    destruct (record_edgeevent_fresh histlen (get_hist h s) EE_ARRIVE (clock s))
      as (es' & Hrec & _); [congruence |].
    rewrite Hrec in *. simpl in Hentry.
    unfold bind at 1. unfold modify at 1.
    change (negb (0 =? 0)) with false. cbv beta iota.
    rewrite bool_decide_eq_true_2 by (split; [exact Htype | reflexivity]).
    unfold bind at 1. unfold gets at 1.
    rewrite (get_hist_put_hist h es' s Hvalid), HN, Hentry, HW.
    rewrite (sub64_small (clock s) ts) by lia.
    assert (Hlt : (clock s - ts <? W) = true) by (apply Z.ltb_lt; exact Hwin).
    rewrite Hlt.
    unfold bind at 1. unfold get_current_modifiers at 1, gets at 1.
    destruct h as [[r |] d]; reflexivity.
  - intros s2 R Hfoc. unfold edgeswitch_reposition.
    destruct dir; simpl; unfold bind, gets; rewrite Hfoc; reflexivity.
Qed.

(** ** One pass of the scheduler *)

Definition due {F A} (when : Z) (c : scheduled_call F A) : bool :=
  calltime c <=? when.

(** The first entry of the queue, if any, is later than [when]. *)
Definition head_not_due {F A} (when : Z) (q : list (scheduled_call F A)) : Prop :=
  match q with
  | [] => True
  | c :: _ => when < calltime c
  end.

Fixpoint take_due {F A} (when : Z) (q : list (scheduled_call F A))
  : list (scheduled_call F A) :=
  match q with
  | [] => []
  | c :: rest => if due when c then c :: take_due when rest else []
  end.

Fixpoint drop_due {F A} (when : Z) (q : list (scheduled_call F A))
  : list (scheduled_call F A) :=
  match q with
  | [] => []
  | c :: rest => if due when c then drop_due when rest else c :: rest
  end.

Section SchedulerPass.
Context {St F A : Type}.
Variable get_calls : St -> list (scheduled_call F A).
Variable put_calls : list (scheduled_call F A) -> St -> St.
Variable invoke : F -> A -> St -> St.
Hypothesis get_put : forall q s, get_calls (put_calls q s) = q.

Let run := Scheduler.run_scheduled_calls get_calls put_calls invoke.

Lemma run_pops_then_invokes fuel when s call rest :
  get_calls s = call :: rest ->
  calltime call <= when ->
  run (S fuel) when s
  = match run fuel when (invoke (sc_fn call) (sc_arg call) (put_calls rest s)) with
    | Some (fired, s') => Some (call :: fired, s')
    | None => None
    end.
Proof.
  intros Hq Hdue. unfold run. simpl. rewrite Hq.
  apply Z.leb_le in Hdue. rewrite Hdue. reflexivity.
Qed.

Lemma run_end_of_pass fuel when s fired s' :
  run fuel when s = Some (fired, s') ->
  Forall (fun c => calltime c <= when) fired /\ head_not_due when (get_calls s').
Proof.
  unfold run. revert s fired s'.
  induction fuel as [| fuel IH]; intros s fired s'; simpl; [discriminate |].
  destruct (get_calls s) as [| call rest] eqn:Hq.
  - intros [= <- <-]. rewrite Hq. split; constructor.
  - destruct (calltime call <=? when) eqn:Hdue.
    + destruct (Scheduler.run_scheduled_calls get_calls put_calls invoke fuel when _)
        as [[fired0 s0] |] eqn:Hrun; [| discriminate].
      intros [= <- <-]. destruct (IH _ _ _ Hrun) as [Hall Hhead].
      split; [| exact Hhead].
      constructor; [apply Z.leb_le; exact Hdue | exact Hall].
    + intros [= <- <-]. rewrite Hq. split; [constructor |].
      simpl. apply Z.leb_gt. exact Hdue.
Qed.

(** With callbacks that leave the queue alone, a pass fires the due
    prefix of the queue, in queue order, and leaves the rest. *)
Lemma run_quiet_callbacks when :
  (forall fn arg s, get_calls (invoke fn arg s) = get_calls s) ->
  forall s, exists s',
    run (S (length (get_calls s))) when s = Some (take_due when (get_calls s), s')
    /\ get_calls s' = drop_due when (get_calls s).
Proof.
  intros Hquiet s. unfold run.
  remember (get_calls s) as q eqn:Hq. revert s Hq.
  induction q as [| call rest IH]; intros s Hq.
  - exists s. simpl. rewrite <- Hq. split; [reflexivity | congruence].
  - cbn [length]. remember (S (length rest)) as n eqn:Hn. simpl.
    rewrite <- Hq. unfold due.
    destruct (calltime call <=? when) eqn:Hdue.
    + destruct (IH (invoke (sc_fn call) (sc_arg call) (put_calls rest s)))
        as (s' & Hrun & Hrest).
      { rewrite Hquiet, get_put. reflexivity. }
      exists s'. subst n. rewrite Hrun. split; [reflexivity | exact Hrest].
    + exists s. split; [reflexivity | congruence].
Qed.
End SchedulerPass.

(** A scheduler client whose callback [Resched] schedules [Mark] for time 0;
    the state is the queue together with the callbacks invoked so far. *)
Module ReschedulingClient.
Inductive fn := Resched | Mark.

Definition st : Type := list (scheduled_call fn unit) * list fn.

Definition get_calls (s : st) : list (scheduled_call fn unit) := s.1.
Definition put_calls (q : list (scheduled_call fn unit)) (s : st) : st := (q, s.2).

Definition invoke (f : fn) (arg : unit) (s : st) : st :=
  match f with
  | Resched =>
      Scheduler.schedule_call get_calls put_calls Mark tt 0 (s.1, s.2 ++ [Resched])
  | Mark => (s.1, s.2 ++ [Mark])
  end.

Definition start : st := ([ScheduledCall Resched tt 5], []).
End ReschedulingClient.

(** C3, as stated, fails: in a pass at time 10 over a queue that holds only
    [Resched] (due at 5), the call of [Mark] that [Resched] schedules for
    time 0 is not in the queue when the pass starts and is run in that very
    pass. *)
Lemma rescheduled_call_runs_in_same_pass :
  let new_call := ScheduledCall ReschedulingClient.Mark tt 0 in
  (new_call ∉ ReschedulingClient.get_calls ReschedulingClient.start) /\
  Scheduler.run_scheduled_calls ReschedulingClient.get_calls
    ReschedulingClient.put_calls ReschedulingClient.invoke 3 10
    ReschedulingClient.start
  = Some ([ScheduledCall ReschedulingClient.Resched tt 5; new_call],
          ([], [ReschedulingClient.Resched; ReschedulingClient.Mark])).
Proof.
  split; [| reflexivity].
  simpl. intros Hin. apply list_elem_of_singleton in Hin. discriminate.
Qed.

(** C3, amended.  [run_scheduled_calls] takes the head of the queue off
    before it invokes it, and goes on for as long as the head of the queue
    is due: every call it makes is due, and when the pass ends the head of
    the queue is not due, whether it was scheduled before the pass or by a
    callback during it; so a call that a callback schedules for a time up to
    now is run in the same pass, right after it if it comes first in the
    queue.  With callbacks that schedule nothing the pass ends and fires the
    due entries in queue order. *)
Theorem run_scheduled_calls_pass :
  forall (St F A : Type)
         (get_calls : St -> list (scheduled_call F A))
         (put_calls : list (scheduled_call F A) -> St -> St)
         (invoke : F -> A -> St -> St),
    (forall q s, get_calls (put_calls q s) = q) ->
    let run := Scheduler.run_scheduled_calls get_calls put_calls invoke in
    (forall fuel when s call rest,
        get_calls s = call :: rest -> calltime call <= when ->
        get_calls (put_calls rest s) = rest /\
        run (S fuel) when s
        = match run fuel when (invoke (sc_fn call) (sc_arg call) (put_calls rest s)) with
          | Some (fired, s') => Some (call :: fired, s')
          | None => None
          end) /\
    (forall fuel when s fired s',
        run fuel when s = Some (fired, s') ->
        Forall (fun c => calltime c <= when) fired /\
        head_not_due when (get_calls s')) /\
    (forall fuel when s call rest new_call rest',
        get_calls s = call :: rest -> calltime call <= when ->
        get_calls (invoke (sc_fn call) (sc_arg call) (put_calls rest s))
        = new_call :: rest' ->
        calltime new_call <= when ->
        forall fired s',
          run (S (S fuel)) when s = Some (fired, s') ->
          exists later, fired = call :: new_call :: later) /\
    ((forall fn arg s, get_calls (invoke fn arg s) = get_calls s) ->
     forall when s, exists s',
       run (S (length (get_calls s))) when s = Some (take_due when (get_calls s), s')
       /\ get_calls s' = drop_due when (get_calls s)).
Proof.
  intros St F A get_calls put_calls invoke Hgp run. subst run.
  split; [| split; [| split]].
  - intros fuel when s call rest Hq Hdue. split; [apply Hgp |].
    apply run_pops_then_invokes; assumption.
  - intros fuel when s fired s'. apply run_end_of_pass.
  - intros fuel when s call rest new_call rest' Hq Hdue Hq' Hdue' fired s'.
    rewrite (run_pops_then_invokes _ _ _ _ _ _ _ _ Hq Hdue).
    rewrite (run_pops_then_invokes _ _ _ _ _ _ _ _ Hq' Hdue').
    destruct (Scheduler.run_scheduled_calls _ _ _ fuel when _) as [[fired0 s0] |];
      [| discriminate].
    intros [= <- _]. eauto.
  - intros Hquiet when s. apply run_quiet_callbacks; assumption.
Qed.

(** ** Reasoning about monadic code *)

(** Partial correctness: if [m] returns from a state in [P], the result and
    the final state are in [Q]. *)
Definition hoare {A} (P : world -> Prop) (m : M A) (Q : A -> world -> Prop) : Prop :=
  forall s, P s -> match m s with Ok a s' => Q a s' | Halt _ => True end.

(** Total correctness: from a state in [P], [m] returns in [Q]. *)
Definition total {A} (P : world -> Prop) (m : M A) (Q : A -> world -> Prop) : Prop :=
  forall s, P s -> exists a s', m s = Ok a s' /\ Q a s'.

Definition preserves {A} (I : world -> Prop) (m : M A) : Prop :=
  hoare I m (fun _ => I).

Section HoareRules.
Context {A B : Type}.

Lemma hoare_ret (P : A -> world -> Prop) (a : A) : hoare (P a) (ret a) P.
Proof. intros s Hs. exact Hs. Qed.

Lemma hoare_bind (P : world -> Prop) (Q : A -> world -> Prop)
  (R : B -> world -> Prop) (m : M A) (k : A -> M B) :
  hoare P m Q -> (forall a, hoare (Q a) (k a) R) -> hoare P (bind m k) R.
Proof.
  intros Hm Hk s Hs. unfold bind. specialize (Hm s Hs).
  destruct (m s) as [a s' |]; [apply Hk; exact Hm | exact I].
Qed.

Lemma hoare_conseq (P P' : world -> Prop) (Q Q' : A -> world -> Prop) (m : M A) :
  hoare P' m Q' -> (forall s, P s -> P' s) -> (forall a s, Q' a s -> Q a s) ->
  hoare P m Q.
Proof.
  intros Hm HP HQ s Hs. specialize (Hm s (HP s Hs)).
  destruct (m s); [apply HQ; exact Hm | exact I].
Qed.

Lemma hoare_gets (P : world -> Prop) (f : world -> A) :
  hoare P (gets f) (fun a s => a = f s /\ P s).
Proof. intros s Hs. simpl. auto. Qed.

Lemma hoare_halt (P : world -> Prop) (Q : A -> world -> Prop) (h : halt) :
  hoare P (halt_with h) Q.
Proof. intros s Hs. exact I. Qed.

Lemma total_ret (P : A -> world -> Prop) (a : A) : total (P a) (ret a) P.
Proof. intros s Hs. exists a, s. auto. Qed.

Lemma total_bind (P : world -> Prop) (Q : A -> world -> Prop)
  (R : B -> world -> Prop) (m : M A) (k : A -> M B) :
  total P m Q -> (forall a, total (Q a) (k a) R) -> total P (bind m k) R.
Proof.
  intros Hm Hk s Hs. unfold bind.
  destruct (Hm s Hs) as (a & s' & -> & Hq). apply (Hk a s' Hq).
Qed.

Lemma total_conseq (P P' : world -> Prop) (Q Q' : A -> world -> Prop) (m : M A) :
  total P' m Q' -> (forall s, P s -> P' s) -> (forall a s, Q' a s -> Q a s) ->
  total P m Q.
Proof.
  intros Hm HP HQ s Hs. destruct (Hm s (HP s Hs)) as (a & s' & Hrun & Hq).
  exists a, s'. auto.
Qed.

Lemma total_gets (P : world -> Prop) (f : world -> A) :
  total P (gets f) (fun a s => a = f s /\ P s).
Proof. intros s Hs. exists (f s), s. auto. Qed.
End HoareRules.

Lemma hoare_modify (P Q : world -> Prop) (f : world -> world) :
  (forall s, P s -> Q (f s)) -> hoare P (modify f) (fun _ => Q).
Proof. intros Hf s Hs. simpl. auto. Qed.

Lemma total_modify (P Q : world -> Prop) (f : world -> world) :
  (forall s, P s -> Q (f s)) -> total P (modify f) (fun _ => Q).
Proof. intros Hf s Hs. exists tt, (f s). auto. Qed.

Section PreservesRules.
Variable I : world -> Prop.

Lemma preserves_ret {A} (a : A) : preserves I (ret a).
Proof. intros s Hs. exact Hs. Qed.

Lemma preserves_gets {A} (f : world -> A) : preserves I (gets f).
Proof. intros s Hs. exact Hs. Qed.

Lemma preserves_remote_field {A B} (f : remote -> A) (d : A) (rmt : rid)
  (k : A -> M B) :
  (forall a, preserves I (k a)) -> preserves I (bind (remote_field f d rmt) k).
Proof. intros Hk s Hs. unfold bind, remote_field, gets. apply Hk. exact Hs. Qed.

Lemma preserves_halt {A} (h : halt) : preserves I (halt_with h : M A).
Proof. intros s Hs. exact Logic.I. Qed.

Lemma preserves_modify (f : world -> world) :
  (forall s, I s -> I (f s)) -> preserves I (modify f).
Proof. intros Hf s Hs. simpl. auto. Qed.

Lemma preserves_bind {A B} (m : M A) (k : A -> M B) :
  preserves I m -> (forall a, preserves I (k a)) -> preserves I (bind m k).
Proof. intros Hm Hk. eapply hoare_bind; [exact Hm | exact Hk]. Qed.

Lemma preserves_for_each {X} (l : list X) (f : X -> M unit) :
  (forall x, preserves I (f x)) -> preserves I (for_each l f).
Proof.
  intros Hf. induction l as [| x l IH]; simpl.
  - apply preserves_ret.
  - apply preserves_bind; [apply Hf | intros _; exact IH].
Qed.
End PreservesRules.

(** One step through the structure of a monadic term. *)
Ltac pres_step :=
  lazymatch goal with
  | |- preserves _ (bind (remote_field _ _ _) _) =>
      apply preserves_remote_field; intros ?
  | |- preserves _ (bind _ _) => apply preserves_bind; [| intros ?]
  | |- preserves _ (ret _) => apply preserves_ret
  | |- preserves _ (gets _) => apply preserves_gets
  | |- preserves _ (halt_with _) => apply preserves_halt
  | |- preserves _ (for_each _ _) => apply preserves_for_each; intros ?
  | |- preserves _ (if ?b then _ else _) => destruct b
  | |- preserves _ (match ?x with _ => _ end) => destruct x
  end.

(** ** Invariants of the failure knot *)

(** The state changes made by the mutually recursive functions around
    [fail_remote], the assignment to [focused_remote] apart. *)
Record knot_stable (I : world -> Prop) : Prop := KnotStable
  { st_emit : forall e s, I s -> I (emit e s);
    st_chan : forall (f : remote -> msgchan) rmt s,
      I s -> I (alter_remote (fun r => set_chan (f r) r) rmt s);
    st_sched_clear : forall rmt s,
      I s -> I (alter_remote (set_scheduled_messages []) rmt s);
    st_sched_insert : forall msg rmt s,
      I s ->
      I (alter_remote
           (fun r => set_scheduled_messages
                       (insert_by_time sendtime msg (scheduled_messages r)) r) rmt s);
    st_sshpid : forall v rmt s, I s -> I (alter_remote (set_sshpid v) rmt s);
    st_failcount : forall (f : remote -> Z) rmt s,
      I s -> I (alter_remote (fun r => set_failcount (f r) r) rmt s);
    st_state : forall v rmt s, I s -> I (alter_remote (set_state v) rmt s);
    st_nrt : forall v rmt s, I s -> I (alter_remote (set_next_reconnect_time v) rmt s);
    st_call : forall fn arg when s,
      I s -> I (Scheduler.schedule_call scheduled_calls set_scheduled_calls fn arg when s);
    st_mousepos : forall v s, I s -> I (set_mousepos_field v s);
    st_saved : forall v s, I s -> I (set_saved_master_mousepos v s) }.

Section KnotInvariant.
Variable quota : nat.
Variable cfg : config_t.
Variable center : xypoint.
Variable I : world -> Prop.
Hypothesis stable : knot_stable I.

Local Ltac prim :=
  first
    [ apply preserves_modify; intros ? ?;
      repeat first [ assumption
                   | apply (st_emit I stable)
                   | apply (st_chan I stable)
                   | apply (st_sched_clear I stable)
                   | apply (st_sched_insert I stable)
                   | apply (st_sshpid I stable)
                   | apply (st_failcount I stable)
                   | apply (st_state I stable)
                   | apply (st_nrt I stable)
                   | apply (st_call I stable)
                   | apply (st_mousepos I stable)
                   | apply (st_saved I stable) ]
    | pres_step ].

Lemma preserves_mc_enqueue rmt msg : preserves I (mc_enqueue quota rmt msg).
Proof.
  intros s Hs. unfold mc_enqueue.
  destruct (remotes s !! rmt) as [r |]; [| exact Hs].
  simpl. apply (st_emit I stable).
  apply (st_chan I stable (fun _ => _)). exact Hs.
Qed.

Lemma preserves_schedule_brightness_change node f when :
  preserves I (schedule_brightness_change node f when).
Proof.
  unfold schedule_brightness_change, schedule_message, schedule_call.
  destruct node; prim.
Qed.

Section Rec.
Variable rec : rid -> string -> M unit.
Hypothesis rec_preserves : forall r reason, preserves I (rec r reason).

Lemma preserves_enqueue_message rmt msg :
  preserves I (enqueue_message quota rec rmt msg).
Proof.
  unfold enqueue_message. apply preserves_bind.
  - apply preserves_mc_enqueue.
  - intros [|]; [apply rec_preserves | apply preserves_ret].
Qed.

Lemma preserves_send_setbrightness rmt f :
  preserves I (send_setbrightness quota rec rmt f).
Proof.
  unfold send_setbrightness.
  destruct rmt; [apply preserves_enqueue_message | apply preserves_ret].
Qed.

Lemma preserves_set_node_display_brightness rmt f :
  preserves I (set_node_display_brightness quota rec rmt f).
Proof.
  unfold set_node_display_brightness, set_display_brightness.
  destruct rmt; [apply preserves_send_setbrightness | prim].
Qed.

Lemma preserves_fade_loop n node from to duration steps now_us i :
  preserves I (fade_loop n node from to duration steps now_us i).
Proof.
  revert i. induction n as [| n IH]; intros i; simpl; [apply preserves_ret |].
  destruct (i <? steps); [| apply preserves_ret].
  apply preserves_bind; [| intros _; apply IH].
  apply preserves_schedule_brightness_change.
Qed.

Lemma preserves_transition_brightness node from to duration steps :
  preserves I (transition_brightness quota rec node from to duration steps).
Proof.
  unfold transition_brightness, get_microtime.
  repeat first [ apply preserves_set_node_display_brightness
               | apply preserves_fade_loop
               | apply preserves_schedule_brightness_change
               | prim ].
Qed.

Lemma preserves_indicate_switch from to :
  preserves I (indicate_switch quota cfg rec from to).
Proof.
  unfold indicate_switch.
  repeat first [ apply preserves_transition_brightness | prim ].
Qed.

Lemma preserves_transfer_clipboard from to :
  preserves I (transfer_clipboard quota rec from to).
Proof.
  unfold transfer_clipboard, elog, get_clipboard_text.
  repeat first [ apply preserves_enqueue_message | prim ].
Qed.

Lemma preserves_transfer_modifiers from to modkeys :
  preserves I (transfer_modifiers quota rec from to modkeys).
Proof.
  unfold transfer_modifiers.
  repeat first [ apply preserves_enqueue_message | prim ].
Qed.

Lemma preserves_send_keyevent rmt kc pr :
  preserves I (send_keyevent quota rec rmt kc pr).
Proof.
  unfold send_keyevent.
  destruct rmt; [apply preserves_enqueue_message | apply preserves_ret].
Qed.

Lemma preserves_send_moverel rmt dx dy :
  preserves I (send_moverel quota rec rmt dx dy).
Proof.
  unfold send_moverel.
  destruct rmt; [apply preserves_enqueue_message | apply preserves_ret].
Qed.

Lemma preserves_send_clickevent rmt b pr :
  preserves I (send_clickevent quota rec rmt b pr).
Proof.
  unfold send_clickevent.
  destruct rmt; [apply preserves_enqueue_message | apply preserves_ret].
Qed.

(** The rest of the knot, given what the focus switch to the master
    preserves. *)
Section Handback.
Hypothesis handback_preserves :
  forall modkeys from_hotkey,
    preserves I (focus_switch quota cfg center rec None modkeys from_hotkey).

Lemma preserves_focus_master :
  preserves I (focus_master quota cfg center rec).
Proof.
  unfold focus_master, get_current_modifiers. simpl.
  repeat first [ apply handback_preserves | prim ].
Qed.

Lemma preserves_disconnect_remote rmt :
  preserves I (disconnect_remote quota cfg center rec rmt).
Proof.
  unfold disconnect_remote.
  repeat first [ apply preserves_focus_master | prim ].
Qed.

Lemma preserves_fail_remote_body rmt reason :
  preserves I (fail_remote_body quota cfg center rec rmt reason).
Proof.
  unfold fail_remote_body, elog, get_microtime.
  repeat first [ apply preserves_disconnect_remote | prim ].
Qed.
End Handback.

Hypothesis st_focus : forall v s, I s -> I (set_focused_remote v s).

Lemma preserves_focus_switch switch_to modkeys from_hotkey :
  preserves I (focus_switch quota cfg center rec switch_to modkeys from_hotkey).
Proof.
  unfold focus_switch, ungrab_inputs, grab_inputs, set_mousepos, get_mousepos.
  repeat first [ apply preserves_indicate_switch
               | apply preserves_transfer_clipboard
               | apply preserves_transfer_modifiers
               | apply preserves_modify; intros ? ?; apply st_focus; assumption
               | prim ].
Qed.

Lemma preserves_focus_node n modkeys from_hotkey :
  preserves I (focus_node quota cfg center rec n modkeys from_hotkey).
Proof.
  unfold focus_node, elog.
  repeat first [ apply preserves_focus_switch | prim ].
Qed.
End Rec.

Hypothesis st_focus : forall v s, I s -> I (set_focused_remote v s).

Lemma preserves_fail_remote fuel rmt reason :
  preserves I (fail_remote quota cfg center fuel rmt reason).
Proof.
  revert rmt reason. induction fuel as [| fuel IH]; intros rmt reason; simpl.
  - apply preserves_halt.
  - apply preserves_fail_remote_body.
    intros. apply preserves_focus_switch; assumption.
Qed.
End KnotInvariant.

(** ** Ordered queues *)

(** Timestamps do not decrease from head to tail. *)
Definition time_ordered {X} (time : X -> Z) (q : list X) : Prop :=
  StronglySorted (fun x y => time x <= time y) q.

Definition queues_ordered (s : world) : Prop :=
  time_ordered calltime (scheduled_calls s) /\
  Forall (fun r => time_ordered sendtime (scheduled_messages r)) (remotes s).

Section InsertByTime.
Context {X : Type}.
Variable time : X -> Z.

Lemma Forall_insert_by_time (P : X -> Prop) new q :
  P new -> Forall P q -> Forall P (insert_by_time time new q).
Proof.
  intros Hnew. induction 1 as [| x q Hx Hq IH]; simpl.
  - constructor; [exact Hnew | constructor].
  - destruct (time new <? time x).
    + constructor; [exact Hnew |]. constructor; assumption.
    + constructor; assumption.
Qed.

Lemma insert_by_time_ordered new q :
  time_ordered time q -> time_ordered time (insert_by_time time new q).
Proof.
  unfold time_ordered. induction 1 as [| x q Hq IH Hx]; simpl.
  - constructor; constructor.
  - destruct (time new <? time x) eqn:Hlt.
    + apply Z.ltb_lt in Hlt. constructor.
      * constructor; assumption.
      * constructor; [lia |].
        eapply Forall_impl; [exact Hx |]. simpl. intros y Hy. lia.
    + apply Z.ltb_ge in Hlt. constructor; [exact IH |].
      apply Forall_insert_by_time; assumption.
Qed.

(** Where the new entry goes: behind every entry that is not later than
    it, entries of the same time included, and in front of the rest. *)
Lemma insert_by_time_position new q :
  time_ordered time q ->
  exists before after,
    q = before ++ after /\
    insert_by_time time new q = before ++ new :: after /\
    Forall (fun x => time x <= time new) before /\
    Forall (fun x => time new < time x) after.
Proof.
  unfold time_ordered. induction 1 as [| x q Hq IH Hx]; simpl.
  - exists [], []. repeat split; constructor.
  - destruct (time new <? time x) eqn:Hlt.
    + apply Z.ltb_lt in Hlt. exists [], (x :: q). repeat split; [constructor |].
      constructor; [exact Hlt |].
      eapply Forall_impl; [exact Hx |]. simpl. intros y Hy. lia.
    + apply Z.ltb_ge in Hlt. destruct IH as (before & after & -> & -> & Hb & Ha).
      exists (x :: before), after. repeat split; [| exact Ha].
      constructor; assumption.
Qed.

Lemma time_ordered_tail x q : time_ordered time (x :: q) -> time_ordered time q.
Proof. unfold time_ordered. inversion 1; assumption. Qed.
End InsertByTime.

Lemma time_ordered_nil {X} (time : X -> Z) : time_ordered time [].
Proof. constructor. Qed.

Lemma Forall_alter_stable {X} (P : X -> Prop) (f : X -> X) (i : nat) (l : list X) :
  (forall x, P x -> P (f x)) -> Forall P l -> Forall P (alter f i l).
Proof.
  intros Hf Hl. revert i.
  induction Hl as [| x l Hx Hl IH]; intros [| i]; simpl; try constructor; auto.
  apply IH.
Qed.

Lemma ordered_alter_remote f rmt s :
  (forall r, time_ordered sendtime (scheduled_messages r) ->
             time_ordered sendtime (scheduled_messages (f r))) ->
  queues_ordered s -> queues_ordered (alter_remote f rmt s).
Proof.
  intros Hf [Hc Hr]. split; [exact Hc |].
  simpl. apply Forall_alter_stable; assumption.
Qed.

Lemma ordered_same_queues s s' :
  scheduled_calls s' = scheduled_calls s -> remotes s' = remotes s ->
  queues_ordered s -> queues_ordered s'.
Proof. unfold queues_ordered. intros -> ->. auto. Qed.

Lemma queues_ordered_stable : knot_stable queues_ordered.
Proof.
  constructor.
  - intros e s. apply ordered_same_queues; reflexivity.
  - intros f rmt s. apply ordered_alter_remote. intros r Hr. exact Hr.
  - intros rmt s. apply ordered_alter_remote. intros r _. apply time_ordered_nil.
  - intros msg rmt s. apply ordered_alter_remote. intros r Hr. simpl.
    apply insert_by_time_ordered. exact Hr.
  - intros v rmt s. apply ordered_alter_remote. intros r Hr. exact Hr.
  - intros f rmt s. apply ordered_alter_remote. intros r Hr. exact Hr.
  - intros v rmt s. apply ordered_alter_remote. intros r Hr. exact Hr.
  - intros v rmt s. apply ordered_alter_remote. intros r Hr. exact Hr.
  - intros fn arg when s [Hc Hr]. split; [| exact Hr]. simpl.
    apply insert_by_time_ordered. exact Hc.
  - intros v s. apply ordered_same_queues; reflexivity.
  - intros v s. apply ordered_same_queues; reflexivity.
Qed.

Lemma queues_ordered_focus v s :
  queues_ordered s -> queues_ordered (set_focused_remote v s).
Proof. apply ordered_same_queues; reflexivity. Qed.

Ltac ord :=
  lazymatch goal with
  | H : queues_ordered ?s |- queues_ordered ?s => exact H
  | |- queues_ordered (emit _ _) => apply (st_emit _ queues_ordered_stable); ord
  | |- queues_ordered (alter_remote _ _ _) =>
      apply ordered_alter_remote;
      [ intros ? ?; simpl; first [ assumption | apply time_ordered_nil ] | ord ]
  | H : queues_ordered ?s |- queues_ordered ?t =>
      apply (ordered_same_queues s t); [reflexivity | reflexivity | exact H]
  end.

Ltac ord_step := first [ apply preserves_modify; intros ? ?; ord | pres_step ].

Section OrderedQueues.
Variable histlen : Z.
Variable quota : nat.
Variable prot : Z.
Variable cfg : config_t.
Variable center : xypoint.

Lemma ordered_fail_remote fuel rmt reason :
  preserves queues_ordered (fail_remote quota cfg center fuel rmt reason).
Proof.
  apply preserves_fail_remote;
    [exact queues_ordered_stable | exact queues_ordered_focus].
Qed.

Lemma ordered_enqueue_message fuel rmt msg :
  preserves queues_ordered
    (enqueue_message quota (fail_remote quota cfg center fuel) rmt msg).
Proof.
  apply preserves_enqueue_message;
    [exact queues_ordered_stable | apply ordered_fail_remote].
Qed.

Lemma ordered_transition_brightness fuel node from to duration steps :
  preserves queues_ordered
    (transition_brightness quota (fail_remote quota cfg center fuel) node from to
                           duration steps).
Proof.
  apply preserves_transition_brightness;
    [exact queues_ordered_stable | apply ordered_fail_remote].
Qed.

Lemma ordered_focus_node fuel n modkeys from_hotkey :
  preserves queues_ordered
    (focus_node quota cfg center (fail_remote quota cfg center fuel) n modkeys
                from_hotkey).
Proof.
  apply preserves_focus_node;
    [exact queues_ordered_stable | apply ordered_fail_remote
     | exact queues_ordered_focus].
Qed.

Lemma ordered_run_scheduled_calls fuel when :
  preserves queues_ordered (run_scheduled_calls fuel when).
Proof.
  unfold run_scheduled_calls. intros s Hs.
  destruct (Scheduler.run_scheduled_calls _ _ _ fuel when s) as [[fired s'] |] eqn:Hrun;
    [| exact I].
  revert s fired s' Hs Hrun.
  induction fuel as [| fuel IH]; intros s fired s' Hs; simpl; [discriminate |].
  destruct (scheduled_calls s) as [| call rest] eqn:Hq.
  - intros [= <- <-]. exact Hs.
  - destruct (calltime call <=? when).
    + destruct (Scheduler.run_scheduled_calls _ _ _ fuel when _)
        as [[fired0 s0] |] eqn:Hrun; [| discriminate].
      intros [= <- <-]. eapply IH; [| exact Hrun].
      destruct Hs as [Hc Hr]. rewrite Hq in Hc.
      destruct (sc_fn call). unfold invoke_callback, set_brightness_cb.
      split; [| exact Hr]. simpl. eapply time_ordered_tail. exact Hc.
    + intros [= <- <-]. exact Hs.
Qed.

Lemma ordered_enqueue_scheduled_messages fuel n rmt when :
  preserves queues_ordered
    (enqueue_scheduled_messages quota cfg center fuel n rmt when).
Proof.
  induction n as [| n IH]; simpl; [apply preserves_halt |].
  intros s Hs. unfold bind at 1. unfold remote_field, gets.
  destruct (remotes s !! rmt) as [r |] eqn:Hr; simpl; [| exact Hs].
  destruct (scheduled_messages r) as [| msg rest] eqn:Hq; [exact Hs |].
  destruct (sendtime msg <=? when); [| exact Hs].
  assert (Hpop : queues_ordered
                   (alter_remote (set_scheduled_messages rest) rmt s)).
  { apply ordered_alter_remote; [| exact Hs].
    intros r' _. simpl.
    destruct Hs as [_ Hall]. rewrite Forall_lookup in Hall.
    specialize (Hall _ _ Hr). simpl in Hall. rewrite Hq in Hall.
    eapply time_ordered_tail. exact Hall. }
  assert (Hrest : preserves queues_ordered
            (enqueue_message quota (fail_remote quota cfg center fuel) rmt msg >>
             enqueue_scheduled_messages quota cfg center fuel n rmt when)).
  { apply preserves_bind; [apply ordered_enqueue_message | intros _; exact IH]. }
  specialize (Hrest _ Hpop).
  unfold bind in *. unfold modify. exact Hrest.
Qed.

Lemma ordered_setup_remote fuel rmt :
  preserves queues_ordered (setup_remote quota prot cfg center fuel rmt).
Proof.
  unfold setup_remote.
  repeat first [ apply ordered_enqueue_message | ord_step ].
Qed.

Lemma ordered_focus_neighbor fuel dir modkeys from_hotkey :
  preserves queues_ordered (focus_neighbor quota cfg center fuel dir modkeys from_hotkey).
Proof.
  unfold focus_neighbor.
  repeat first [ apply ordered_focus_node | ord_step ].
Qed.

Lemma ordered_put_hist h es s :
  queues_ordered s -> queues_ordered (put_hist h es s).
Proof.
  intros Hs. unfold put_hist. destruct (hist_owner h); ord.
Qed.

Lemma ordered_edgeswitch_reposition fuel dir x y :
  preserves queues_ordered (edgeswitch_reposition quota cfg center fuel dir x y).
Proof.
  unfold edgeswitch_reposition, set_mousepos_screenrel.
  repeat first [ apply ordered_enqueue_message | ord_step ].
Qed.

Lemma ordered_trigger_edgeevent fuel h dir ev x y :
  preserves queues_ordered (trigger_edgeevent histlen quota cfg center fuel h dir ev x y).
Proof.
  unfold trigger_edgeevent, get_microtime, get_current_modifiers.
  repeat first [ apply ordered_focus_neighbor
               | apply ordered_edgeswitch_reposition
               | apply preserves_modify; intros ? ?; apply ordered_put_hist; assumption
               | ord_step ].
Qed.

Lemma ordered_check_edgeevents fuel hist srcname old new x y :
  preserves queues_ordered
    (check_edgeevents histlen quota cfg center fuel hist srcname old new x y).
Proof.
  unfold check_edgeevents, check_edge, elog.
  repeat first [ apply ordered_trigger_edgeevent | ord_step ].
Qed.

Lemma ordered_handle_message fuel rmt msg :
  preserves queues_ordered (handle_message histlen quota cfg center fuel rmt msg).
Proof.
  unfold handle_message, elog, set_clipboard_from_buf, get_clipboard_text.
  repeat first [ apply ordered_fail_remote
               | apply ordered_transition_brightness
               | apply ordered_enqueue_message
               | apply ordered_check_edgeevents
               | ord_step ].
Qed.

Lemma ordered_read_rmtdata fuel rmt got :
  preserves queues_ordered (read_rmtdata histlen quota cfg center fuel rmt got).
Proof.
  unfold read_rmtdata.
  repeat first [ apply ordered_fail_remote | apply ordered_handle_message | ord_step ].
Qed.

Lemma ordered_write_rmtdata fuel rmt res :
  preserves queues_ordered (write_rmtdata quota cfg center fuel rmt res).
Proof.
  unfold write_rmtdata.
  repeat first [ apply ordered_fail_remote | ord_step ].
Qed.

Lemma ordered_action_cb fuel a modkeys :
  preserves queues_ordered (action_cb quota cfg center fuel a modkeys).
Proof.
  unfold action_cb, get_microtime.
  destruct a.
  - repeat first [ apply ordered_focus_neighbor | ord_step ].
  - repeat first [ apply ordered_focus_node | ord_step ].
  - apply preserves_bind; [apply preserves_gets | intros now_us].
    apply preserves_modify. intros s [Hc Hr]. split; [exact Hc |].
    simpl. apply Forall_fmap. eapply Forall_impl; [exact Hr |].
    intros r Hord. simpl. destruct (decide (state r = CS_PERMFAILED)); exact Hord.
  - apply preserves_halt.
Qed.

Lemma ordered_handle_event fuel ev :
  preserves queues_ordered (handle_event histlen quota cfg center fuel ev).
Proof.
  unfold handle_event, trigger_edgeevent_cb.
  destruct ev;
    repeat first [ apply ordered_action_cb
                 | apply ordered_check_edgeevents
                 | apply preserves_send_keyevent
                 | apply preserves_send_moverel
                 | apply preserves_send_clickevent
                 | exact queues_ordered_stable
                 | apply ordered_fail_remote
                 | ord_step ].
Qed.

Lemma ordered_prepare_remote fuel now_us rmt :
  preserves queues_ordered (prepare_remote quota prot cfg center fuel now_us rmt).
Proof.
  unfold prepare_remote.
  repeat first [ apply ordered_setup_remote
               | apply ordered_enqueue_scheduled_messages
               | ord_step ].
Qed.

Lemma ordered_service_remote fuel inp rmt sets :
  preserves queues_ordered (service_remote histlen quota cfg center fuel inp rmt sets).
Proof.
  unfold service_remote.
  repeat first [ apply ordered_read_rmtdata | apply ordered_write_rmtdata | ord_step ].
Qed.

Lemma preserves_for_each_collect {X Y} (Inv : world -> Prop) (l : list X)
  (f : X -> M Y) :
  (forall x, preserves Inv (f x)) -> preserves Inv (for_each_collect l f).
Proof.
  intros Hf. induction l as [| x l IH]; simpl.
  - apply preserves_ret.
  - apply preserves_bind; [apply Hf | intros y].
    apply preserves_bind; [exact IH | intros ys; apply preserves_ret].
Qed.

Lemma ordered_handle_fds fuel inp :
  preserves queues_ordered (handle_fds histlen quota prot cfg center fuel inp).
Proof.
  unfold handle_fds, get_microtime, process_events.
  apply preserves_bind; [ord_step | intros _].
  apply preserves_bind; [ord_step | intros now_us].
  apply preserves_bind; [apply ordered_run_scheduled_calls | intros _].
  apply preserves_bind; [ord_step | intros n].
  apply preserves_bind.
  { apply preserves_for_each_collect. intros rmt. apply ordered_prepare_remote. }
  intros fdsets.
  apply preserves_bind.
  { apply preserves_for_each. intros [rmt sets]. apply ordered_service_remote. }
  intros _. apply preserves_for_each. intros ev. apply ordered_handle_event.
Qed.

Lemma ordered_main_setup fuel :
  preserves queues_ordered (main_setup quota prot cfg center fuel).
Proof.
  unfold main_setup.
  repeat first [ apply ordered_setup_remote | ord_step ].
Qed.

Lemma startup_world_ordered s : startup_world s -> queues_ordered s.
Proof.
  intros (_ & Hc & Hr). split.
  - rewrite Hc. apply time_ordered_nil.
  - eapply Forall_impl; [exact Hr |]. simpl. intros r [-> _]. apply time_ordered_nil.
Qed.

Lemma reachable_ordered s :
  reachable histlen quota prot cfg center s -> queues_ordered s.
Proof.
  induction 1 as [s0 s fuel Hstart Hrun | s inp fuel s' _ IH Hrun].
  - pose proof (ordered_main_setup fuel s0 (startup_world_ordered s0 Hstart)) as H.
    rewrite Hrun in H. exact H.
  - pose proof (ordered_handle_fds fuel inp s IH) as H.
    rewrite Hrun in H. exact H.
Qed.
End OrderedQueues.

(** C6.  In every reachable state the scheduled-call queue and the
    scheduled-message queue of every remote are ordered by time, head to
    tail; and [schedule_call] and [schedule_message] put a new entry behind
    every entry of the ordered queue that is not later than it (entries of
    the same time included, so that equal timestamps keep insertion order)
    and in front of the entries that are later. *)
Theorem scheduled_queues_ordered :
  forall histlen quota prot cfg center,
    (forall s, reachable histlen quota prot cfg center s ->
               time_ordered calltime (scheduled_calls s) /\
               forall rmt r, remotes s !! rmt = Some r ->
                             time_ordered sendtime (scheduled_messages r)) /\
    (forall fn arg when s,
        time_ordered calltime (scheduled_calls s) ->
        exists s' before after,
          schedule_call fn arg when s = Ok tt s' /\
          scheduled_calls s = before ++ after /\
          scheduled_calls s' = before ++ ScheduledCall fn arg when :: after /\
          Forall (fun c => calltime c <= when) before /\
          Forall (fun c => when < calltime c) after) /\
    (forall rmt r newmsg s,
        remotes s !! rmt = Some r ->
        time_ordered sendtime (scheduled_messages r) ->
        exists s' r' before after,
          schedule_message rmt newmsg s = Ok tt s' /\
          remotes s' !! rmt = Some r' /\
          scheduled_messages r = before ++ after /\
          scheduled_messages r' = before ++ newmsg :: after /\
          Forall (fun m => sendtime m <= sendtime newmsg) before /\
          Forall (fun m => sendtime newmsg < sendtime m) after).
Proof.
  intros histlen quota prot cfg center. split; [| split].
  - intros s Hreach. destruct (reachable_ordered _ _ _ _ _ s Hreach) as [Hc Hr].
    split; [exact Hc |]. intros rmt r Hrmt.
    rewrite Forall_lookup in Hr. exact (Hr rmt r Hrmt).
  - intros fn arg when s Hord.
    destruct (insert_by_time_position calltime (ScheduledCall fn arg when) _ Hord)
      as (before & after & Hq & Hins & Hb & Ha).
    eexists _, before, after. split; [reflexivity |].
    split; [exact Hq |]. split; [exact Hins |]. split; assumption.
  - intros rmt r newmsg s Hrmt Hord.
    destruct (insert_by_time_position sendtime newmsg _ Hord)
      as (before & after & Hq & Hins & Hb & Ha).
    eexists _, _, before, after. split; [reflexivity |].
    split; [| split; [exact Hq | split; [| split; assumption]]].
    + simpl. rewrite list_lookup_alter_eq, Hrmt. reflexivity.
    + simpl. exact Hins.
Qed.

(** ** Failure of a remote *)

(** The messages that handing the focus back to the master enqueues on the
    remote that loses it: the brightness set at the start of a DIM_INACTIVE
    fade, GETCLIPBOARD and one key release per held modifier. *)
Definition handback_messages (cfg : config_t) (s : world) : nat :=
  (match fh_type (focus_hint cfg) with FH_DIM_INACTIVE => 1 | _ => 0 end
   + 1 + length (held_modifiers s))%nat.

(** The backlog quota leaves room for the hand-back when the failing remote
    is the focused one. *)
Definition handback_fits (quota : nat) (cfg : config_t) (rmt : rid) (s : world) : Prop :=
  focused_remote s = Some rmt -> (handback_messages cfg s <= quota)%nat.

Lemma total_gets_known {A B} (P : world -> Prop) (f : world -> A) (v : A)
  (k : A -> M B) (Q : B -> world -> Prop) :
  (forall s, P s -> f s = v) -> total P (k v) Q -> total P (bind (gets f) k) Q.
Proof.
  intros Hf Hk s Hs. unfold bind, gets. rewrite (Hf s Hs). apply Hk. exact Hs.
Qed.

Lemma total_skip {A} (P : world -> Prop) (a : A) : total P (ret a) (fun _ => P).
Proof. intros s Hs. exists a, s. auto. Qed.

Lemma total_seq {A B} (P : world -> Prop) (Q : A -> world -> Prop) (R : world -> Prop)
  (S' : B -> world -> Prop) (m : M A) (k : M B) :
  total P m Q -> (forall a s, Q a s -> R s) -> total R k S' ->
  total P (m >> k) S'.
Proof.
  intros Hm HQ Hk. eapply total_bind; [exact Hm |].
  intros a. eapply total_conseq; [exact Hk | apply HQ | auto].
Qed.

Lemma total_for_each_counted {X} (Inv : nat -> world -> Prop) (f : X -> M unit)
  (l : list X) (bound : nat) :
  (forall x j, (j < bound)%nat -> total (Inv j) (f x) (fun _ => Inv (S j))) ->
  forall j, (j + length l <= bound)%nat ->
            total (Inv j) (for_each l f) (fun _ => Inv (j + length l)%nat).
Proof.
  intros Hf. induction l as [| x l IH]; intros j Hj; simpl in *.
  - rewrite Nat.add_0_r. apply total_skip.
  - eapply total_seq; [apply (Hf x j); lia | intros ? s Hs; exact Hs |].
    replace (j + S (length l))%nat with (S j + length l)%nat by lia.
    apply IH. lia.
Qed.

Section FailRemote.
Variable quota : nat.
Variable cfg : config_t.
Variable center : xypoint.
Variable rec : rid -> string -> M unit.

(** The remote under consideration and what stays fixed about the state
    while the focus is handed back. *)
Variable rmt : rid.
Variable mods : list Z.
Variable now fc nrt : Z.
Variable st : connstate_t.

Definition steady (foc : option rid) (j : nat) (s : world) : Prop :=
  focused_remote s = foc /\ held_modifiers s = mods /\ clock s = now /\
  exists r, remotes s !! rmt = Some r /\
            failcount r = fc /\ state r = st /\ next_reconnect_time r = nrt /\
            (length (sendqueue (chan r)) <= j)%nat.

Lemma steady_alter foc j f rmt' s :
  (forall r, failcount (f r) = failcount r /\ state (f r) = state r /\
             next_reconnect_time (f r) = next_reconnect_time r /\
             chan (f r) = chan r) ->
  steady foc j s -> steady foc j (alter_remote f rmt' s).
Proof.
  intros Hf (Hfoc & Hmods & Hnow & r & Hr & Hfc & Hst & Hnrt & Hlen).
  repeat split; try assumption.
  destruct (decide (rmt' = rmt)) as [-> | Hne].
  - exists (f r). simpl. rewrite list_lookup_alter_eq, Hr.
    destruct (Hf r) as (-> & -> & -> & ->). auto.
  - exists r. simpl. rewrite list_lookup_alter_ne by exact Hne. auto.
Qed.

Lemma steady_frame foc j s s' :
  focused_remote s' = focused_remote s -> held_modifiers s' = held_modifiers s ->
  clock s' = clock s -> remotes s' = remotes s ->
  steady foc j s -> steady foc j s'.
Proof. unfold steady. intros -> -> -> ->. auto. Qed.

Lemma steady_le foc j j' s : (j <= j')%nat -> steady foc j s -> steady foc j' s.
Proof.
  intros Hle (Hfoc & Hmods & Hnow & r & Hr & Hfc & Hst & Hnrt & Hlen).
  repeat split; try assumption. exists r. repeat split; try assumption. lia.
Qed.

Local Ltac frame :=
  lazymatch goal with
  | H : steady ?foc ?j ?s |- steady ?foc ?j ?s => exact H
  | |- steady ?foc ?j (emit ?e ?t) =>
      apply (steady_frame foc j t);
      [reflexivity | reflexivity | reflexivity | reflexivity | frame]
  | |- steady _ _ (alter_remote _ _ _) =>
      apply steady_alter; [intros ?; repeat split | frame]
  | H : steady ?foc ?j ?s |- steady ?foc ?j ?t =>
      apply (steady_frame foc j s t); [reflexivity | reflexivity | reflexivity | reflexivity | exact H]
  end.

Lemma total_enqueue foc j msg :
  (j < quota)%nat ->
  total (steady foc j) (enqueue_message quota rec rmt msg) (fun _ => steady foc (S j)).
Proof.
  intros Hj s (Hfoc & Hmods & Hnow & r & Hr & Hfc & Hst & Hnrt & Hlen).
  unfold enqueue_message, bind, mc_enqueue. rewrite Hr. simpl.
  rewrite bool_decide_eq_false_2 by (rewrite length_app; simpl; lia).
  eexists _, _. split; [reflexivity |].
  repeat split; try assumption.
  eexists. simpl. rewrite list_lookup_alter_eq, Hr. simpl.
  repeat split; try assumption. simpl. rewrite length_app. simpl. lia.
Qed.

Lemma total_schedule_brightness_change foc j node f when :
  total (steady foc j) (schedule_brightness_change node f when)
        (fun _ => steady foc j).
Proof.
  unfold schedule_brightness_change, schedule_message, schedule_call.
  destruct node; apply total_modify; intros s Hs; frame.
Qed.

Lemma total_fade_loop foc j n node from to duration steps now_us i :
  total (steady foc j) (fade_loop n node from to duration steps now_us i)
        (fun _ => steady foc j).
Proof.
  revert i. induction n as [| n IH]; intros i; simpl; [apply total_skip |].
  destruct (i <? steps); [| apply total_skip].
  eapply total_seq; [apply total_schedule_brightness_change | intros ? s Hs; exact Hs |].
  apply IH.
Qed.

Lemma total_frame_modify foc j (f : world -> world) :
  (forall s, steady foc j s -> steady foc j (f s)) ->
  total (steady foc j) (modify f) (fun _ => steady foc j).
Proof. intros Hf. apply total_modify. exact Hf. Qed.

Lemma total_gets_any {A B} (P : world -> Prop) (f : world -> A) (k : A -> M B)
  (Q : B -> world -> Prop) :
  (forall a, total P (k a) Q) -> total P (bind (gets f) k) Q.
Proof. intros Hk s Hs. unfold bind, gets. apply Hk. exact Hs. Qed.

Lemma total_transition_brightness_remote foc j from to duration steps :
  (j < quota)%nat ->
  total (steady foc j)
        (transition_brightness quota rec (Some rmt) from to duration steps)
        (fun _ => steady foc (S j)).
Proof.
  intros Hj. unfold transition_brightness, get_microtime.
  apply (total_gets_known _ _ now); [intros s Hs; apply Hs |].
  eapply total_seq;
    [ eapply total_seq;
      [ apply total_enqueue; exact Hj
      | intros ? s Hs; exact Hs
      | apply total_fade_loop ]
    | intros ? s Hs; exact Hs
    | apply total_schedule_brightness_change ].
Qed.

Lemma total_transition_brightness_master foc j from to duration steps :
  total (steady foc j)
        (transition_brightness quota rec None from to duration steps)
        (fun _ => steady foc j).
Proof.
  unfold transition_brightness, get_microtime, set_node_display_brightness,
    set_display_brightness.
  apply (total_gets_known _ _ now); [intros s Hs; apply Hs |].
  eapply total_seq;
    [ eapply total_seq;
      [ apply total_frame_modify; intros s Hs; frame
      | intros ? s Hs; exact Hs
      | apply total_fade_loop ]
    | intros ? s Hs; exact Hs
    | apply total_schedule_brightness_change ].
Qed.

(** The number of messages [indicate_switch] enqueues on the remote that
    loses the focus to the master. *)
Definition dim_messages : nat :=
  match fh_type (focus_hint cfg) with FH_DIM_INACTIVE => 1 | _ => 0 end.

Lemma total_indicate_handback foc j :
  (j + dim_messages <= quota)%nat ->
  total (steady foc j) (indicate_switch quota cfg rec (Some rmt) None)
        (fun _ => steady foc (j + dim_messages)).
Proof.
  unfold dim_messages, indicate_switch.
  destruct (fh_type (focus_hint cfg)); intros Hj.
  - rewrite Nat.add_0_r. apply total_skip.
  - destruct (decide (Some rmt <> None)) as [_ | Hne];
      [| exfalso; apply Hne; discriminate].
    eapply total_seq;
      [ apply total_transition_brightness_remote; lia
      | intros ? s Hs; exact Hs |].
    replace (j + 1)%nat with (S j) by lia.
    apply total_transition_brightness_master.
  - rewrite Nat.add_0_r. apply total_transition_brightness_master.
Qed.

Lemma total_release_modifiers foc j keys :
  (j + length keys <= quota)%nat ->
  total (steady foc j) (transfer_modifiers quota rec (Some rmt) None keys)
        (fun _ => steady foc (j + length keys)).
Proof.
  intros Hj. unfold transfer_modifiers.
  eapply total_seq;
    [ apply (total_for_each_counted (steady foc) _ keys quota);
      [ intros k i Hi; apply total_enqueue; exact Hi | exact Hj ]
    | intros ? s Hs; exact Hs
    | apply total_skip ].
Qed.

(** Handing the focus back to the master from [rmt]. *)
Lemma total_focus_handback j from_hotkey :
  (j + dim_messages + 1 + length mods <= quota)%nat ->
  total (steady (Some rmt) j)
        (focus_switch quota cfg center rec None mods from_hotkey)
        (fun _ => steady None (j + dim_messages + 1 + length mods)).
Proof.
  intros Hj. unfold focus_switch.
  apply (total_gets_known _ _ (Some rmt)); [intros s Hs; apply Hs |].
  rewrite bool_decide_eq_true_2 by discriminate. cbn [orb].
  eapply total_seq;
    [ apply (total_indicate_handback (Some rmt) j); lia
    | intros ? s Hs; exact Hs |].
  apply (total_gets_known _ _ (Some rmt)); [intros s Hs; apply Hs |].
  destruct (decide (None = Some rmt)) as [Heq | _]; [discriminate |].
  eapply total_seq;
    [ eapply total_seq;
      [ eapply total_seq;
        [ eapply total_seq;
          [ eapply total_seq;
            [ eapply total_seq;
              [ unfold ungrab_inputs; apply total_frame_modify; intros s Hs; frame
              | intros ? s Hs; exact Hs
              | apply total_gets_any; intros saved; unfold set_mousepos;
                apply total_frame_modify; intros s Hs; frame ]
            | intros ? s Hs; exact Hs
            | apply total_skip ]
          | intros ? s Hs; exact Hs
          | apply (total_gets_known _ _ (Some rmt)); [intros s Hs; apply Hs |];
            unfold transfer_clipboard; apply total_enqueue; lia ]
        | intros ? s Hs; exact Hs
        | apply (total_gets_known _ _ (Some rmt)); [intros s Hs; apply Hs |];
          apply total_release_modifiers; lia ]
      | intros ? s Hs; exact Hs
      | apply total_modify; intros s Hs ]
    | intros ? s Hs; exact Hs
    | apply total_skip ].
  replace (j + dim_messages + 1 + length mods)%nat
    with (S (j + dim_messages) + length mods)%nat by lia.
  destruct Hs as (_ & Hrest). split; [reflexivity | exact Hrest].
Qed.
Lemma steady_close foc j s :
  steady foc j s ->
  steady foc 0 (alter_remote (fun r => set_chan (mc_close (chan r)) r) rmt s).
Proof.
  intros (Hfoc & Hmods & Hnow & r & Hr & Hfc & Hst & Hnrt & Hlen).
  repeat split; try assumption.
  eexists. simpl. rewrite list_lookup_alter_eq, Hr. simpl.
  repeat split; try assumption. simpl. lia.
Qed.

Lemma total_disconnect_remote foc j :
  (foc = Some rmt -> (dim_messages + 1 + length mods <= quota)%nat) ->
  total (steady foc j) (disconnect_remote quota cfg center rec rmt)
        (fun _ s => exists foc' j', steady foc' j' s).
Proof.
  intros Hfit. unfold disconnect_remote.
  eapply total_seq;
    [ eapply total_seq;
      [ eapply total_seq;
        [ eapply total_seq;
          [ apply (total_modify (steady foc j) (steady foc 0)); intros s Hs;
            apply (steady_frame foc 0
                     (alter_remote (fun r => set_chan (mc_close (chan r)) r) rmt s));
            [reflexivity | reflexivity | reflexivity | reflexivity
             | apply (steady_close foc j); exact Hs]
          | intros ? s Hs; exact Hs
          | apply total_frame_modify; intros s Hs; frame ]
        | intros ? s Hs; exact Hs
        | unfold remote_field; apply total_gets_any; intros pid;
          destruct (0 <? pid);
          [apply total_frame_modify; intros s Hs; frame | apply total_skip] ]
      | intros ? s Hs; exact Hs
      | apply total_frame_modify; intros s Hs; frame ]
    | intros ? s Hs; exact Hs |].
  apply (total_gets_known _ _ foc); [intros s Hs; apply Hs |].
  destruct (decide (foc = Some rmt)) as [-> | Hne].
  - unfold focus_master, get_current_modifiers.
    apply (total_gets_known _ _ mods); [intros s Hs; apply Hs |].
    cbn [focus_node].
    eapply total_seq;
      [ apply (total_focus_handback 0 false); specialize (Hfit eq_refl); lia
      | intros ? s Hs; exact Hs |].
    intros s Hs. exists tt, s. split; [reflexivity | eauto].
  - intros s Hs. exists tt, s. split; [reflexivity | eauto].
Qed.

(** The multiple of [RECONNECT_INTERVAL_UNIT] that [fail_remote] waits
    after the failure that brings the counter to [count]. *)
Definition backoff_units (count : Z) : Z :=
  let lshift := u64 (count - 1) in
  let lshift := if 63 <? lshift then 63 else lshift in
  let tmp := shl64 1 lshift in
  if MAX_RECONNECT_INTERVAL <? tmp then MAX_RECONNECT_INTERVAL else tmp.

Lemma total_fail_remote_body foc j reason :
  (foc = Some rmt -> (dim_messages + 1 + length mods <= quota)%nat) ->
  total (steady foc j) (fail_remote_body quota cfg center rec rmt reason)
        (fun _ s' =>
           exists r', remotes s' !! rmt = Some r' /\
                      failcount r' = fc + 1 /\
                      if MAX_RECONNECT_ATTEMPTS <? fc + 1
                      then state r' = CS_PERMFAILED /\ next_reconnect_time r' = nrt
                      else state r' = CS_FAILED /\
                           next_reconnect_time r'
                           = add64 now (mul64 (backoff_units (fc + 1))
                                              RECONNECT_INTERVAL_UNIT)).
Proof.
  intros Hfit. unfold fail_remote_body.
  eapply total_bind;
    [ eapply total_seq;
      [ eapply total_seq;
        [ unfold remote_field, elog; apply total_gets_any; intros name;
          apply total_frame_modify; intros s Hs; frame
        | intros ? s Hs; exact Hs
        | apply (total_disconnect_remote foc j); exact Hfit ]
      | intros ? s Hs; exact Hs
      | apply (total_modify _ (fun s => exists r', remotes s !! rmt = Some r' /\
                                 failcount r' = fc + 1 /\ state r' = st /\
                                 next_reconnect_time r' = nrt /\ clock s = now));
        intros s (foc' & j' & _ & _ & Hnow & r & Hr & Hfc & Hst & Hnrt & _);
        eexists; simpl; rewrite list_lookup_alter_eq, Hr; simpl;
        repeat split; try assumption; simpl; rewrite Hfc; reflexivity ]
    |].
  intros _ s (r & Hr & Hfc & Hst & Hnrt & Hnow).
  unfold bind at 1. unfold remote_field at 1, gets at 1. rewrite Hr. simpl.
  rewrite Hfc. destruct (MAX_RECONNECT_ATTEMPTS <? fc + 1).
  - unfold bind, remote_field, gets, elog, modify. simpl.
    eexists _, _. split; [reflexivity |].
    eexists. simpl. rewrite list_lookup_alter_eq, Hr. simpl.
    repeat split; assumption.
  - unfold bind, get_microtime, gets, modify. simpl.
    eexists _, _. split; [reflexivity |].
    eexists. simpl. rewrite list_lookup_alter_eq. simpl.
    rewrite list_lookup_alter_eq, Hr. simpl.
    repeat split; try assumption. simpl. rewrite Hnow. reflexivity.
Qed.
End FailRemote.

Lemma backoff_units_spec k :
  1 <= k <= 10 -> backoff_units k = Z.min (2 ^ (k - 1)) 60.
Proof.
  intros Hk.
  assert (Hcases : k = 1 \/ k = 2 \/ k = 3 \/ k = 4 \/ k = 5 \/ k = 6 \/ k = 7
                   \/ k = 8 \/ k = 9 \/ k = 10) by lia.
  repeat (destruct Hcases as [-> | Hcases]; [reflexivity |]).
  subst k. reflexivity.
Qed.

Lemma prepare_remote_permfailed quota prot cfg center fuel now_us rmt r s :
  remotes s !! rmt = Some r -> state r = CS_PERMFAILED ->
  prepare_remote quota prot cfg center fuel now_us rmt s = Ok (false, false) s.
Proof.
  intros Hr Hst. unfold prepare_remote, bind, remote_field, gets.
  rewrite Hr. simpl. rewrite Hst. simpl.
  rewrite Hr. simpl. unfold remote_live. rewrite Hst. reflexivity.
Qed.

(** C2.  The failure of a remote that has failed [k - 1] times in a row
    ([1 <= k <= 10]) sets its state to FAILED and its next reconnect time to
    now + min(2^(k-1), 60) * 0.5 s, that is 0.5, 1, 2, 4, 8 and 16 s and then
    30 s for the 7th to 10th failure; the 11th sets the state to PERMFAILED,
    leaves the reconnect time alone, and the event loop no longer sets the
    remote up.  When the failing remote is the focused one, the backlog
    quota has to leave room for the messages that hand the focus back. *)
Theorem fail_remote_backoff :
  forall quota prot cfg center fuel rmt r reason s k,
    remotes s !! rmt = Some r ->
    failcount r = k - 1 ->
    1 <= k <= 11 ->
    handback_fits quota cfg rmt s ->
    0 <= clock s -> clock s + 30 * 1000 * 1000 < UINT64_MOD ->
    map (fun i => Z.min (2 ^ (i - 1)) 60 * RECONNECT_INTERVAL_UNIT) (seqZ 1 10)
    = [500000; 1000000; 2000000; 4000000; 8000000; 16000000;
       30000000; 30000000; 30000000; 30000000] /\
    exists s' r',
      fail_remote quota cfg center (S fuel) rmt reason s = Ok tt s' /\
      remotes s' !! rmt = Some r' /\
      failcount r' = k /\
      (k <= 10 ->
       state r' = CS_FAILED /\
       next_reconnect_time r'
       = clock s + Z.min (2 ^ (k - 1)) 60 * RECONNECT_INTERVAL_UNIT) /\
      (k = 11 ->
       state r' = CS_PERMFAILED /\
       next_reconnect_time r' = next_reconnect_time r /\
       forall fuel' now_us,
         prepare_remote quota prot cfg center fuel' now_us rmt s' = Ok (false, false) s').
Proof.
  intros quota prot cfg center fuel rmt r reason s k Hr Hfc Hk Hfit Hnow0 Hnow1.
  split; [reflexivity |].
  destruct (total_fail_remote_body quota cfg center
              (fail_remote quota cfg center fuel) rmt (held_modifiers s) (clock s)
              (k - 1) (next_reconnect_time r) (state r) (focused_remote s)
              (length (sendqueue (chan r))) reason) with (s := s)
    as (a & s' & Hrun & r' & Hr' & Hfc' & Hres).
  - intros Hfoc. specialize (Hfit Hfoc). unfold handback_messages in Hfit.
    unfold dim_messages. lia.
  - repeat split. exists r. repeat split; try assumption. lia.
  - exists s', r'. destruct a.
    split; [exact Hrun |]. split; [exact Hr' |]. split; [lia |].
    replace (k - 1 + 1) with k in Hres by lia.
    unfold MAX_RECONNECT_ATTEMPTS in Hres.
    split.
    + intros Hk10. assert (Hltb : (10 <? k) = false) by (apply Z.ltb_ge; lia).
      rewrite Hltb in Hres. destruct Hres as [Hst Hnrt]. split; [exact Hst |].
      rewrite Hnrt, backoff_units_spec by lia.
      assert (Hmin : 1 <= Z.min (2 ^ (k - 1)) 60 <= 60).
      { split; [| apply Z.le_min_r].
        apply Z.min_glb; [| lia].
        assert (0 < 2 ^ (k - 1)) by (apply Z.pow_pos_nonneg; lia). lia. }
      unfold add64, mul64, u64, RECONNECT_INTERVAL_UNIT, UINT64_MOD in *.
      rewrite (Z.mod_small (_ * _)) by lia.
      apply Z.mod_small. lia.
    + intros ->. simpl in Hres. destruct Hres as [Hst Hnrt].
      split; [exact Hst |]. split; [exact Hnrt |].
      intros fuel' now_us. eapply prepare_remote_permfailed; eassumption.
Qed.

(** ** Brightness fades *)

Definition fade_frac (steps i : Z) : float := F32.div (F32.of_Z i) (F32.of_Z steps).

(** The level and the time of the [i]-th intermediate event of a fade. *)
Definition fade_level (from to : float) (steps i : Z) : float :=
  F32.add from (F32.mul (fade_frac steps i) (F32.sub to from)).

Definition fade_time (duration steps now_us i : Z) : Z :=
  add64 now_us (F32.to_u64 (F32.mul (fade_frac steps i) (F32.of_Z duration))).

(** The events of a fade, in the order they are scheduled: the
    intermediate ones for [i = 1 .. steps - 1], then the final one. *)
Definition fade_events (from to : float) (duration steps now_us : Z)
  : list (float * Z) :=
  map (fun i => (fade_level from to steps i, fade_time duration steps now_us i))
      (seqZ 1 (steps - 1))
  ++ [(to, add64 now_us duration)].

Lemma for_each_app {X} (l1 l2 : list X) (f : X -> M unit) s :
  for_each (l1 ++ l2) f s = (for_each l1 f >> for_each l2 f) s.
Proof.
  revert s. induction l1 as [| x l1 IH]; intros s; simpl.
  - reflexivity.
  - unfold bind in *. destruct (f x s) as [[] s' |]; [apply IH | reflexivity].
Qed.

Lemma for_each_map {X Y} (g : X -> Y) (l : list X) (f : Y -> M unit) s :
  for_each (map g l) f s = for_each l (fun x => f (g x)) s.
Proof.
  revert s. induction l as [| x l IH]; intros s; simpl; [reflexivity |].
  unfold bind. destruct (f (g x) s) as [[] s' |]; [apply IH | reflexivity].
Qed.

Lemma fade_loop_for_each n node from to duration steps now_us i s :
  fade_loop n node from to duration steps now_us i s
  = for_each (seqZ i (Z.min (Z.of_nat n) (steps - i)))
             (fade_step node from to duration steps now_us) s.
Proof.
  revert i s. induction n as [| n IH]; intros i s.
  - rewrite seqZ_nil by lia. reflexivity.
  - cbn [fade_loop]. destruct (i <? steps) eqn:Hlt.
    + apply Z.ltb_lt in Hlt. rewrite seqZ_cons by lia. cbn [for_each].
      unfold bind.
      destruct (fade_step node from to duration steps now_us i s) as [[] s' |];
        [| reflexivity].
      rewrite IH. do 2 f_equal. lia.
    + apply Z.ltb_ge in Hlt. rewrite seqZ_nil by lia. reflexivity.
Qed.

Lemma transition_brightness_events quota rec node from to duration steps s :
  transition_brightness quota rec node from to duration steps s
  = (set_node_display_brightness quota rec node from >>
     for_each (fade_events from to duration steps (clock s))
              (fun ev => schedule_brightness_change node ev.1 ev.2)) s.
Proof.
  unfold transition_brightness, fade_events.
  unfold bind at 1. unfold get_microtime at 1, gets at 1.
  unfold bind at 1 2 3.
  destruct (set_node_display_brightness quota rec node from s) as [[] s1 |];
    [| reflexivity].
  rewrite for_each_app. unfold bind. rewrite for_each_map, fade_loop_for_each.
  replace (Z.min (Z.of_nat (Z.to_nat (steps - 1))) (steps - 1)) with (steps - 1) by lia.
  match goal with
  | |- match ?a with _ => _ end = match ?b with _ => _ end =>
      change a with b; destruct b as [[] s2 |]; [| reflexivity]
  end.
  simpl. unfold bind.
  destruct (schedule_brightness_change node to (add64 (clock s) duration) s2)
    as [[] s3 |]; reflexivity.
Qed.

Lemma fade_events_length from to duration steps now_us :
  length (fade_events from to duration steps now_us)
  = S (Z.to_nat (steps - 1)).
Proof.
  unfold fade_events. rewrite length_app, length_map, length_seqZ. simpl. lia.
Qed.

(** Scheduling a list of messages on a remote, one after the other. *)
Lemma for_each_schedule_message rmt (msgs : list message) s r :
  remotes s !! rmt = Some r ->
  exists s' r',
    for_each msgs (schedule_message rmt) s = Ok tt s' /\
    remotes s' !! rmt = Some r' /\
    scheduled_messages r'
    = fold_left (fun q m => insert_by_time sendtime m q) msgs (scheduled_messages r) /\
    state r' = state r /\ failcount r' = failcount r /\ chan r' = chan r.
Proof.
  revert s r. induction msgs as [| m msgs IH]; intros s r Hr.
  - exists s, r. simpl. repeat split; try reflexivity. exact Hr.
  - cbn [for_each fold_left]. unfold bind. unfold schedule_message at 1, modify at 1.
    set (f := fun r0 : remote =>
                set_scheduled_messages
                  (insert_by_time sendtime m (scheduled_messages r0)) r0).
    destruct (IH (alter_remote f rmt s) (f r))
      as (s' & r' & Hrun & Hr' & Hq & Hst & Hfc & Hch).
    { simpl. rewrite list_lookup_alter_eq, Hr. reflexivity. }
    exists s', r'. split; [exact Hrun |]. split; [exact Hr' |].
    split; [exact Hq |]. auto.
Qed.

Lemma insert_by_time_last {X} (time : X -> Z) (new : X) (q : list X) :
  Forall (fun x => time x <= time new) q -> insert_by_time time new q = q ++ [new].
Proof.
  induction 1 as [| x q Hx Hq IH]; simpl; [reflexivity |].
  assert (Hlt : (time new <? time x) = false) by (apply Z.ltb_ge; exact Hx).
  rewrite Hlt, IH. reflexivity.
Qed.

Definition brightness_message (ev : float * Z) : message :=
  Message (MT_SETBRIGHTNESS ev.1) ev.2.

Definition brightness_call (ev : float * Z) : scheduled_call callback float :=
  ScheduledCall FN_set_brightness_cb ev.1 ev.2.

Lemma for_each_schedule_call (calls : list (scheduled_call callback float)) s :
  exists s',
    for_each calls (fun c => schedule_call (sc_fn c) (sc_arg c) (calltime c)) s
    = Ok tt s' /\
    scheduled_calls s'
    = fold_left (fun q c => insert_by_time calltime c q) calls (scheduled_calls s) /\
    trace s' = trace s /\ remotes s' = remotes s.
Proof.
  revert s. induction calls as [| [fn arg when] calls IH]; intros s.
  - exists s. simpl. auto.
  - cbn [for_each fold_left]. unfold bind. unfold schedule_call at 1, modify at 1.
    destruct (IH (Scheduler.schedule_call scheduled_calls set_scheduled_calls
                    fn arg when s)) as (s' & Hrun & Hq & Htr & Hrm).
    exists s'. split; [exact Hrun |]. split; [exact Hq |]. auto.
Qed.

(** A fade on a remote whose channel has room: the level [from] is sent at
    once and the events of the fade are scheduled as SETBRIGHTNESS
    messages. *)
Lemma transition_brightness_remote quota rec rmt from to duration steps s r :
  remotes s !! rmt = Some r ->
  (length (sendqueue (chan r)) < quota)%nat ->
  exists s' r',
    transition_brightness quota rec (Some rmt) from to duration steps s = Ok tt s' /\
    remotes s' !! rmt = Some r' /\
    sendqueue (chan r') = sendqueue (chan r) ++ [new_message (MT_SETBRIGHTNESS from)] /\
    scheduled_messages r'
    = fold_left (fun q m => insert_by_time sendtime m q)
                (map brightness_message (fade_events from to duration steps (clock s)))
                (scheduled_messages r) /\
    state r' = state r /\ failcount r' = failcount r.
Proof.
  intros Hr Hroom. rewrite transition_brightness_events.
  unfold bind. cbn [set_node_display_brightness send_setbrightness].
  unfold enqueue_message, bind, mc_enqueue. rewrite Hr. simpl.
  rewrite bool_decide_eq_false_2 by (rewrite length_app; simpl; lia).
  set (s1 := emit _ _).
  assert (Hr1 : remotes s1 !! rmt
                = Some (set_chan (MsgChan (mc_open (chan r))
                          (sendqueue (chan r) ++ [new_message (MT_SETBRIGHTNESS from)])) r)).
  { subst s1. simpl. rewrite list_lookup_alter_eq, Hr. reflexivity. }
  destruct (for_each_schedule_message rmt
              (map brightness_message (fade_events from to duration steps (clock s)))
              s1 _ Hr1) as (s' & r' & Hrun & Hr' & Hq & Hst & Hfc & Hch).
  rewrite for_each_map in Hrun.
  exists s', r'. split; [exact Hrun |]. split; [exact Hr' |].
  rewrite Hch, Hq, Hst, Hfc. simpl. auto.
Qed.

(** A fade on the master: the local gamma setter is called with [from] at
    once and the events of the fade are scheduled as calls of
    [set_brightness_cb]. *)
Lemma transition_brightness_master quota rec from to duration steps s :
  exists s',
    transition_brightness quota rec None from to duration steps s = Ok tt s' /\
    trace s' = trace s ++ [EvSetDisplayBrightness from] /\
    scheduled_calls s'
    = fold_left (fun q c => insert_by_time calltime c q)
                (map brightness_call (fade_events from to duration steps (clock s)))
                (scheduled_calls s) /\
    remotes s' = remotes s.
Proof.
  rewrite transition_brightness_events.
  unfold bind. cbn [set_node_display_brightness].
  unfold set_display_brightness, modify.
  destruct (for_each_schedule_call
              (map brightness_call (fade_events from to duration steps (clock s)))
              (emit (EvSetDisplayBrightness from) s)) as (s' & Hrun & Hq & Htr & Hrm).
  rewrite for_each_map in Hrun.
  exists s'. split; [exact Hrun |]. rewrite Htr, Hq, Hrm. simpl. auto.
Qed.

(** The binary32 number nearest to 0.3. *)
Definition brightness_0_3 : float := S754_finite false 10066330 (-25).

(** The events of the fade from 1.0 to 0.3 over 300 ms in 6 steps. *)
Lemma fade_events_300ms now_us :
  0 <= now_us -> now_us + 300000 < UINT64_MOD ->
  fade_events F32.one brightness_0_3 300000 6 now_us
  = map (fun i => (fade_level F32.one brightness_0_3 6 i, now_us + 50000 * i))
        [1; 2; 3; 4; 5]
    ++ [(brightness_0_3, now_us + 300000)].
Proof.
  intros H0 H1. unfold fade_events.
  change (seqZ 1 (6 - 1)) with [1; 2; 3; 4; 5].
  assert (Hadd : forall d, 0 <= d <= 300000 -> add64 now_us d = now_us + d).
  { intros d Hd. unfold add64, u64. apply Z.mod_small. lia. }
  cbn [map]. unfold fade_time.
  change (F32.to_u64 (F32.mul (fade_frac 6 1) (F32.of_Z 300000))) with 50000.
  change (F32.to_u64 (F32.mul (fade_frac 6 2) (F32.of_Z 300000))) with 100000.
  change (F32.to_u64 (F32.mul (fade_frac 6 3) (F32.of_Z 300000))) with 150000.
  change (F32.to_u64 (F32.mul (fade_frac 6 4) (F32.of_Z 300000))) with 200000.
  change (F32.to_u64 (F32.mul (fade_frac 6 5) (F32.of_Z 300000))) with 250000.
  rewrite !Hadd by lia. reflexivity.
Qed.

Lemma handle_ready_dim_inactive histlen quota cfg center fuel rmt r s :
  focus_hint cfg = FocusHint FH_DIM_INACTIVE brightness_0_3 300000 6 ->
  remotes s !! rmt = Some r ->
  state r = CS_SETTINGUP ->
  scheduled_messages r = [] ->
  (length (sendqueue (chan r)) < quota)%nat ->
  0 <= clock s -> clock s + 300000 < UINT64_MOD ->
  exists s' r',
    handle_message histlen quota cfg center fuel rmt (new_message MT_READY) s = Ok tt s' /\
    remotes s' !! rmt = Some r' /\
    state r' = CS_CONNECTED /\
    scheduled_messages r'
    = map (fun i => Message (MT_SETBRIGHTNESS (fade_level F32.one brightness_0_3 6 i))
                            (clock s + 50000 * i))
          [1; 2; 3; 4; 5]
      ++ [Message (MT_SETBRIGHTNESS brightness_0_3) (clock s + 300000)].
Proof.
  intros Hcfg Hr Hst Hsched Hroom H0 H1.
  unfold handle_message. cbn [body new_message].
  unfold bind at 1. unfold remote_field at 1, gets at 1. rewrite Hr.
  cbn [from_option]. rewrite Hst.
  destruct (decide (Some CS_SETTINGUP = Some CS_SETTINGUP)) as [_ | Hne];
    [| congruence].
  rewrite Hcfg. cbn [fh_type fh_brightness fh_duration fh_fade_steps].
  unfold elog. unfold bind, modify, remote_field, gets. cbv beta iota.
  match goal with
  | |- context [transition_brightness _ _ _ _ _ _ _ ?s3] => set (s1 := s3)
  end.
  assert (Hr1 : remotes s1 !! rmt = Some (set_failcount 0 (set_state CS_CONNECTED r))).
  { subst s1. simpl. rewrite !list_lookup_alter_eq, Hr. reflexivity. }
  destruct (transition_brightness_remote quota (fail_remote quota cfg center fuel) rmt
              F32.one brightness_0_3 300000 6 s1 _ Hr1)
    as (s' & r' & Hrun & Hr' & _ & Hq & Hst' & _); [exact Hroom |].
  exists s', r'. split; [exact Hrun |]. split; [exact Hr' |].
  split; [rewrite Hst'; reflexivity |].
  rewrite Hq. replace (clock s1) with (clock s) by reflexivity.
  rewrite fade_events_300ms by assumption.
  cbn [scheduled_messages set_failcount set_state]. rewrite Hsched.
  cbn [map app fold_left]. unfold brightness_message. cbn [fst snd].
  repeat match goal with
         | |- context [insert_by_time sendtime ?m ?q] =>
             lazymatch q with
             | context [insert_by_time] => fail
             | _ =>
                 rewrite (insert_by_time_last sendtime m q)
                   by (repeat apply Forall_cons_2; try apply Forall_nil_2; simpl; lia);
                 cbn [app]
             end
         end.
  reflexivity.
Qed.

(** C7.  A fade from [from] to [to] over [duration] in [steps] steps sets
    the node to [from] at once and schedules the events [fade_events]:
    [steps - 1] intermediate ones, the [i]-th at now + (i/steps)*duration
    with level from + (i/steps)*(to - from), and a final one at
    now + duration with level [to].  On the master the level is set through
    the local gamma setter, at once and by each scheduled call; on a remote
    it is sent as a SETBRIGHTNESS message, at once and by each scheduled
    message.  With brightness 0.3, duration 300 ms and 6 steps, a remote that
    becomes READY under DIM_INACTIVE gets six scheduled brightness messages,
    at +50, +100, +150, +200, +250 and +300 ms, going from 1.0 to 0.3. *)
Theorem brightness_fade_schedule :
  forall histlen quota cfg center fuel,
    (forall from to duration steps now_us,
        fade_events from to duration steps now_us
        = map (fun i => (F32.add from
                           (F32.mul (F32.div (F32.of_Z i) (F32.of_Z steps))
                                    (F32.sub to from)),
                         add64 now_us
                           (F32.to_u64
                              (F32.mul (F32.div (F32.of_Z i) (F32.of_Z steps))
                                       (F32.of_Z duration)))))
              (seqZ 1 (steps - 1))
          ++ [(to, add64 now_us duration)]) /\
    (forall rec from to duration steps s,
        exists s',
          transition_brightness quota rec None from to duration steps s = Ok tt s' /\
          trace s' = trace s ++ [EvSetDisplayBrightness from] /\
          scheduled_calls s'
          = fold_left (fun q c => insert_by_time calltime c q)
              (map (fun ev => ScheduledCall FN_set_brightness_cb ev.1 ev.2)
                   (fade_events from to duration steps (clock s)))
              (scheduled_calls s)) /\
    (forall level s,
        trace (invoke_callback FN_set_brightness_cb level s)
        = trace s ++ [EvSetDisplayBrightness level]) /\
    (forall rec rmt r from to duration steps s,
        remotes s !! rmt = Some r ->
        (length (sendqueue (chan r)) < quota)%nat ->
        exists s' r',
          transition_brightness quota rec (Some rmt) from to duration steps s = Ok tt s' /\
          remotes s' !! rmt = Some r' /\
          sendqueue (chan r')
          = sendqueue (chan r) ++ [new_message (MT_SETBRIGHTNESS from)] /\
          scheduled_messages r'
          = fold_left (fun q m => insert_by_time sendtime m q)
              (map (fun ev => Message (MT_SETBRIGHTNESS ev.1) ev.2)
                   (fade_events from to duration steps (clock s)))
              (scheduled_messages r)) /\
    (forall rmt r s,
        focus_hint cfg = FocusHint FH_DIM_INACTIVE brightness_0_3 300000 6 ->
        remotes s !! rmt = Some r ->
        state r = CS_SETTINGUP ->
        scheduled_messages r = [] ->
        (length (sendqueue (chan r)) < quota)%nat ->
        0 <= clock s -> clock s + 300000 < UINT64_MOD ->
        exists s' r',
          handle_message histlen quota cfg center fuel rmt (new_message MT_READY) s
          = Ok tt s' /\
          remotes s' !! rmt = Some r' /\
          state r' = CS_CONNECTED /\
          scheduled_messages r'
          = map (fun i => Message
                            (MT_SETBRIGHTNESS
                               (F32.add F32.one
                                  (F32.mul (F32.div (F32.of_Z i) (F32.of_Z 6))
                                           (F32.sub brightness_0_3 F32.one))))
                            (clock s + 50000 * i))
                [1; 2; 3; 4; 5]
            ++ [Message (MT_SETBRIGHTNESS brightness_0_3) (clock s + 300000)]).
Proof.
  intros histlen quota cfg center fuel.
  split; [| split; [| split; [| split]]].
  - reflexivity.
  - intros rec from to duration steps s.
    destruct (transition_brightness_master quota rec from to duration steps s)
      as (s' & Hrun & Htr & Hq & _).
    exists s'. auto.
  - intros level s. reflexivity.
  - intros rec rmt r from to duration steps s Hr Hroom.
    destruct (transition_brightness_remote quota rec rmt from to duration steps s r
                Hr Hroom) as (s' & r' & Hrun & Hr' & Hch & Hq & _).
    exists s', r'. auto.
  - intros rmt r s. apply handle_ready_dim_inactive.
Qed.

(** ** Clipboard transfer on a focus switch *)

(** Since the trace was [tr0], the message [msg] has been enqueued to the
    remote [rmt]. *)
Definition sent (tr0 : list event) (rmt : rid) (msg : message) (s : world) : Prop :=
  is_Some (remotes s !! rmt) /\
  exists ext, trace s = tr0 ++ ext /\ EvEnqueue rmt msg ∈ ext.

(** Since the trace was [tr0], the remote [a] either still has the focus or
    has handed it back to the master and been sent GETCLIPBOARD. *)
Definition leaving (tr0 : list event) (a : rid) (s : world) : Prop :=
  is_Some (remotes s !! a) /\
  exists ext, trace s = tr0 ++ ext /\
              (focused_remote s = Some a \/
               (focused_remote s = None /\
                EvEnqueue a (new_message MT_GETCLIPBOARD) ∈ ext)).

Lemma alter_remote_is_Some f rmt a s :
  is_Some (remotes s !! a) -> is_Some (remotes (alter_remote f rmt s) !! a).
Proof.
  intros [x Hx]. simpl. destruct (decide (rmt = a)) as [-> | Hne].
  - rewrite list_lookup_alter_eq, Hx. eauto.
  - rewrite list_lookup_alter_ne by exact Hne. eauto.
Qed.

Lemma sent_stable tr0 rmt msg : knot_stable (sent tr0 rmt msg).
Proof.
  constructor;
    try (intros; match goal with
                 | H : sent _ _ _ _ |- _ =>
                     destruct H as (Hv & Hext); split;
                     [first [apply alter_remote_is_Some; exact Hv | exact Hv] | exact Hext]
                 end).
  intros e s (Hv & ext & Htr & Hin). split; [exact Hv |].
  exists (ext ++ [e]). simpl.
  rewrite Htr, app_assoc. split; [reflexivity |].
  apply elem_of_app. left. exact Hin.
Qed.

Lemma sent_focus tr0 rmt msg v s :
  sent tr0 rmt msg s -> sent tr0 rmt msg (set_focused_remote v s).
Proof. intros H. exact H. Qed.

Lemma leaving_stable tr0 a : knot_stable (leaving tr0 a).
Proof.
  constructor;
    try (intros; match goal with
                 | H : leaving _ _ _ |- _ =>
                     destruct H as (Hv & Hext); split;
                     [first [apply alter_remote_is_Some; exact Hv | exact Hv] | exact Hext]
                 end).
  intros e s (Hv & ext & Htr & Hfoc). split; [exact Hv |].
  exists (ext ++ [e]). simpl. rewrite Htr, app_assoc. split; [reflexivity |].
  destruct Hfoc as [Hfoc | [Hfoc Hin]]; [left; exact Hfoc | right].
  split; [exact Hfoc |]. apply elem_of_app. left. exact Hin.
Qed.

Lemma hoare_gets_bind {A B} (P : world -> Prop) (f : world -> A) (k : A -> M B)
  (Q : B -> world -> Prop) :
  (forall v, hoare (fun s => P s /\ f s = v) (k v) Q) ->
  hoare P (bind (gets f) k) Q.
Proof. intros Hk s Hs. unfold bind, gets. apply (Hk (f s) s). auto. Qed.

Lemma hoare_seq {A B} (P R : world -> Prop) (Q : B -> world -> Prop)
  (m : M A) (k : M B) :
  hoare P m (fun _ => R) -> hoare R k Q -> hoare P (m >> k) Q.
Proof. intros Hm Hk. eapply hoare_bind; [exact Hm | intros ?; exact Hk]. Qed.

Lemma hoare_pre {A} (P P' : world -> Prop) (Q : A -> world -> Prop) (m : M A) :
  (forall s, P s -> P' s) -> hoare P' m Q -> hoare P m Q.
Proof. intros HP Hm. eapply hoare_conseq; [exact Hm | exact HP | auto]. Qed.

Lemma hoare_pure {A} (P : world -> Prop) (phi : Prop) (Q : A -> world -> Prop)
  (m : M A) :
  (forall s, P s -> phi) -> (phi -> hoare P m Q) -> hoare P m Q.
Proof. intros Hphi Hm s Hs. exact (Hm (Hphi s Hs) s Hs). Qed.

(** An invariant of the knot together with a fixed focus is an invariant
    of the knot. *)
Lemma knot_stable_focused (I : world -> Prop) (v : option rid) :
  knot_stable I -> knot_stable (fun s => I s /\ focused_remote s = v).
Proof.
  intros [H1 H2 H3 H4 H5 H6 H7 H8 H9 H10 H11].
  constructor; intros; match goal with H : _ /\ _ |- _ => destruct H as [HI Hf] end;
    (split; [auto | exact Hf]).
Qed.

Ltac knot_prim st :=
  first
    [ apply preserves_modify; intros ? ?;
      repeat first [ assumption
                   | apply (st_emit _ st)
                   | apply (st_chan _ st)
                   | apply (st_sched_clear _ st)
                   | apply (st_sched_insert _ st)
                   | apply (st_sshpid _ st)
                   | apply (st_failcount _ st)
                   | apply (st_state _ st)
                   | apply (st_nrt _ st)
                   | apply (st_call _ st)
                   | apply (st_mousepos _ st)
                   | apply (st_saved _ st) ]
    | pres_step ].

Definition remote_exists (rmt : rid) (s : world) : Prop := is_Some (remotes s !! rmt).

Definition keeps_master (tr0 : list event) (clip0 : string) (s : world) : Prop :=
  focused_remote s = None /\ clipboard s = clip0 /\ exists ext, trace s = tr0 ++ ext.

Lemma remote_exists_stable rmt : knot_stable (remote_exists rmt).
Proof.
  constructor; intros; first [apply alter_remote_is_Some; assumption | assumption].
Qed.

Lemma keeps_master_stable tr0 clip0 : knot_stable (keeps_master tr0 clip0).
Proof.
  constructor; try (intros; assumption).
  intros e s (Hfoc & Hclip & ext & Htr).
  repeat split; try assumption. exists (ext ++ [e]). simpl.
  rewrite Htr, app_assoc. reflexivity.
Qed.

Section ClipboardTransfer.
Variable quota : nat.
Variable cfg : config_t.
Variable center : xypoint.
Variable tr0 : list event.

Lemma hoare_mc_enqueue rmt msg :
  hoare (fun s => remote_exists rmt s /\ exists ext, trace s = tr0 ++ ext)
        (mc_enqueue quota rmt msg) (fun _ => sent tr0 rmt msg).
Proof.
  intros s ([r Hr] & ext & Htr). unfold mc_enqueue. rewrite Hr. simpl.
  split.
  - unfold remote_exists. simpl. rewrite list_lookup_alter_eq, Hr. simpl. eauto.
  - exists (ext ++ [EvEnqueue rmt msg]). simpl. rewrite Htr, app_assoc.
    split; [reflexivity |]. apply elem_of_app. right.
    apply list_elem_of_singleton. reflexivity.
Qed.

Lemma hoare_enqueue_sent rec rmt msg :
  (forall r reason, preserves (sent tr0 rmt msg) (rec r reason)) ->
  hoare (fun s => remote_exists rmt s /\ exists ext, trace s = tr0 ++ ext)
        (enqueue_message quota rec rmt msg) (fun _ => sent tr0 rmt msg).
Proof.
  intros Hrec. unfold enqueue_message.
  eapply hoare_bind; [apply hoare_mc_enqueue |].
  intros [|]; [apply Hrec | apply preserves_ret].
Qed.

Section FromRemote.
Variable a : rid.
Let GET := new_message MT_GETCLIPBOARD.
Variable rec : rid -> string -> M unit.
Hypothesis rec_leaving : forall r reason, preserves (leaving tr0 a) (rec r reason).
Hypothesis rec_sent : forall r reason, preserves (sent tr0 a GET) (rec r reason).

Lemma focus_switch_from_remote switch_to modkeys from_hotkey :
  hoare (leaving tr0 a)
        (focus_switch quota cfg center rec switch_to modkeys from_hotkey)
        (fun ret s => (ret = 0 /\ leaving tr0 a s) \/
                      (ret = 1 /\ sent tr0 a GET s /\ focused_remote s = switch_to)).
Proof.
  unfold focus_switch.
  apply hoare_gets_bind. intros f0.
  apply hoare_seq with (R := leaving tr0 a).
  { apply hoare_pre with (P' := leaving tr0 a); [tauto |].
    destruct (_ || _);
      [ apply preserves_indicate_switch; [apply leaving_stable | exact rec_leaving]
      | apply preserves_ret ]. }
  apply hoare_gets_bind. intros f1.
  destruct (decide (switch_to = f1)) as [Heq | Hne].
  { intros s [Hs _]. simpl. left. auto. }
  pose (P1 := fun s => leaving tr0 a s /\ focused_remote s = f1).
  pose proof (knot_stable_focused _ f1 (leaving_stable tr0 a)) as HP1.
  apply hoare_seq with (R := fun s => sent tr0 a GET s /\ focused_remote s = switch_to);
    [| intros s Hs; simpl; right; auto].
  apply hoare_seq with (R := sent tr0 a GET);
    [| apply hoare_modify; intros s Hs; split; [exact Hs | reflexivity]].
  apply hoare_seq with (R := sent tr0 a GET).
  2:{ apply hoare_gets_bind. intros f3.
      apply hoare_pre with (P' := sent tr0 a GET); [tauto |].
      apply preserves_transfer_modifiers; [apply sent_stable | exact rec_sent]. }
  apply hoare_seq with (R := P1).
  - apply hoare_seq with (R := P1).
    + unfold ungrab_inputs, grab_inputs, set_mousepos, get_mousepos.
      change (preserves P1
                match f1 with
                | Some _ =>
                    match switch_to with
                    | Some _ => ret tt
                    | None =>
                        modify (emit EvUngrabInputs) >>
                        let* saved := gets saved_master_mousepos in
                        modify (fun s => emit (EvSetMousepos saved)
                                           (set_mousepos_field saved s))
                    end
                | None =>
                    match switch_to with
                    | Some _ =>
                        (let* pos := gets mousepos in
                         modify (set_saved_master_mousepos pos)) >>
                        modify (emit EvGrabInputs)
                    | None => ret tt
                    end
                end).
      destruct f1, switch_to; repeat knot_prim HP1.
    + unfold set_mousepos.
      change (preserves P1
                match switch_to with
                | Some _ => modify (fun s => emit (EvSetMousepos center)
                                               (set_mousepos_field center s))
                | None => ret tt
                end).
      destruct switch_to; repeat knot_prim HP1.
  - apply hoare_gets_bind. intros f2.
    apply (hoare_pure _ (f2 = f1 /\ (f1 = Some a \/ f1 = None))).
    { intros s [[Hl Hf1] Hf2]. split; [congruence |].
      destruct Hl as (_ & ext & _ & [Hfoc | [Hfoc _]]); [left | right]; congruence. }
    intros [-> [-> | ->]].
    + assert (Htc : transfer_clipboard quota rec (Some a) switch_to
                    = enqueue_message quota rec a GET)
        by (destruct switch_to; reflexivity).
      rewrite Htc.
      eapply hoare_pre; [| apply hoare_enqueue_sent; exact rec_sent].
      intros s [[(Hv & ext & Htr & _) _] _]. split; [exact Hv | eauto].
    + apply hoare_pre with (P' := sent tr0 a GET).
      { intros s [[(Hv & ext & Htr & [Hfoc | [_ Hin]]) Hf1] _]; [congruence |].
        split; [exact Hv | eauto]. }
      apply preserves_transfer_clipboard; [apply sent_stable | exact rec_sent].
Qed.

Lemma handback_leaving modkeys from_hotkey :
  preserves (leaving tr0 a)
            (focus_switch quota cfg center rec None modkeys from_hotkey).
Proof.
  eapply hoare_conseq;
    [apply focus_switch_from_remote | auto |].
  intros ret s [[_ Hl] | (_ & (Hv & ext & Htr & Hin) & Hfoc)]; [exact Hl |].
  split; [exact Hv |]. exists ext. split; [exact Htr |]. right. auto.
Qed.
End FromRemote.
End ClipboardTransfer.

Lemma knot_stable_and (I J : world -> Prop) :
  knot_stable I -> knot_stable J -> knot_stable (fun s => I s /\ J s).
Proof.
  intros [H1 H2 H3 H4 H5 H6 H7 H8 H9 H10 H11] [K1 K2 K3 K4 K5 K6 K7 K8 K9 K10 K11].
  constructor; intros; match goal with H : _ /\ _ |- _ => destruct H as [HI HJ] end;
    (split; auto).
Qed.

Lemma preserves_and {A} (I J : world -> Prop) (m : M A) :
  preserves I m -> preserves J m -> preserves (fun s => I s /\ J s) m.
Proof.
  intros HI HJ s [Hs1 Hs2]. specialize (HI s Hs1). specialize (HJ s Hs2).
  destruct (m s); [split; assumption | exact Logic.I].
Qed.

Section ClipboardTransferMaster.
Variable quota : nat.
Variable cfg : config_t.
Variable center : xypoint.
Variable tr0 : list event.
Variable clip0 : string.
Variable rec : rid -> string -> M unit.
Hypothesis rec_master :
  forall r reason, preserves (keeps_master tr0 clip0) (rec r reason).

Lemma focus_switch_master_to_master modkeys from_hotkey :
  hoare (keeps_master tr0 clip0)
        (focus_switch quota cfg center rec None modkeys from_hotkey)
        (fun ret s => ret = 0 /\ keeps_master tr0 clip0 s).
Proof.
  unfold focus_switch.
  apply hoare_gets_bind. intros f0.
  apply hoare_seq with (R := keeps_master tr0 clip0).
  { apply hoare_pre with (P' := keeps_master tr0 clip0); [tauto |].
    destruct (_ || _);
      [ apply preserves_indicate_switch; [apply keeps_master_stable | exact rec_master]
      | apply preserves_ret ]. }
  apply hoare_gets_bind. intros f1.
  apply (hoare_pure _ (f1 = None)).
  { intros s [(Hfoc & _) Hf1]. congruence. }
  intros ->. destruct (decide (None = None)) as [_ | Hne]; [| congruence].
  intros s [Hs _]. simpl. auto.
Qed.

Lemma handback_keeps_master modkeys from_hotkey :
  preserves (keeps_master tr0 clip0)
            (focus_switch quota cfg center rec None modkeys from_hotkey).
Proof.
  eapply hoare_conseq; [apply focus_switch_master_to_master | auto |].
  intros ret s [_ Hs]. exact Hs.
Qed.

Variable b : rid.
Let SET := new_message (MT_SETCLIPBOARD clip0).
Hypothesis rec_exists : forall r reason, preserves (remote_exists b) (rec r reason).
Hypothesis rec_sent : forall r reason, preserves (sent tr0 b SET) (rec r reason).

Lemma focus_switch_master_to_remote modkeys from_hotkey :
  hoare (fun s => keeps_master tr0 clip0 s /\ remote_exists b s)
        (focus_switch quota cfg center rec (Some b) modkeys from_hotkey)
        (fun ret s => ret = 1 /\ sent tr0 b SET s /\ focused_remote s = Some b).
Proof.
  pose (P := fun s => keeps_master tr0 clip0 s /\ remote_exists b s).
  pose proof (knot_stable_and _ _ (keeps_master_stable tr0 clip0)
                (remote_exists_stable b)) as HP.
  assert (HrecP : forall r reason, preserves P (rec r reason))
    by (intros; apply preserves_and; auto).
  unfold focus_switch.
  apply hoare_gets_bind. intros f0.
  apply hoare_seq with (R := P).
  { apply hoare_pre with (P' := P); [intros s [Hs _]; exact Hs |].
    destruct (_ || _);
      [ apply preserves_indicate_switch; [exact HP | exact HrecP]
      | apply preserves_ret ]. }
  apply hoare_gets_bind. intros f1.
  apply (hoare_pure _ (f1 = None)).
  { intros s [[(Hfoc & _) _] Hf1]. congruence. }
  intros ->. destruct (decide (Some b = None)) as [Heq | _]; [discriminate |].
  apply hoare_pre with (P' := P); [intros s [Hs _]; exact Hs |].
  apply hoare_seq with (R := fun s => sent tr0 b SET s /\ focused_remote s = Some b);
    [| intros s Hs; simpl; auto].
  apply hoare_seq with (R := sent tr0 b SET);
    [| apply hoare_modify; intros s Hs; split; [exact Hs | reflexivity]].
  apply hoare_seq with (R := sent tr0 b SET).
  2:{ apply hoare_gets_bind. intros f3.
      apply hoare_pre with (P' := sent tr0 b SET); [tauto |].
      apply preserves_transfer_modifiers; [apply sent_stable | exact rec_sent]. }
  apply hoare_seq with (R := P).
  - apply hoare_seq with (R := P).
    + unfold grab_inputs, get_mousepos. repeat knot_prim HP.
    + unfold set_mousepos. repeat knot_prim HP.
  - apply hoare_gets_bind. intros f2.
    apply (hoare_pure _ (f2 = None)).
    { intros s [[(Hfoc & _) _] Hf2]. congruence. }
    intros ->. cbn [transfer_clipboard]. unfold get_clipboard_text.
    apply hoare_gets_bind. intros text.
    apply (hoare_pure _ (text = clip0)).
    { intros s [[[(_ & Hclip & _) _] _] Htext]. congruence. }
    intros ->.
    destruct (Z.of_nat (String.length clip0) <=? UINT32_MAX); [| apply hoare_halt].
    eapply hoare_pre; [| apply hoare_enqueue_sent; exact rec_sent].
    intros s [[[(_ & _ & Hext) Hv] _] _]. split; assumption.
Qed.
End ClipboardTransferMaster.

Section ClipboardTransferKnot.
Variable quota : nat.
Variable cfg : config_t.
Variable center : xypoint.
Variable tr0 : list event.

Lemma sent_fail_remote rmt msg fuel r reason :
  preserves (sent tr0 rmt msg) (fail_remote quota cfg center fuel r reason).
Proof.
  apply preserves_fail_remote; [apply sent_stable | apply sent_focus].
Qed.

Lemma remote_exists_fail_remote rmt fuel r reason :
  preserves (remote_exists rmt) (fail_remote quota cfg center fuel r reason).
Proof.
  apply preserves_fail_remote; [apply remote_exists_stable |].
  intros v s Hs. exact Hs.
Qed.

Lemma leaving_fail_remote a fuel r reason :
  preserves (leaving tr0 a) (fail_remote quota cfg center fuel r reason).
Proof.
  revert r reason. induction fuel as [| fuel IH]; intros r reason; simpl.
  - apply preserves_halt.
  - apply preserves_fail_remote_body; [apply leaving_stable |].
    intros modkeys from_hotkey.
    apply handback_leaving; [exact IH |].
    intros. apply sent_fail_remote.
Qed.

Lemma keeps_master_fail_remote clip0 fuel r reason :
  preserves (keeps_master tr0 clip0) (fail_remote quota cfg center fuel r reason).
Proof.
  revert r reason. induction fuel as [| fuel IH]; intros r reason; simpl.
  - apply preserves_halt.
  - apply preserves_fail_remote_body; [apply keeps_master_stable |].
    intros modkeys from_hotkey.
    apply handback_keeps_master. exact IH.
Qed.
End ClipboardTransferKnot.

Section FocusNodeClipboard.
Variable quota : nat.
Variable cfg : config_t.
Variable center : xypoint.

Lemma focus_node_from_remote fuel n modkeys from_hotkey a s s' :
  focused_remote s = Some a ->
  is_Some (remotes s !! a) ->
  focus_node quota cfg center (fail_remote quota cfg center fuel) n modkeys
             from_hotkey s = Ok 1 s' ->
  exists ext, trace s' = trace s ++ ext /\
              EvEnqueue a (new_message MT_GETCLIPBOARD) ∈ ext.
Proof.
  intros Hfoc Hv Hrun.
  assert (Hswitch : forall switch_to,
             hoare (leaving (trace s) a)
                   (focus_switch quota cfg center (fail_remote quota cfg center fuel)
                                 switch_to modkeys from_hotkey)
                   (fun ret s1 => ret = 1 ->
                                  sent (trace s) a (new_message MT_GETCLIPBOARD) s1)).
  { intros switch_to. eapply hoare_conseq;
      [ apply (focus_switch_from_remote quota cfg center (trace s) a);
        [ intros; apply leaving_fail_remote | intros; apply sent_fail_remote ]
      | intros s1 Hs1; exact Hs1 |].
    intros ret s1 [[-> _] | (_ & Hsent & _)]; [discriminate | auto]. }
  assert (Hnode : hoare (leaving (trace s) a)
                        (focus_node quota cfg center (fail_remote quota cfg center fuel)
                                    n modkeys from_hotkey)
                        (fun ret s1 => ret = 1 ->
                                       sent (trace s) a (new_message MT_GETCLIPBOARD) s1)).
  { unfold focus_node. destruct n as [| | r | name].
    - apply hoare_gets_bind. intros f0.
      eapply hoare_pre; [| apply Hswitch]. tauto.
    - apply Hswitch.
    - unfold remote_field. apply hoare_gets_bind. intros st.
      destruct (decide (st = Some CS_CONNECTED)).
      + eapply hoare_pre; [| apply Hswitch]. tauto.
      + intros s1 _. unfold bind, gets, elog, modify, ret. simpl. discriminate.
    - intros s1 _. unfold bind, elog, modify, ret. simpl. discriminate. }
  assert (Hs : leaving (trace s) a s).
  { split; [exact Hv |]. exists []. rewrite app_nil_r. auto. }
  specialize (Hnode s Hs). rewrite Hrun in Hnode.
  destruct (Hnode eq_refl) as (_ & ext & Htr & Hin). eauto.
Qed.

Lemma focus_node_from_master fuel n modkeys from_hotkey s s' :
  focused_remote s = None ->
  focus_node quota cfg center (fail_remote quota cfg center fuel) n modkeys
             from_hotkey s = Ok 1 s' ->
  exists b ext,
    n = NT_REMOTE b /\ focused_remote s' = Some b /\
    trace s' = trace s ++ ext /\
    EvEnqueue b (new_message (MT_SETCLIPBOARD (clipboard s))) ∈ ext.
Proof.
  intros Hfoc Hrun.
  assert (Hs : keeps_master (trace s) (clipboard s) s).
  { split; [exact Hfoc |]. split; [reflexivity |]. exists []. rewrite app_nil_r. auto. }
  pose proof (focus_switch_master_to_master quota cfg center (trace s) (clipboard s)
                (fail_remote quota cfg center fuel)
                (fun r reason => keeps_master_fail_remote quota cfg center (trace s)
                                   (clipboard s) fuel r reason)
                modkeys from_hotkey s Hs) as Hstay.
  unfold focus_node in Hrun. destruct n as [| | b | name].
  - unfold bind, gets in Hrun. rewrite Hfoc in Hrun.
    rewrite Hrun in Hstay. destruct Hstay as [Hret _]. discriminate.
  - rewrite Hrun in Hstay. destruct Hstay as [Hret _]. discriminate.
  - unfold bind at 1 in Hrun. unfold remote_field at 1, gets at 1 in Hrun.
    destruct (remotes s !! b) as [r |] eqn:Hb; simpl in Hrun.
    + destruct (decide (Some (state r) = Some CS_CONNECTED)) as [_ | _].
      * pose proof (focus_switch_master_to_remote quota cfg center (trace s)
                      (clipboard s) (fail_remote quota cfg center fuel)
                      (fun r reason => keeps_master_fail_remote quota cfg center
                                         (trace s) (clipboard s) fuel r reason)
                      b
                      (fun r reason => remote_exists_fail_remote quota cfg center b
                                         fuel r reason)
                      (fun r reason => sent_fail_remote quota cfg center (trace s) b _
                                         fuel r reason)
                      modkeys from_hotkey s) as Hgo.
        rewrite Hrun in Hgo.
        destruct Hgo as (_ & (_ & ext & Htr & Hin) & Hfoc').
        { split; [exact Hs |]. unfold remote_exists. rewrite Hb. eauto. }
        exists b, ext. auto.
      * unfold bind, remote_field, gets, elog, modify, ret in Hrun. discriminate.
    + destruct (decide (None = Some CS_CONNECTED)) as [Heq | _]; [discriminate |].
      unfold bind, remote_field, gets, elog, modify, ret in Hrun. discriminate.
  - unfold bind, elog, modify, ret in Hrun. discriminate.
Qed.
End FocusNodeClipboard.

(** ** Scenarios *)

Module Demo.
Definition histlen : Z := 6.
Definition prot : Z := 1.
Definition center : xypoint := XY 960 540.
Definition SHIFT : Z := 50.

Definition no_history : edge_state := EdgeState 0 (replicate 6 0) EE_DEPART.

(** A remote as configured, before it is set up. *)
Definition parsed_remote (name : string) (nb : dirmap noderef) : remote :=
  Remote name [] nb CS_SETTINGUP 0 0 0 (MsgChan false []) [] (dm_const no_history).

(** Master, then [alpha] to its right, then [beta]. *)
Definition alpha : remote :=
  parsed_remote "alpha" (DirMap NT_MASTER (NT_REMOTE 1%nat) NT_NONE NT_NONE).
Definition beta : remote :=
  parsed_remote "beta" (DirMap (NT_REMOTE 0%nat) NT_NONE NT_NONE NT_NONE).

Definition start_world (rs : list remote) (held : list Z) : world :=
  World None rs [] (XY 0 0) (dm_const no_history) 0 100 (XY 10 10) "hello" held [].

Definition no_hint : focus_hint_t := FocusHint FH_NONE F32.one 0 0.
Definition flash_hint : focus_hint_t :=
  FocusHint FH_FLASH_ACTIVE brightness_0_3 300000 6.
Definition dim_hint : focus_hint_t :=
  FocusHint FH_DIM_INACTIVE brightness_0_3 300000 6.

Definition config_with (hint : focus_hint_t) (ns : nullswitch_t) : config_t :=
  Config (DirMap NT_NONE (NT_REMOTE 0%nat) NT_NONE NT_NONE) hint
         (MouseSwitch MS_MULTITAP 2 400000) ns.

(** A pass in which no descriptor of a remote is ready. *)
Definition quiet (now : Z) (evs : list platform_event) : fds_input :=
  FdsInput now (fun _ => None) (fun _ => None) evs.

(** A pass in which every remote delivers READY. *)
Definition all_ready (now : Z) : fds_input :=
  FdsInput now (fun _ => Some (RecvMessage (new_message MT_READY)))
           (fun _ => None) [].

Definition hotkey_to (n : noderef) : platform_event := PE_Hotkey (AT_SWITCHTO n) [].

(** [main] from the set-up of the remotes on, through the given passes of
    the event loop. *)
Definition boot (quota : nat) (cfg : config_t) (fuel : nat)
  (inputs : list fds_input) : M unit :=
  main_setup quota prot cfg center fuel >>
  for_each inputs (handle_fds histlen quota prot cfg center fuel).

Definition final (r : result unit) : option world :=
  match r with Ok _ s => Some s | Halt _ => None end.

Definition state_of (rmt : rid) (s : world) : option connstate_t :=
  state <$> remotes s !! rmt.

Definition is_setclipboard_to (rmt : rid) (e : event) : bool :=
  match e with
  | EvEnqueue r (Message (MT_SETCLIPBOARD _) _) => bool_decide (r = rmt)
  | _ => false
  end.

(** Focus moves from the master to [alpha] and then on to [beta]. *)
Definition relay_passes : list fds_input :=
  [ all_ready 1000;
    quiet 2000 [hotkey_to (NT_REMOTE 0%nat)];
    quiet 3000 [hotkey_to (NT_REMOTE 1%nat)] ].

(** [n] key presses. *)
Definition typing (n : nat) : list platform_event := replicate n (PE_Key 38 PR_PRESS).
End Demo.

(** Membership in an explicit list. *)
Ltac find_in_list :=
  apply list_elem_of_In; simpl; repeat first [ left; reflexivity | right ].

Lemma for_each_reachable quota cfg fuel inputs s s' :
  reachable Demo.histlen quota Demo.prot cfg Demo.center s ->
  for_each inputs (handle_fds Demo.histlen quota Demo.prot cfg Demo.center fuel) s
  = Ok tt s' ->
  reachable Demo.histlen quota Demo.prot cfg Demo.center s'.
Proof.
  revert s. induction inputs as [| inp inputs IH]; intros s Hs; simpl.
  - intros [= <-]. exact Hs.
  - unfold bind.
    destruct (handle_fds Demo.histlen quota Demo.prot cfg Demo.center fuel inp s)
      as [[] s1 |] eqn:Hpass; [| discriminate].
    apply IH. eapply reachable_step; eassumption.
Qed.

Lemma boot_reachable quota cfg fuel inputs s0 s :
  startup_world s0 ->
  Demo.boot quota cfg fuel inputs s0 = Ok tt s ->
  reachable Demo.histlen quota Demo.prot cfg Demo.center s.
Proof.
  intros Hstart. unfold Demo.boot, bind.
  destruct (main_setup quota Demo.prot cfg Demo.center fuel s0) as [[] s1 |] eqn:Hsetup;
    [| discriminate].
  apply for_each_reachable. eapply reachable_start; eassumption.
Qed.

Lemma demo_startup held :
  startup_world (Demo.start_world [Demo.alpha; Demo.beta] held).
Proof.
  split; [reflexivity |]. split; [reflexivity |].
  repeat constructor.
Qed.

(** C4, as stated, fails: after the focus has moved from the master to
    [alpha] and from there on to [beta], a real remote-to-remote switch,
    [alpha] has been sent GETCLIPBOARD but no SETCLIPBOARD has been enqueued
    to [beta]. *)
Lemma remote_to_remote_sends_no_setclipboard :
  exists s,
    Demo.boot 64 (Demo.config_with Demo.no_hint NS_NO) 2 Demo.relay_passes
              (Demo.start_world [Demo.alpha; Demo.beta] []) = Ok tt s /\
    focused_remote s = Some 1%nat /\
    EvEnqueue 0%nat (new_message MT_GETCLIPBOARD) ∈ trace s /\
    existsb (Demo.is_setclipboard_to 1%nat) (trace s) = false.
Proof.
  eexists. split; [vm_compute; reflexivity |].
  split; [reflexivity |]. split; [| reflexivity].
  find_in_list.
Qed.

(** C4, amended.  On a real focus switch ([focus_node] returns 1): if the
    departing node is a remote, a GETCLIPBOARD message is enqueued to it;
    if the departing node is the master, the arriving node is a remote, the
    local clipboard is read and a SETCLIPBOARD message with its contents is
    enqueued to the arriving remote.  When the departing node is a remote,
    [transfer_clipboard] enqueues nothing but the GETCLIPBOARD: it sends no
    SETCLIPBOARD to the arriving node. *)
Theorem clipboard_transfer_on_switch :
  forall quota cfg center fuel n modkeys from_hotkey s s',
    focus_node quota cfg center (fail_remote quota cfg center fuel) n modkeys
               from_hotkey s = Ok 1 s' ->
    (forall a, focused_remote s = Some a -> is_Some (remotes s !! a) ->
               exists ext, trace s' = trace s ++ ext /\
                           EvEnqueue a (new_message MT_GETCLIPBOARD) ∈ ext) /\
    (focused_remote s = None ->
     exists b ext,
       n = NT_REMOTE b /\ focused_remote s' = Some b /\
       trace s' = trace s ++ ext /\
       EvEnqueue b (new_message (MT_SETCLIPBOARD (clipboard s))) ∈ ext) /\
    (forall rec a to,
        transfer_clipboard quota rec (Some a) to
        = enqueue_message quota rec a (new_message MT_GETCLIPBOARD)).
Proof.
  intros quota cfg center fuel n modkeys from_hotkey s s' Hrun.
  split; [| split].
  - intros a Hfoc Hv. eapply focus_node_from_remote; eassumption.
  - intros Hfoc. eapply focus_node_from_master; eassumption.
  - intros rec a to. destruct to; reflexivity.
Qed.

(** C1 at a failing input.  With a backlog quota of 16 messages and a peer
    that does not drain its channel: the user switches to [alpha], types 13
    keys, switches back to the master and then to [alpha] again.  The
    SETCLIPBOARD of the last switch exceeds the backlog, [alpha] fails in
    the middle of [focus_node], and [focus_node] still makes it the focused
    remote: a reachable state in which the focused remote is FAILED. *)
Theorem focused_remote_not_connected :
  exists s,
    reachable Demo.histlen 16 Demo.prot (Demo.config_with Demo.no_hint NS_NO)
              Demo.center s /\
    focused_remote s = Some 0%nat /\
    Demo.state_of 0%nat s = Some CS_FAILED.
Proof.
  eexists. split; [| split].
  - eapply (boot_reachable 16 _ 2
              [ Demo.all_ready 1000;
                Demo.quiet 2000 [Demo.hotkey_to (NT_REMOTE 0%nat)];
                Demo.quiet 3000 (Demo.typing 13);
                Demo.quiet 4000 [Demo.hotkey_to NT_MASTER];
                Demo.quiet 5000 [Demo.hotkey_to (NT_REMOTE 0%nat)] ]);
      [apply (demo_startup [Demo.SHIFT]) | vm_compute; reflexivity].
  - reflexivity.
  - reflexivity.
Qed.

(** A null switch in which the indication, if any, leaves the focus where
    it is: the test of [focus_node] finds the target focused, and the
    function returns 0 with nothing done but the indication. *)
Lemma focus_switch_null quota cfg center rec modkeys from_hotkey s :
  let shown := match show_nullswitch cfg with
               | NS_YES => true
               | NS_HOTKEYONLY => from_hotkey
               | NS_NO => false
               end in
  (shown = false ->
   focus_switch quota cfg center rec (focused_remote s) modkeys from_hotkey s
   = Ok 0 s) /\
  (forall s1,
      shown = true ->
      indicate_switch quota cfg rec (focused_remote s) (focused_remote s) s = Ok tt s1 ->
      focused_remote s1 = focused_remote s ->
      focus_switch quota cfg center rec (focused_remote s) modkeys from_hotkey s
      = Ok 0 s1).
Proof.
  intros shown. subst shown. unfold focus_switch, bind, gets.
  rewrite (bool_decide_eq_false_2 (focused_remote s <> focused_remote s))
    by (intros H; apply H; reflexivity).
  split.
  - intros Hshown. rewrite Hshown. unfold ret. simpl.
    destruct (decide (focused_remote s = focused_remote s)); [reflexivity | congruence].
  - intros s1 Hshown Hind Hfoc. rewrite Hshown. simpl. rewrite Hind.
    destruct (decide (focused_remote s = focused_remote s1)); [reflexivity | congruence].
Qed.

(** C9 at a failing input.  With show-nullswitch ALWAYS, a FLASH_ACTIVE
    hint and a backlog quota of 16 messages: [alpha] is focused and
    CONNECTED and its channel holds 16 messages.  [focus_node] on [alpha]
    itself sends the brightness of the hint, which exceeds the backlog;
    [alpha] fails and hands the focus to the master, after which
    [focus_node] no longer finds the target focused: it grabs the inputs,
    warps the pointer, sends the clipboard, focuses the failed [alpha] and
    returns 1. *)
Theorem null_switch_returns_one :
  exists s s',
    reachable Demo.histlen 16 Demo.prot (Demo.config_with Demo.flash_hint NS_YES)
              Demo.center s /\
    focused_remote s = Some 0%nat /\
    Demo.state_of 0%nat s = Some CS_CONNECTED /\
    focus_node 16 (Demo.config_with Demo.flash_hint NS_YES) Demo.center
               (fail_remote 16 (Demo.config_with Demo.flash_hint NS_YES) Demo.center 2)
               (NT_REMOTE 0%nat) [] true s = Ok 1 s' /\
    focused_remote s' = Some 0%nat /\
    Demo.state_of 0%nat s' = Some CS_FAILED /\
    drop (length (trace s)) (trace s')
    = [ EvEnqueue 0%nat (new_message (MT_SETBRIGHTNESS brightness_0_3));
        EvLog "disconnecting remote 'alpha': send backlog exceeded";
        EvClose 0%nat; EvKill 100;
        EvSetDisplayBrightness brightness_0_3;
        EvUngrabInputs; EvSetMousepos (XY 10 10);
        EvEnqueue 0%nat (new_message MT_GETCLIPBOARD);
        EvEnqueue 0%nat (new_message (MT_KEYEVENT Demo.SHIFT PR_RELEASE));
        EvGrabInputs; EvSetMousepos Demo.center;
        EvEnqueue 0%nat (new_message (MT_SETCLIPBOARD "hello")) ].
Proof.
  eexists. eexists. split; [| split; [| split; [| split]]].
  - eapply (boot_reachable 16 _ 2
              [ Demo.all_ready 1000;
                Demo.quiet 2000 [Demo.hotkey_to (NT_REMOTE 0%nat)];
                Demo.quiet 3000 (Demo.typing 13) ]);
      [apply (demo_startup [Demo.SHIFT]) | vm_compute; reflexivity].
  - reflexivity.
  - reflexivity.
  - vm_compute. reflexivity.
  - split; [reflexivity |]. split; reflexivity.
Qed.

(** ** The statements at concrete inputs *)

Module Witness.
Import Demo.

Definition plain : config_t := config_with no_hint NS_NO.
Definition dimming : config_t := config_with dim_hint NS_NO.

Definition after (quota : nat) (cfg : config_t) (inputs : list fds_input)
  (s0 : world) : world :=
  match boot quota cfg 2 inputs s0 with
  | Ok _ s => s
  | Halt _ => s0
  end.

(** Both remotes set up and connected, the master focused. *)
Definition connected : world :=
  Eval vm_compute in after 16 plain [all_ready 1000] (start_world [alpha; beta] []).

(** Both remotes set up, not yet ready. *)
Definition settingup : world :=
  Eval vm_compute in after 16 dimming [] (start_world [alpha; beta] []).

(** [alpha] focused. *)
Definition on_alpha : world :=
  Eval vm_compute in
    after 16 plain [all_ready 1000; quiet 2000 [hotkey_to (NT_REMOTE 0%nat)]]
          (start_world [alpha; beta] []).

(** The pointer has touched the right edge of the master's screen at 1000
    and left it at 51000; it is now 201000. *)
Definition tapped_once : world :=
  set_clock 201000
    (set_master_edgehist
       (dm_set RIGHT (EdgeState 2 [0; 1000; 51000; 0; 0; 0] EE_DEPART)
               (master_edgehist connected))
       connected).

Definition master_right : histref := HistRef None RIGHT.
End Witness.

Lemma edge_history_alternates_witness :
  record_edgeevent 6 Demo.no_history EE_DEPART 5 = (Demo.no_history, 1).
Proof.
  apply (proj1 (edge_history_alternates 6 16 Witness.plain Demo.center)).
  reflexivity.
Defined.

Lemma setclipboard_from_unconnected_ignored_witness :
  remotes Witness.settingup !! 0%nat <> None /\
  exists s',
    handle_message 6 16 Witness.dimming Demo.center 2 0%nat
                   (Message (MT_SETCLIPBOARD "stray") 0) Witness.settingup = Ok tt s' /\
    clipboard s' = "hello" /\ remotes s' = remotes Witness.settingup.
Proof.
  split; [vm_compute; discriminate |].
  destruct (setclipboard_from_unconnected_ignored 6 16 Witness.dimming Demo.center 2
              0%nat _ "stray" 0 Witness.settingup eq_refl)
    as [(s' & Hrun & Hclip & Hrem & _) _].
  - vm_compute. discriminate.
  - exists s'. split; [exact Hrun |]. split; [exact Hclip | exact Hrem].
Defined.

Lemma fail_remote_backoff_witness :
  handback_fits 16 Witness.plain 0%nat Witness.on_alpha /\
  exists s' r',
    fail_remote 16 Witness.plain Demo.center 1 0%nat "connection lost" Witness.on_alpha
    = Ok tt s' /\
    remotes s' !! 0%nat = Some r' /\
    focused_remote Witness.on_alpha = Some 0%nat /\
    state r' = CS_FAILED /\
    next_reconnect_time r' = 2000 + 500000.
Proof.
  assert (Hfit : handback_fits 16 Witness.plain 0%nat Witness.on_alpha).
  { intros _. vm_compute. lia. }
  split; [exact Hfit |].
  destruct (fail_remote_backoff 16 Demo.prot Witness.plain Demo.center 0 0%nat _
              "connection lost" Witness.on_alpha 1 eq_refl eq_refl)
    as [_ (s' & r' & Hrun & Hr' & _ & Hfailed & _)].
  - lia.
  - exact Hfit.
  - vm_compute. discriminate.
  - vm_compute. reflexivity.
  - exists s', r'. split; [exact Hrun |]. split; [exact Hr' |].
    split; [reflexivity |]. apply Hfailed. lia.
Defined.

Lemma run_scheduled_calls_pass_witness :
  (ReschedulingClient.get_calls
     (ReschedulingClient.put_calls [] ReschedulingClient.start) = []) /\
  exists fired s',
    Scheduler.run_scheduled_calls ReschedulingClient.get_calls
      ReschedulingClient.put_calls ReschedulingClient.invoke 3 10
      ReschedulingClient.start = Some (fired, s') /\
    Forall (fun c => calltime c <= 10) fired /\
    head_not_due 10 (ReschedulingClient.get_calls s').
Proof.
  split; [reflexivity |].
  eexists _, _. split; [vm_compute; reflexivity |].
  apply (proj1 (proj2 (run_scheduled_calls_pass _ _ _ ReschedulingClient.get_calls
                         ReschedulingClient.put_calls ReschedulingClient.invoke
                         (fun q s => eq_refl))) 3%nat 10 ReschedulingClient.start).
  vm_compute. reflexivity.
Defined.

Lemma clipboard_transfer_on_switch_witness :
  exists s',
    focus_node 16 Witness.plain Demo.center (fail_remote 16 Witness.plain Demo.center 2)
               (NT_REMOTE 0%nat) [] true Witness.connected = Ok 1 s' /\
    exists ext,
      focused_remote s' = Some 0%nat /\
      trace s' = trace Witness.connected ++ ext /\
      EvEnqueue 0%nat (new_message (MT_SETCLIPBOARD "hello")) ∈ ext.
Proof.
  eexists. split; [vm_compute; reflexivity |].
  match goal with
  | |- context [trace ?s'] =>
      destruct (clipboard_transfer_on_switch 16 Witness.plain Demo.center 2
                  (NT_REMOTE 0%nat) [] true Witness.connected s')
        as (_ & Hmaster & _)
  end.
  - vm_compute. reflexivity.
  - destruct (Hmaster eq_refl) as (b & ext & Hn & Hfoc & Htr & Hin).
    injection Hn as <-. exists ext. split; [exact Hfoc |]. split; [exact Htr | exact Hin].
Defined.

Lemma scheduled_queues_ordered_witness :
  reachable Demo.histlen 16 Demo.prot Witness.dimming Demo.center
            (Witness.after 16 Witness.dimming [Demo.all_ready 1000]
                           (Demo.start_world [Demo.alpha; Demo.beta] [])) /\
  exists r,
    remotes (Witness.after 16 Witness.dimming [Demo.all_ready 1000]
                           (Demo.start_world [Demo.alpha; Demo.beta] [])) !! 0%nat = Some r /\
    length (scheduled_messages r) = 6%nat /\
    time_ordered sendtime (scheduled_messages r).
Proof.
  assert (Hreach : reachable Demo.histlen 16 Demo.prot Witness.dimming Demo.center
                     (Witness.after 16 Witness.dimming [Demo.all_ready 1000]
                        (Demo.start_world [Demo.alpha; Demo.beta] []))).
  { eapply (boot_reachable 16 _ 2 [Demo.all_ready 1000]);
      [apply (demo_startup []) | vm_compute; reflexivity]. }
  split; [exact Hreach |].
  eexists. split; [vm_compute; reflexivity |]. split; [reflexivity |].
  apply (proj2 (proj1 (scheduled_queues_ordered Demo.histlen 16 Demo.prot
                         Witness.dimming Demo.center) _ Hreach) 0%nat).
  vm_compute. reflexivity.
Defined.

Lemma brightness_fade_schedule_witness :
  focus_hint Witness.dimming = FocusHint FH_DIM_INACTIVE brightness_0_3 300000 6 /\
  exists s' r',
    handle_message 6 16 Witness.dimming Demo.center 2 0%nat (new_message MT_READY)
                   Witness.settingup = Ok tt s' /\
    remotes s' !! 0%nat = Some r' /\
    map sendtime (scheduled_messages r') = [50000; 100000; 150000; 200000; 250000; 300000].
Proof.
  split; [reflexivity |].
  destruct (proj2 (proj2 (proj2 (proj2
              (brightness_fade_schedule 6 16 Witness.dimming Demo.center 2))))
              0%nat _ Witness.settingup eq_refl eq_refl eq_refl eq_refl)
    as (s' & r' & Hrun & Hr' & _ & Hq).
  - vm_compute. lia.
  - vm_compute. discriminate.
  - vm_compute. reflexivity.
  - exists s', r'. split; [exact Hrun |]. split; [exact Hr' |].
    rewrite Hq. reflexivity.
Defined.

(** * Further properties of main.c *)

(** ** The edge history as a ring buffer *)

(** A history as [record_edgeevent] keeps it: [event_times] has
    [EDGESTATE_HISTLEN] slots and [evidx] is the slot written last. *)
Definition hist_wf (histlen : Z) (es : edge_state) : Prop :=
  0 <= evidx es < histlen /\ length (event_times es) = Z.to_nat histlen.

Lemma rem_ring_step h e :
  0 <= e < h -> 0 <= (e + 1) `rem` h < h.
Proof. intros He. rewrite Z.rem_mod_nonneg by lia. apply Z.mod_pos_bound. lia. Qed.

Lemma rem_ring_back h e i :
  0 <= e < h -> 0 <= i < h ->
  0 <= (e - i + h) `rem` h < h /\
  ((e - i + h) `rem` h = e <-> i = 0).
Proof.
  intros He Hi. rewrite Z.rem_mod_nonneg by lia.
  split; [apply Z.mod_pos_bound; lia |].
  destruct (decide (i <= e)) as [Hle | Hgt].
  - replace (e - i + h) with (e - i + 1 * h) by lia.
    rewrite Z.mod_add by lia. rewrite Z.mod_small by lia. lia.
  - rewrite Z.mod_small by lia. lia.
Qed.

Lemma rem_ring_shift h e i :
  0 <= e < h -> 1 <= i < h ->
  ((e + 1) `rem` h - i + h) `rem` h = (e - (i - 1) + h) `rem` h.
Proof.
  intros He Hi.
  pose proof (rem_ring_step h e He) as Hs.
  rewrite (Z.rem_mod_nonneg (_ - i + h)) by lia.
  rewrite (Z.rem_mod_nonneg (e - (i - 1) + h)) by lia.
  rewrite (Z.rem_mod_nonneg (e + 1)) by lia.
  replace ((e + 1) mod h - i + h) with ((e + 1) mod h + (h - i)) by lia.
  rewrite Zplus_mod_idemp_l. f_equal. lia.
Qed.

Lemma record_edgeevent_wf histlen es ev when :
  hist_wf histlen es -> hist_wf histlen (record_edgeevent histlen es ev when).1.
Proof.
  intros [Hidx Hlen]. unfold record_edgeevent.
  destruct (decide (ev = last_evtype es)); [split; assumption |].
  unfold hist_wf. cbn [fst evidx event_times].
  split; [apply rem_ring_step; exact Hidx |].
  rewrite length_insert. exact Hlen.
Qed.

Lemma record_edgeevent_newest histlen es ev when :
  hist_wf histlen es -> ev <> last_evtype es ->
  get_edgehist_entry histlen (record_edgeevent histlen es ev when).1 0 = Some when.
Proof.
  intros [Hidx Hlen] Hne. unfold record_edgeevent.
  destruct (decide (ev = last_evtype es)); [contradiction |].
  unfold get_edgehist_entry. cbn [fst evidx event_times].
  pose proof (rem_ring_step histlen _ Hidx) as Hs.
  replace (0 <? histlen) with true by (symmetry; apply Z.ltb_lt; lia).
  cbn [andb Z.leb Z.compare].
  destruct (rem_ring_back histlen ((evidx es + 1) `rem` histlen) 0 Hs) as [_ Heq];
    [lia |].
  rewrite (proj2 Heq eq_refl).
  rewrite list_lookup_insert_eq by lia. reflexivity.
Qed.

Lemma record_edgeevent_older histlen es ev when i :
  hist_wf histlen es -> ev <> last_evtype es -> 1 <= i < histlen ->
  get_edgehist_entry histlen (record_edgeevent histlen es ev when).1 i
  = get_edgehist_entry histlen es (i - 1).
Proof.
  intros [Hidx Hlen] Hne Hi. unfold record_edgeevent.
  destruct (decide (ev = last_evtype es)); [contradiction |].
  unfold get_edgehist_entry. cbn [fst evidx event_times].
  pose proof (rem_ring_step histlen _ Hidx) as Hs.
  replace (i <? histlen) with true by (symmetry; apply Z.ltb_lt; lia).
  replace (i - 1 <? histlen) with true by (symmetry; apply Z.ltb_lt; lia).
  replace (0 <=? i) with true by (symmetry; apply Z.leb_le; lia).
  replace (0 <=? i - 1) with true by (symmetry; apply Z.leb_le; lia).
  cbn [andb].
  destruct (rem_ring_back histlen ((evidx es + 1) `rem` histlen) i Hs) as [Hb Heq];
    [lia |].
  rewrite list_lookup_insert_ne.
  - rewrite rem_ring_shift by lia. reflexivity.
  - intros Hbad. apply Z2Nat.inj in Hbad; [| lia | lia].
    symmetry in Hbad. apply Heq in Hbad. lia.
Qed.

Lemma record_all_wf histlen es evs :
  hist_wf histlen es -> hist_wf histlen (record_all histlen es evs).1.
Proof.
  revert es. induction evs as [| [ev when] evs IH]; intros es Hwf; simpl; [exact Hwf |].
  pose proof (record_edgeevent_wf histlen es ev when Hwf) as Hwf1.
  destruct (record_edgeevent histlen es ev when) as [es1 status]. simpl in Hwf1.
  specialize (IH es1 Hwf1).
  destruct (record_all histlen es1 evs) as [es2 recorded]. exact IH.
Qed.

(** Entry [i] of the history after a run of events: the time of the [i]-th
    most recent event recorded in the run, or, beyond the run, the entry
    that was that much more recent before it. *)
Lemma record_all_entry histlen es evs i :
  hist_wf histlen es -> 0 <= i < histlen ->
  get_edgehist_entry histlen (record_all histlen es evs).1 i
  = match reverse (record_all histlen es evs).2 !! Z.to_nat i with
    | Some (_, t) => Some t
    | None =>
        get_edgehist_entry histlen es
          (i - Z.of_nat (length (record_all histlen es evs).2))
    end.
Proof.
  revert es. induction evs as [| [ev when] evs IH]; intros es Hwf Hi.
  - simpl. rewrite Z.sub_0_r. reflexivity.
  - simpl.
    pose proof (record_edgeevent_wf histlen es ev when Hwf) as Hwf1.
    pose proof (record_edgeevent_newest histlen es ev when Hwf) as Hnew.
    pose proof (fun j => record_edgeevent_older histlen es ev when j Hwf) as Hold.
    unfold record_edgeevent in *.
    destruct (decide (ev = last_evtype es)) as [Heq | Hne].
    + simpl in *. specialize (IH es Hwf Hi).
      destruct (record_all histlen es evs) as [es2 recorded]. exact IH.
    + cbn [fst] in Hwf1, Hnew, Hold. set (es1 := EdgeState _ _ ev) in *.
      specialize (IH es1 Hwf1 Hi).
      destruct (record_all histlen es1 evs) as [es2 recorded].
      cbn [fst snd] in *. change (0 =? 0) with true. cbn iota.
      rewrite IH. rewrite reverse_cons.
      destruct (reverse recorded !! Z.to_nat i) as [[e t] |] eqn:Hlk.
      * rewrite lookup_app_l by (apply lookup_lt_Some in Hlk; exact Hlk).
        rewrite Hlk. reflexivity.
      * apply lookup_ge_None in Hlk. rewrite length_reverse in Hlk.
        rewrite lookup_app_r by (rewrite length_reverse; exact Hlk).
        rewrite length_reverse. cbn [length].
        destruct (decide (Z.to_nat i = length recorded)) as [Hlast | Hmore].
        -- rewrite Hlast, Nat.sub_diag. simpl.
           replace (i - Z.of_nat (length recorded)) with 0 by lia.
           apply Hnew. exact Hne.
        -- replace (Z.to_nat i - length recorded)%nat
             with (S (Z.to_nat i - length recorded - 1)) by lia.
           simpl. rewrite Hold by (try exact Hne; lia).
           f_equal. lia.
Qed.

(** X1.  The edge history is a ring buffer of the last [EDGESTATE_HISTLEN]
    recorded events: after any run of edge events, entry [i] is the time of
    the [i]-th most recent event recorded in the run, and an entry beyond
    the events of the run is the entry that was [n] positions more recent
    before the run, [n] being the number of events recorded. *)
Theorem edge_history_ring :
  forall histlen es evs,
    hist_wf histlen es ->
    let es' := (record_all histlen es evs).1 in
    let recorded := (record_all histlen es evs).2 in
    hist_wf histlen es' /\
    (forall i ev t,
        0 <= i < histlen ->
        reverse recorded !! Z.to_nat i = Some (ev, t) ->
        get_edgehist_entry histlen es' i = Some t) /\
    (forall i,
        Z.of_nat (length recorded) <= i < histlen ->
        get_edgehist_entry histlen es' i
        = get_edgehist_entry histlen es (i - Z.of_nat (length recorded))).
Proof.
  intros histlen es evs Hwf es' recorded. subst es' recorded.
  split; [apply record_all_wf; exact Hwf |]. split.
  - intros i ev t Hi Hlk. rewrite record_all_entry by assumption.
    rewrite Hlk. reflexivity.
  - intros i Hi. rewrite record_all_entry by (try assumption; lia).
    rewrite (proj2 (lookup_ge_None _ _)); [reflexivity |].
    rewrite length_reverse. lia.
Qed.

Lemma edge_history_ring_witness :
  hist_wf 6 Demo.no_history /\
  get_edgehist_entry 6
    (record_all 6 Demo.no_history
       [(EE_ARRIVE, 10); (EE_ARRIVE, 15); (EE_DEPART, 20); (EE_ARRIVE, 30)]).1 2
  = Some 10.
Proof.
  assert (Hwf : hist_wf 6 Demo.no_history) by (split; [simpl; lia | reflexivity]).
  split; [exact Hwf |].
  apply (proj1 (proj2 (edge_history_ring 6 Demo.no_history
                         [(EE_ARRIVE, 10); (EE_ARRIVE, 15); (EE_DEPART, 20);
                          (EE_ARRIVE, 30)] Hwf)) 2 EE_ARRIVE 10).
  - lia.
  - reflexivity.
Defined.

(** ** Edge events that do not switch the focus *)

(** [trigger_edgeevent] on an event that is recorded: what follows the
    recording, run in the state with the new history. *)
Lemma trigger_edgeevent_recorded histlen quota cfg center fuel h dir ev x y s :
  hist_valid h s ->
  ev <> last_evtype (get_hist h s) ->
  let es' := (record_edgeevent histlen (get_hist h s) ev (clock s)).1 in
  trigger_edgeevent histlen quota cfg center fuel h dir ev x y s
  = (if bool_decide (ms_type (mouseswitch cfg) = MS_MULTITAP /\ ev = EE_ARRIVE) then
       match get_edgehist_entry histlen es' ((ms_num (mouseswitch cfg) - 1) * 2) with
       | None => halt_with AssertFailed
       | Some t =>
           if sub64 (clock s) t <? ms_window (mouseswitch cfg) then
             let* modkeys := get_current_modifiers in
             let* switched := focus_neighbor quota cfg center fuel dir modkeys false in
             (if negb (switched =? 0)
              then edgeswitch_reposition quota cfg center fuel dir x y
              else ret tt) >>
             ret 0
           else ret 0
       end
     else ret 0) (put_hist h es' s).
Proof.
  intros Hvalid Hne es'. subst es'.
  unfold trigger_edgeevent.
  unfold bind at 1. unfold get_microtime at 1, gets at 1.
  unfold bind at 1. unfold gets at 1.
  destruct (record_edgeevent_fresh histlen (get_hist h s) ev (clock s) Hne)
    as (es' & Hrec & _).
  rewrite Hrec. cbn [fst].
  unfold bind at 1. unfold modify at 1.
  change (negb (0 =? 0)) with false. cbv beta iota.
  destruct (bool_decide (ms_type (mouseswitch cfg) = MS_MULTITAP /\ ev = EE_ARRIVE));
    [| reflexivity].
  unfold bind at 1. unfold gets at 1.
  rewrite (get_hist_put_hist h es' s Hvalid). reflexivity.
Qed.

(** X2.  An edge event that is recorded changes nothing but the history
    and moves no focus when the mouse switch is not MULTITAP, when the
    event is a DEPART, or when the entry [(N-1)*2] back is not less than
    the window before now. *)
Theorem edge_event_without_switch :
  forall histlen quota cfg center fuel h dir ev x y s,
    hist_valid h s ->
    ev <> last_evtype (get_hist h s) ->
    let es' := (record_edgeevent histlen (get_hist h s) ev (clock s)).1 in
    (ms_type (mouseswitch cfg) <> MS_MULTITAP \/
     ev = EE_DEPART \/
     exists ts,
       get_edgehist_entry histlen es' ((ms_num (mouseswitch cfg) - 1) * 2) = Some ts /\
       ms_window (mouseswitch cfg) <= sub64 (clock s) ts) ->
    trigger_edgeevent histlen quota cfg center fuel h dir ev x y s
    = Ok 0 (put_hist h es' s).
Proof.
  intros histlen quota cfg center fuel h dir ev x y s Hvalid Hne es' Hcase.
  rewrite trigger_edgeevent_recorded by assumption. fold es'.
  destruct Hcase as [Hms | [Hev | (ts & Hentry & Hwin)]].
  - rewrite bool_decide_eq_false_2 by (intros [? _]; contradiction). reflexivity.
  - rewrite bool_decide_eq_false_2 by (intros [_ ?]; congruence). reflexivity.
  - destruct (bool_decide _); [| reflexivity].
    rewrite Hentry.
    replace (sub64 (clock s) ts <? ms_window (mouseswitch cfg)) with false
      by (symmetry; apply Z.ltb_ge; exact Hwin).
    reflexivity.
Qed.

Lemma edge_event_without_switch_witness :
  trigger_edgeevent 6 16 Witness.plain Demo.center 2 Witness.master_right RIGHT
                    EE_ARRIVE F32.zero F32.zero (set_clock 900000 Witness.tapped_once)
  = Ok 0 (put_hist Witness.master_right
            (EdgeState 3 [0; 1000; 51000; 900000; 0; 0] EE_ARRIVE)
            (set_clock 900000 Witness.tapped_once)).
Proof.
  apply (edge_event_without_switch 6 16 Witness.plain Demo.center 2
           Witness.master_right RIGHT EE_ARRIVE F32.zero F32.zero
           (set_clock 900000 Witness.tapped_once)).
  - exact I.
  - vm_compute. discriminate.
  - right. right. exists 1000. split; [reflexivity | vm_compute; discriminate].
Defined.

(** X3.  With MULTITAP, a tap count [N] for which [(N-1)*2] is not an
    index of the history makes the assertion of [get_edgehist_entry] fail
    on the first ARRIVE that is recorded. *)
Theorem multitap_count_outside_history :
  forall histlen quota cfg center fuel h dir x y s,
    hist_valid h s ->
    last_evtype (get_hist h s) <> EE_ARRIVE ->
    ms_type (mouseswitch cfg) = MS_MULTITAP ->
    ~ (0 <= (ms_num (mouseswitch cfg) - 1) * 2 < histlen) ->
    trigger_edgeevent histlen quota cfg center fuel h dir EE_ARRIVE x y s
    = Halt AssertFailed.
Proof.
  intros histlen quota cfg center fuel h dir x y s Hvalid Hne Hms Hidx.
  rewrite trigger_edgeevent_recorded by (try assumption; congruence).
  rewrite bool_decide_eq_true_2 by (split; [exact Hms | reflexivity]).
  unfold get_edgehist_entry.
  destruct ((ms_num (mouseswitch cfg) - 1) * 2 <? histlen) eqn:Hlt;
    destruct (0 <=? (ms_num (mouseswitch cfg) - 1) * 2) eqn:Hle;
    try reflexivity.
  apply Z.ltb_lt in Hlt. apply Z.leb_le in Hle. lia.
Qed.

Lemma multitap_count_outside_history_witness :
  trigger_edgeevent 2 16 Witness.plain Demo.center 2 Witness.master_right RIGHT
                    EE_ARRIVE F32.zero F32.zero Witness.tapped_once
  = Halt AssertFailed.
Proof.
  apply (multitap_count_outside_history 2 16 Witness.plain Demo.center 2
           Witness.master_right RIGHT F32.zero F32.zero Witness.tapped_once).
  - exact I.
  - vm_compute. discriminate.
  - reflexivity.
  - vm_compute. intros [_ H]. discriminate H.
Defined.

(** ** Messages that fit the backlog *)

(** The state after [mc_enqueue_message] has added [msg] to the channel of
    [rmt]. *)
Definition delivered (rmt : rid) (msg : message) (s : world) : world :=
  match remotes s !! rmt with
  | Some r =>
      emit (EvEnqueue rmt msg)
           (alter_remote
              (set_chan (MsgChan (mc_open (chan r)) (sendqueue (chan r) ++ [msg])))
              rmt s)
  | None => s
  end.

Definition delivered_all (rmt : rid) (msgs : list message) (s : world) : world :=
  fold_left (fun s m => delivered rmt m s) msgs s.

(** [r] with [msgs] added to its channel. *)
Definition with_queued (msgs : list message) (r : remote) : remote :=
  set_chan (MsgChan (mc_open (chan r)) (sendqueue (chan r) ++ msgs)) r.

Lemma enqueue_message_room quota rec rmt msg r s :
  remotes s !! rmt = Some r ->
  (length (sendqueue (chan r)) < quota)%nat ->
  enqueue_message quota rec rmt msg s = Ok tt (delivered rmt msg s).
Proof.
  intros Hr Hlen. unfold enqueue_message, bind, mc_enqueue, delivered.
  rewrite Hr. simpl.
  rewrite bool_decide_eq_false_2 by (rewrite length_app; simpl; lia).
  reflexivity.
Qed.

Lemma enqueue_message_full quota rec rmt msg r s :
  remotes s !! rmt = Some r ->
  (quota <= length (sendqueue (chan r)))%nat ->
  enqueue_message quota rec rmt msg s
  = rec rmt "send backlog exceeded" (delivered rmt msg s).
Proof.
  intros Hr Hlen. unfold enqueue_message, bind, mc_enqueue, delivered.
  rewrite Hr. simpl.
  rewrite bool_decide_eq_true_2 by (rewrite length_app; simpl; lia).
  reflexivity.
Qed.

Lemma delivered_lookup rmt msg r s :
  remotes s !! rmt = Some r ->
  remotes (delivered rmt msg s) !! rmt = Some (with_queued [msg] r).
Proof.
  intros Hr. unfold delivered. rewrite Hr. simpl.
  rewrite list_lookup_alter_eq, Hr. reflexivity.
Qed.

Lemma delivered_lookup_ne rmt msg c s :
  c <> rmt -> remotes (delivered rmt msg s) !! c = remotes s !! c.
Proof.
  intros Hne. unfold delivered. destruct (remotes s !! rmt); [| reflexivity].
  simpl. apply list_lookup_alter_ne. congruence.
Qed.

Lemma delivered_trace rmt msg r s :
  remotes s !! rmt = Some r ->
  trace (delivered rmt msg s) = trace s ++ [EvEnqueue rmt msg].
Proof. intros Hr. unfold delivered. rewrite Hr. reflexivity. Qed.

Lemma with_queued_app msgs1 msgs2 r :
  with_queued msgs2 (with_queued msgs1 r) = with_queued (msgs1 ++ msgs2) r.
Proof. unfold with_queued. simpl. rewrite app_assoc. reflexivity. Qed.

Lemma with_queued_nil r : with_queued [] r = r.
Proof.
  unfold with_queued. rewrite app_nil_r. destruct r as [? ? ? ? ? ? ? [] ? ?].
  reflexivity.
Qed.

Lemma delivered_all_lookup rmt msgs r s :
  remotes s !! rmt = Some r ->
  remotes (delivered_all rmt msgs s) !! rmt = Some (with_queued msgs r).
Proof.
  revert r s. induction msgs as [| m msgs IH]; intros r s Hr; simpl.
  - rewrite Hr, with_queued_nil. reflexivity.
  - rewrite (IH _ _ (delivered_lookup rmt m r s Hr)).
    rewrite with_queued_app. reflexivity.
Qed.

Lemma delivered_all_lookup_ne rmt msgs c s :
  c <> rmt -> remotes (delivered_all rmt msgs s) !! c = remotes s !! c.
Proof.
  intros Hne. revert s. induction msgs as [| m msgs IH]; intros s; simpl;
    [reflexivity |].
  rewrite IH. apply delivered_lookup_ne. exact Hne.
Qed.

Lemma delivered_all_trace rmt msgs r s :
  remotes s !! rmt = Some r ->
  trace (delivered_all rmt msgs s) = trace s ++ map (EvEnqueue rmt) msgs.
Proof.
  revert r s. induction msgs as [| m msgs IH]; intros r s Hr; simpl.
  - rewrite app_nil_r. reflexivity.
  - rewrite (IH _ _ (delivered_lookup rmt m r s Hr)).
    rewrite (delivered_trace rmt m r s Hr), <- app_assoc. reflexivity.
Qed.

(** What adding messages to channels leaves alone. *)
Definition same_but_remotes_and_trace (s s' : world) : Prop :=
  focused_remote s' = focused_remote s /\
  scheduled_calls s' = scheduled_calls s /\
  saved_master_mousepos s' = saved_master_mousepos s /\
  master_edgehist s' = master_edgehist s /\
  clock s' = clock s /\ next_pid s' = next_pid s /\
  mousepos s' = mousepos s /\ clipboard s' = clipboard s /\
  held_modifiers s' = held_modifiers s /\
  length (remotes s') = length (remotes s).

Lemma same_refl s : same_but_remotes_and_trace s s.
Proof. repeat split. Qed.

Lemma same_trans s1 s2 s3 :
  same_but_remotes_and_trace s1 s2 -> same_but_remotes_and_trace s2 s3 ->
  same_but_remotes_and_trace s1 s3.
Proof.
  unfold same_but_remotes_and_trace. intros H1 H2.
  repeat match goal with H : _ /\ _ |- _ => destruct H end.
  repeat split; congruence.
Qed.

Lemma delivered_same rmt msg s : same_but_remotes_and_trace s (delivered rmt msg s).
Proof.
  unfold delivered. destruct (remotes s !! rmt); [| apply same_refl].
  repeat split. simpl. apply length_alter.
Qed.

Lemma delivered_all_same rmt msgs s :
  same_but_remotes_and_trace s (delivered_all rmt msgs s).
Proof.
  revert s. induction msgs as [| m msgs IH]; intros s; simpl; [apply same_refl |].
  eapply same_trans; [apply delivered_same | apply IH].
Qed.

(** A run of messages to one remote, all within the backlog quota. *)
Lemma for_each_enqueue_room {X} quota rec rmt (g : X -> message) (l : list X) r s :
  remotes s !! rmt = Some r ->
  (length (sendqueue (chan r)) + length l <= quota)%nat ->
  for_each l (fun x => enqueue_message quota rec rmt (g x)) s
  = Ok tt (delivered_all rmt (map g l) s).
Proof.
  revert r s. induction l as [| x l IH]; intros r s Hr Hlen; simpl in *;
    [reflexivity |].
  unfold bind. rewrite (enqueue_message_room quota rec rmt (g x) r s Hr) by lia.
  apply (IH _ _ (delivered_lookup rmt (g x) r s Hr)).
  unfold with_queued. simpl. rewrite length_app. simpl. lia.
Qed.

(** ** Transfer of the held modifiers *)

Definition modifier_messages (pr : pressrel_t) (keys : list Z) : list message :=
  map (fun k => new_message (MT_KEYEVENT k pr)) keys.

Definition delivered_to (node : option rid) (msgs : list message) (s : world) : world :=
  match node with
  | Some r => delivered_all r msgs s
  | None => s
  end.

(** The channel of [node], if it is a remote, takes [n] more messages. *)
Definition has_room (quota : nat) (node : option rid) (n : nat) (s : world) : Prop :=
  forall rmt, node = Some rmt ->
              exists r, remotes s !! rmt = Some r /\
                        (length (sendqueue (chan r)) + n <= quota)%nat.

(** X4.  [transfer_modifiers] sends a release of every held modifier, in
    order, to the remote that loses the focus and then a press of every
    one of them to the remote that gains it; the master on either side gets
    nothing, and nothing but the two channels and the trace changes. *)
Theorem modifiers_follow_the_focus :
  forall quota rec from to keys s,
    from <> to ->
    has_room quota from (length keys) s ->
    has_room quota to (length keys) s ->
    let s' := delivered_to to (modifier_messages PR_PRESS keys)
                (delivered_to from (modifier_messages PR_RELEASE keys) s) in
    transfer_modifiers quota rec from to keys s = Ok tt s' /\
    (forall a ra, from = Some a -> remotes s !! a = Some ra ->
                  remotes s' !! a
                  = Some (with_queued (modifier_messages PR_RELEASE keys) ra)) /\
    (forall b rb, to = Some b -> remotes s !! b = Some rb ->
                  remotes s' !! b
                  = Some (with_queued (modifier_messages PR_PRESS keys) rb)) /\
    (forall c, from <> Some c -> to <> Some c -> remotes s' !! c = remotes s !! c) /\
    same_but_remotes_and_trace s s'.
Proof.
  intros quota rec from to keys s Hne Hfrom Hto s'. subst s'.
  unfold transfer_modifiers, bind, modifier_messages.
  destruct from as [a |], to as [b |]; simpl.
  - destruct (Hfrom a eq_refl) as (ra & Hra & Hlena).
    destruct (Hto b eq_refl) as (rb & Hrb & Hlenb).
    assert (Hab : b <> a) by congruence.
    rewrite (for_each_enqueue_room quota rec a _ keys ra s Hra Hlena).
    assert (Hrb' : remotes (delivered_all a
                              (map (fun k => new_message (MT_KEYEVENT k PR_RELEASE)) keys) s)
                   !! b = Some rb)
      by (rewrite delivered_all_lookup_ne by exact Hab; exact Hrb).
    rewrite (for_each_enqueue_room quota rec b _ keys rb _ Hrb' Hlenb).
    split; [reflexivity |]. split; [| split; [| split]].
    + intros a' ra' [= <-] Hra'. rewrite delivered_all_lookup_ne by congruence.
      rewrite (delivered_all_lookup a _ ra s Hra). congruence.
    + intros b' rb' [= <-] Hrb''. rewrite (delivered_all_lookup b _ rb _ Hrb').
      congruence.
    + intros c Hca Hcb. rewrite !delivered_all_lookup_ne by congruence. reflexivity.
    + eapply same_trans; apply delivered_all_same.
  - destruct (Hfrom a eq_refl) as (ra & Hra & Hlena).
    rewrite (for_each_enqueue_room quota rec a _ keys ra s Hra Hlena).
    split; [reflexivity |]. split; [| split; [| split]].
    + intros a' ra' [= <-] Hra'. rewrite (delivered_all_lookup a _ ra s Hra). congruence.
    + intros b rb Hb. discriminate.
    + intros c Hca _. rewrite delivered_all_lookup_ne by congruence. reflexivity.
    + apply delivered_all_same.
  - destruct (Hto b eq_refl) as (rb & Hrb & Hlenb).
    rewrite (for_each_enqueue_room quota rec b _ keys rb s Hrb Hlenb).
    split; [reflexivity |]. split; [| split; [| split]].
    + intros a ra Ha. discriminate.
    + intros b' rb' [= <-] Hrb'. rewrite (delivered_all_lookup b _ rb s Hrb). congruence.
    + intros c _ Hcb. rewrite delivered_all_lookup_ne by congruence. reflexivity.
    + apply delivered_all_same.
  - contradiction.
Qed.

Lemma modifiers_follow_the_focus_witness :
  exists s',
    transfer_modifiers 16 (fail_remote 16 Witness.plain Demo.center 2)
                       (Some 0%nat) (Some 1%nat) [Demo.SHIFT; 37] Witness.connected
    = Ok tt s' /\
    (sendqueue ∘ chan) <$> remotes s' !! 1%nat
    = Some [new_message (MT_SETUP Demo.prot []);
            new_message (MT_KEYEVENT Demo.SHIFT PR_PRESS);
            new_message (MT_KEYEVENT 37 PR_PRESS)].
Proof.
  eexists. split.
  - apply (modifiers_follow_the_focus 16 (fail_remote 16 Witness.plain Demo.center 2)
             (Some 0%nat) (Some 1%nat) [Demo.SHIFT; 37] Witness.connected).
    + discriminate.
    + intros rmt [= <-]. eexists. split; [reflexivity | simpl; lia].
    + intros rmt [= <-]. eexists. split; [reflexivity | simpl; lia].
  - reflexivity.
Defined.

(** ** Scheduled messages that fall due *)

(** The messages at the head of a scheduled-message queue whose send time
    has come, and the queue behind them. *)
Fixpoint due_messages (when : Z) (q : list message) : list message :=
  match q with
  | m :: rest => if sendtime m <=? when then m :: due_messages when rest else []
  | [] => []
  end.

Fixpoint later_messages (when : Z) (q : list message) : list message :=
  match q with
  | m :: rest => if sendtime m <=? when then later_messages when rest else m :: rest
  | [] => []
  end.

Lemma due_later_messages when q : due_messages when q ++ later_messages when q = q.
Proof.
  induction q as [| m q IH]; simpl; [reflexivity |].
  destruct (sendtime m <=? when); simpl; [rewrite IH |]; reflexivity.
Qed.

Lemma same_alter_remote f rmt s : same_but_remotes_and_trace s (alter_remote f rmt s).
Proof. repeat split. simpl. apply length_alter. Qed.

Lemma enqueue_scheduled_messages_room quota cfg center fuel n rmt when r s :
  remotes s !! rmt = Some r ->
  (length (sendqueue (chan r)) + length (due_messages when (scheduled_messages r))
   <= quota)%nat ->
  (length (due_messages when (scheduled_messages r)) < n)%nat ->
  exists s',
    enqueue_scheduled_messages quota cfg center fuel n rmt when s = Ok tt s' /\
    remotes s' !! rmt
    = Some (set_scheduled_messages (later_messages when (scheduled_messages r))
              (with_queued (due_messages when (scheduled_messages r)) r)) /\
    (forall c, c <> rmt -> remotes s' !! c = remotes s !! c) /\
    trace s' = trace s ++ map (EvEnqueue rmt) (due_messages when (scheduled_messages r)) /\
    same_but_remotes_and_trace s s'.
Proof.
  intros Hr.
  remember (scheduled_messages r) as q eqn:Hq.
  revert n r s Hr Hq. induction q as [| m q IH]; intros n r s Hr Hq Hroom Hn.
  - destruct n as [| n]; [simpl in Hn; lia |].
    exists s. cbn [enqueue_scheduled_messages due_messages later_messages].
    unfold bind, remote_field, gets. rewrite Hr. cbn [from_option].
    rewrite <- Hq. split; [reflexivity |]. split; [| split; [| split]].
    + f_equal. rewrite with_queued_nil, Hq. destruct r; reflexivity.
    + reflexivity.
    + simpl. rewrite app_nil_r. reflexivity.
    + apply same_refl.
  - destruct n as [| n]; [lia |].
    cbn [enqueue_scheduled_messages due_messages later_messages] in *.
    unfold bind at 1. unfold remote_field at 1, gets at 1. rewrite Hr. cbn [from_option].
    rewrite <- Hq.
    destruct (sendtime m <=? when) eqn:Hdue.
    + cbn [length] in Hroom, Hn.
      set (s1 := alter_remote (set_scheduled_messages q) rmt s).
      assert (Hr1 : remotes s1 !! rmt = Some (set_scheduled_messages q r))
        by (subst s1; simpl; rewrite list_lookup_alter_eq, Hr; reflexivity).
      unfold bind at 1. unfold bind at 1. unfold modify at 1. fold s1.
      rewrite (enqueue_message_room quota _ rmt m _ s1 Hr1) by (simpl; lia).
      pose proof (delivered_lookup rmt m _ s1 Hr1) as Hr2.
      destruct (IH n _ _ Hr2 eq_refl) as (s' & Hrun & Hrmt & Hother & Htr & Hsame).
      { unfold with_queued. simpl. rewrite length_app. simpl. lia. }
      { lia. }
      exists s'. split; [exact Hrun |]. split; [| split; [| split]].
      * rewrite Hrmt. f_equal. unfold with_queued. simpl.
        rewrite <- app_assoc. reflexivity.
      * intros c Hc. rewrite (Hother c Hc), delivered_lookup_ne by exact Hc.
        subst s1. simpl. apply list_lookup_alter_ne. congruence.
      * rewrite Htr, (delivered_trace rmt m _ s1 Hr1). subst s1. simpl.
        rewrite <- app_assoc. reflexivity.
      * eapply same_trans; [| exact Hsame].
        eapply same_trans;
          [apply (same_alter_remote (set_scheduled_messages q) rmt s)
          | apply delivered_same].
    + exists s. split; [reflexivity |]. split; [| split; [| split]].
      * rewrite Hr. f_equal. rewrite with_queued_nil, Hq. destruct r; reflexivity.
      * reflexivity.
      * simpl. rewrite app_nil_r. reflexivity.
      * apply same_refl.
Qed.

(** X5.  [enqueue_scheduled_messages] moves the scheduled messages of a
    remote whose send time has come, up to the first one that is still in
    the future, to the remote's channel, in queue order, and leaves the
    rest scheduled; nothing else changes.  The messages have to fit the
    backlog. *)
Theorem scheduled_messages_delivered_when_due :
  forall quota cfg center fuel n rmt when r s,
    remotes s !! rmt = Some r ->
    let due := due_messages when (scheduled_messages r) in
    let later := later_messages when (scheduled_messages r) in
    (length (sendqueue (chan r)) + length due <= quota)%nat ->
    (length due < n)%nat ->
    due ++ later = scheduled_messages r /\
    exists s',
      enqueue_scheduled_messages quota cfg center fuel n rmt when s = Ok tt s' /\
      remotes s' !! rmt = Some (set_scheduled_messages later (with_queued due r)) /\
      (forall c, c <> rmt -> remotes s' !! c = remotes s !! c) /\
      trace s' = trace s ++ map (EvEnqueue rmt) due /\
      same_but_remotes_and_trace s s'.
Proof.
  intros quota cfg center fuel n rmt when r s Hr due later Hroom Hn.
  split; [apply due_later_messages |].
  apply enqueue_scheduled_messages_room; assumption.
Qed.

(** States for the examples that follow. *)
Module Sample.
(** Both remotes connected under DIM_INACTIVE: each holds the six scheduled
    brightness messages of its fade, the first of them due at 51000. *)
Definition dimmed : world :=
  Eval vm_compute in
    Witness.after 16 Witness.dimming [Demo.all_ready 1000]
                  (Demo.start_world [Demo.alpha; Demo.beta] []).

(** [alpha] has failed and waits for its reconnect time, 500000. *)
Definition waiting : world :=
  Eval vm_compute in
    alter_remote (fun r => set_next_reconnect_time 500000 (set_state CS_FAILED r))
                 0%nat Witness.connected.
End Sample.

Lemma scheduled_messages_delivered_when_due_witness :
  exists s',
    enqueue_scheduled_messages 16 Witness.dimming Demo.center 2 7 0%nat 101000
                               Sample.dimmed = Ok tt s' /\
    (fun r => (length (sendqueue (chan r)), length (scheduled_messages r)))
      <$> remotes s' !! 0%nat = Some (4%nat, 4%nat).
Proof.
  destruct (scheduled_messages_delivered_when_due 16 Witness.dimming Demo.center 2 7
              0%nat 101000 _ Sample.dimmed eq_refl)
    as (_ & s' & Hrun & Hrmt & _).
  - vm_compute. lia.
  - vm_compute. lia.
  - exists s'. split; [exact Hrun |]. rewrite Hrmt. reflexivity.
Defined.

(** ** The clipboard of a connected remote *)

(** The text of a buffer is a prefix of it that holds no NUL and that a
    NUL or the end of the buffer follows. *)
Lemma c_string_prefix buf :
  exists rest, buf = c_string buf +:+ rest /\
               (rest = EmptyString \/ exists rest', rest = String Ascii.zero rest').
Proof.
  induction buf as [| c buf (rest & IH & Hrest)]; simpl.
  - exists EmptyString. auto.
  - destruct (Ascii.eqb_spec c Ascii.zero) as [-> | Hne].
    + exists (String Ascii.zero buf). split; [reflexivity |]. right. eauto.
    + exists rest. split; [| exact Hrest].
      change (String c buf = String c (c_string buf +:+ rest)). f_equal. exact IH.
Qed.

Lemma c_string_no_nul buf i : String.get i (c_string buf) <> Some Ascii.zero.
Proof.
  revert i. induction buf as [| c buf IH]; intros i; simpl.
  - destruct i; discriminate.
  - destruct (Ascii.eqb_spec c Ascii.zero) as [-> | Hne]; [destruct i; discriminate |].
    destruct i as [| i]; simpl; [congruence | apply IH].
Qed.

(** X6.  A SETCLIPBOARD message from a CONNECTED remote hands its buffer to
    the platform.  The text that is the local clipboard afterwards is the
    part of the buffer before its first NUL byte (all of it when it holds
    none); if a remote has the focus, that text is sent on to it at once,
    also when it is the very remote the message came from. *)
Theorem clipboard_from_remote_forwarded :
  forall histlen quota cfg center fuel rmt r buf t s,
    remotes s !! rmt = Some r ->
    state r = CS_CONNECTED ->
    let text := c_string buf in
    let s1 := emit (EvSetClipboard buf) (set_clipboard text s) in
    (exists rest, buf = text +:+ rest /\
                  (rest = EmptyString \/ exists rest', rest = String Ascii.zero rest')) /\
    (forall i, String.get i text <> Some Ascii.zero) /\
    clipboard s1 = text /\
    (focused_remote s = None ->
     handle_message histlen quota cfg center fuel rmt
                    (Message (MT_SETCLIPBOARD buf) t) s = Ok tt s1) /\
    (forall f rf,
        focused_remote s = Some f ->
        remotes s !! f = Some rf ->
        (length (sendqueue (chan rf)) < quota)%nat ->
        handle_message histlen quota cfg center fuel rmt
                       (Message (MT_SETCLIPBOARD buf) t) s
        = Ok tt (delivered f (new_message (MT_SETCLIPBOARD text)) s1)).
Proof.
  intros histlen quota cfg center fuel rmt r buf t s Hr Hst text s1. subst text s1.
  split; [apply c_string_prefix |].
  split; [intros i; apply c_string_no_nul |].
  split; [reflexivity |].
  assert (Hhead : handle_message histlen quota cfg center fuel rmt
                    (Message (MT_SETCLIPBOARD buf) t) s
                  = (let* focused := gets focused_remote in
                     match focused with
                     | Some f =>
                         let* text := get_clipboard_text in
                         enqueue_message quota (fail_remote quota cfg center fuel) f
                                         (new_message (MT_SETCLIPBOARD text))
                     | None => ret tt
                     end) (emit (EvSetClipboard buf) (set_clipboard (c_string buf) s))).
  { unfold handle_message. cbn [body].
    unfold bind at 1. unfold remote_field at 1, gets at 1. rewrite Hr. cbn [from_option].
    rewrite Hst.
    destruct (decide (Some CS_CONNECTED = Some CS_CONNECTED)); [| congruence].
    reflexivity. }
  rewrite Hhead. split.
  - intros Hfoc. unfold bind, gets. simpl. rewrite Hfoc. reflexivity.
  - intros f rf Hfoc Hf Hlen. unfold bind, gets, get_clipboard_text. simpl.
    rewrite Hfoc. simpl.
    apply (enqueue_message_room quota _ f _ rf); [exact Hf | exact Hlen].
Qed.

Lemma clipboard_from_remote_forwarded_witness :
  exists s',
    handle_message 6 16 Witness.plain Demo.center 2 0%nat
                   (Message (MT_SETCLIPBOARD ("copied" +:+ String Ascii.zero "rest")) 0)
                   Witness.on_alpha = Ok tt s' /\
    clipboard s' = "copied" /\
    last (trace s') = Some (EvEnqueue 0%nat (new_message (MT_SETCLIPBOARD "copied"))).
Proof.
  eexists. split.
  - apply (proj2 (proj2 (proj2 (proj2
             (clipboard_from_remote_forwarded 6 16 Witness.plain Demo.center
                2 0%nat _ ("copied" +:+ String Ascii.zero "rest") 0 Witness.on_alpha
                eq_refl eq_refl))))
             0%nat _ eq_refl eq_refl).
    vm_compute. lia.
  - split; reflexivity.
Defined.

(** ** Edge masks from a remote *)

Lemma land_outside_alldirs z :
  0 <= z -> (Z.land z (Z.lnot ALLDIRS_MASK) =? 0) = (z <? 16).
Proof.
  intros Hz. unfold ALLDIRS_MASK.
  change 15 with (Z.ones 4).
  rewrite <- Z.ldiff_land, Z.ldiff_ones_r by lia.
  rewrite Z.shiftr_div_pow2, Z.shiftl_mul_pow2 by lia.
  change (2 ^ 4) with 16.
  destruct (z <? 16) eqn:Hlt.
  - apply Z.ltb_lt in Hlt. rewrite Z.div_small by lia. reflexivity.
  - apply Z.ltb_ge in Hlt. apply Z.eqb_neq.
    assert (1 <= z / 16) by (apply Z.div_le_lower_bound; lia). lia.
Qed.

Lemma check_edge_unchanged histlen quota cfg center fuel hist srcname mask x y dir s :
  check_edge histlen quota cfg center fuel hist srcname mask mask x y dir s = Ok tt s.
Proof. unfold check_edge. rewrite Z.eqb_refl. reflexivity. Qed.

(** X7.  An EDGEMASKCHANGE message is checked before anything else: a mask
    with a bit outside the four directions (a value of 16 or more) fails
    the remote and touches no edge history; two valid masks go to
    [check_edgeevents] with the history of that remote, and a mask that
    does not change leaves the state as it is. *)
Theorem edge_mask_validated :
  forall histlen quota cfg center fuel rmt old new x y t s,
    0 <= old -> 0 <= new ->
    (16 <= old \/ 16 <= new ->
     handle_message histlen quota cfg center fuel rmt
                    (Message (MT_EDGEMASKCHANGE old new x y) t) s
     = fail_remote quota cfg center fuel rmt "invalid edge mask" s) /\
    (old < 16 -> new < 16 ->
     handle_message histlen quota cfg center fuel rmt
                    (Message (MT_EDGEMASKCHANGE old new x y) t) s
     = check_edgeevents histlen quota cfg center fuel (Some rmt)
         (from_option alias "" (remotes s !! rmt)) old new x y s) /\
    (old < 16 ->
     handle_message histlen quota cfg center fuel rmt
                    (Message (MT_EDGEMASKCHANGE old old x y) t) s = Ok tt s).
Proof.
  intros histlen quota cfg center fuel rmt old new x y t s Hold Hnew.
  unfold handle_message. cbn [body].
  rewrite !land_outside_alldirs by assumption.
  split; [| split].
  - intros Hbad.
    assert (Hor : negb (old <? 16) || negb (new <? 16) = true).
    { apply orb_true_iff.
      destruct Hbad as [H | H]; [left | right];
        apply negb_true_iff, Z.ltb_ge; exact H. }
    rewrite Hor. reflexivity.
  - intros Ho Hn.
    rewrite (proj2 (Z.ltb_lt old 16) Ho), (proj2 (Z.ltb_lt new 16) Hn).
    reflexivity.
  - intros Ho. rewrite (proj2 (Z.ltb_lt old 16) Ho). cbn [negb orb].
    unfold bind, remote_field, gets, check_edgeevents. simpl.
    unfold bind. rewrite !check_edge_unchanged. reflexivity.
Qed.

Lemma edge_mask_validated_witness :
  handle_message 6 16 Witness.plain Demo.center 2 0%nat
                 (Message (MT_EDGEMASKCHANGE 0 16 F32.zero F32.zero) 0) Witness.connected
  = fail_remote 16 Witness.plain Demo.center 2 0%nat "invalid edge mask"
                Witness.connected.
Proof.
  apply (proj1 (edge_mask_validated 6 16 Witness.plain Demo.center 2 0%nat 0 16
                  F32.zero F32.zero 0 Witness.connected ltac:(lia) ltac:(lia))).
  right. lia.
Defined.

(** ** Reconnecting *)

(** The remote as [setup_remote] leaves it when the SETUP message fits:
    a new child, state SETTINGUP, a fresh channel that holds the SETUP
    message; the failure counter is not touched. *)
Definition spawned (prot pid : Z) (r : remote) : remote :=
  with_queued [new_message (MT_SETUP prot (params r))]
    (set_chan mc_init (set_state CS_SETTINGUP (set_sshpid pid r))).

Lemma setup_remote_room quota prot cfg center fuel rmt r s :
  remotes s !! rmt = Some r ->
  (1 <= quota)%nat ->
  exists s',
    setup_remote quota prot cfg center fuel rmt s = Ok tt s' /\
    remotes s' !! rmt = Some (spawned prot (next_pid s) r) /\
    (forall c, c <> rmt -> remotes s' !! c = remotes s !! c) /\
    trace s'
    = trace s ++ [EvSpawn rmt (next_pid s);
                  EvEnqueue rmt (new_message (MT_SETUP prot (params r)))] /\
    same_but_remotes_and_trace (set_next_pid (next_pid s + 1) s) s'.
Proof.
  intros Hr Hq. unfold setup_remote.
  unfold bind at 1. unfold gets at 1.
  unfold bind at 1. unfold bind at 1. unfold bind at 1. unfold bind at 1.
  unfold modify at 1 2 3 4.
  set (s0 := emit (EvSpawn rmt (next_pid s)) (set_next_pid (next_pid s + 1) s)).
  set (s3 := alter_remote (set_chan mc_init) rmt
               (alter_remote (set_state CS_SETTINGUP) rmt
                  (alter_remote (set_sshpid (next_pid s)) rmt s0))).
  assert (Hr3 : remotes s3 !! rmt
                = Some (set_chan mc_init
                          (set_state CS_SETTINGUP (set_sshpid (next_pid s) r)))).
  { subst s3 s0. simpl. rewrite !list_lookup_alter_eq, Hr. reflexivity. }
  unfold bind at 1. unfold remote_field at 1, gets at 1. rewrite Hr3. cbn [from_option].
  change (params (set_chan mc_init (set_state CS_SETTINGUP (set_sshpid (next_pid s) r))))
    with (params r).
  rewrite (enqueue_message_room quota _ rmt _ _ s3 Hr3) by (simpl; lia).
  eexists. split; [reflexivity |]. split; [| split; [| split]].
  - rewrite (delivered_lookup rmt _ _ s3 Hr3). reflexivity.
  - intros c Hc. rewrite delivered_lookup_ne by exact Hc.
    subst s3 s0. simpl. rewrite !list_lookup_alter_ne by congruence. reflexivity.
  - rewrite (delivered_trace rmt _ _ s3 Hr3). subst s3 s0. simpl.
    rewrite <- app_assoc. reflexivity.
  - eapply same_trans; [| apply delivered_same].
    subst s3 s0. repeat split. simpl. rewrite !length_alter. reflexivity.
Qed.

Lemma prepare_remote_waits quota prot cfg center fuel now_us rmt r s :
  remotes s !! rmt = Some r ->
  state r = CS_FAILED ->
  next_reconnect_time r >= now_us ->
  prepare_remote quota prot cfg center fuel now_us rmt s = Ok (false, false) s.
Proof.
  intros Hr Hst Hnrt. unfold prepare_remote, bind, remote_field, gets.
  rewrite Hr. simpl. rewrite Hst.
  replace (next_reconnect_time r <? now_us) with false
    by (symmetry; apply Z.ltb_ge; lia).
  simpl. rewrite Hr. simpl. unfold remote_live. rewrite Hst. reflexivity.
Qed.

Lemma prepare_remote_reconnects quota prot cfg center fuel now_us rmt r s :
  remotes s !! rmt = Some r ->
  state r = CS_FAILED ->
  next_reconnect_time r < now_us ->
  (1 + length (due_messages now_us (scheduled_messages r)) <= quota)%nat ->
  (length (due_messages now_us (scheduled_messages r)) < fuel)%nat ->
  exists s',
    prepare_remote quota prot cfg center fuel now_us rmt s = Ok (true, true) s' /\
    remotes s' !! rmt
    = Some (set_scheduled_messages (later_messages now_us (scheduled_messages r))
              (with_queued (due_messages now_us (scheduled_messages r))
                 (spawned prot (next_pid s) r))) /\
    (forall c, c <> rmt -> remotes s' !! c = remotes s !! c) /\
    trace s'
    = trace s ++ [EvSpawn rmt (next_pid s);
                  EvEnqueue rmt (new_message (MT_SETUP prot (params r)))]
              ++ map (EvEnqueue rmt) (due_messages now_us (scheduled_messages r)) /\
    same_but_remotes_and_trace (set_next_pid (next_pid s + 1) s) s'.
Proof.
  intros Hr Hst Hnrt Hroom Hfuel. unfold prepare_remote.
  unfold bind at 1. unfold bind at 1. unfold remote_field at 1, gets at 1.
  rewrite Hr. cbn [from_option]. rewrite Hst.
  unfold bind at 1. unfold remote_field at 1, gets at 1. rewrite Hr. cbn [from_option].
  rewrite bool_decide_eq_true_2 by reflexivity.
  replace (next_reconnect_time r <? now_us) with true
    by (symmetry; apply Z.ltb_lt; exact Hnrt).
  cbn [andb].
  destruct (setup_remote_room quota prot cfg center fuel rmt r s Hr)
    as (s1 & Hsetup & Hr1 & Hother1 & Htr1 & Hsame1); [lia |].
  rewrite Hsetup.
  unfold bind at 1. unfold remote_field at 1, gets at 1. rewrite Hr1. cbn [from_option].
  change (remote_live (spawned prot (next_pid s) r)) with true. cbv iota.
  destruct (enqueue_scheduled_messages_room quota cfg center fuel fuel rmt now_us _ s1 Hr1)
    as (s2 & Hsched & Hr2 & Hother2 & Htr2 & Hsame2).
  { simpl. exact Hroom. }
  { exact Hfuel. }
  unfold bind at 1. unfold bind at 1. rewrite Hsched.
  unfold remote_field, gets. rewrite Hr2. cbn [from_option].
  exists s2. split.
  - unfold ret, mc_have_outbound_data. simpl. reflexivity.
  - split; [exact Hr2 |]. split; [| split].
    + intros c Hc. rewrite (Hother2 c Hc). apply Hother1. exact Hc.
    + rewrite Htr2, Htr1. rewrite <- app_assoc. reflexivity.
    + eapply same_trans; eassumption.
Qed.

(** X8.  The event loop leaves a FAILED remote alone until its reconnect
    time has passed: at a time up to and including [next_reconnect_time]
    the remote is neither set up nor selected; after it the remote is set
    up again (a new child, state SETTINGUP, a fresh channel with the SETUP
    message, followed by the scheduled messages that are due) and selected
    for reading and writing.  The failure counter stays as it is. *)
Theorem failed_remote_reconnects_when_due :
  forall quota prot cfg center fuel now_us rmt r s,
    remotes s !! rmt = Some r ->
    state r = CS_FAILED ->
    (1 + length (due_messages now_us (scheduled_messages r)) <= quota)%nat ->
    (length (due_messages now_us (scheduled_messages r)) < fuel)%nat ->
    (now_us <= next_reconnect_time r ->
     prepare_remote quota prot cfg center fuel now_us rmt s = Ok (false, false) s) /\
    (next_reconnect_time r < now_us ->
     exists s' r',
       prepare_remote quota prot cfg center fuel now_us rmt s = Ok (true, true) s' /\
       remotes s' !! rmt = Some r' /\
       state r' = CS_SETTINGUP /\
       sshpid r' = next_pid s /\
       failcount r' = failcount r /\
       chan r' = MsgChan true (new_message (MT_SETUP prot (params r))
                               :: due_messages now_us (scheduled_messages r)) /\
       (forall c, c <> rmt -> remotes s' !! c = remotes s !! c) /\
       focused_remote s' = focused_remote s).
Proof.
  intros quota prot cfg center fuel now_us rmt r s Hr Hst Hroom Hfuel. split.
  - intros Hwait. apply (prepare_remote_waits _ _ _ _ _ _ _ r); [assumption .. | lia].
  - intros Hdue.
    destruct (prepare_remote_reconnects quota prot cfg center fuel now_us rmt r s)
      as (s' & Hrun & Hr' & Hother & _ & Hsame); try assumption.
    eexists _, _. split; [exact Hrun |]. split; [exact Hr' |].
    repeat split; try reflexivity; [exact Hother | apply Hsame].
Qed.

Lemma failed_remote_reconnects_when_due_witness :
  prepare_remote 16 Demo.prot Witness.plain Demo.center 2 500000 0%nat Sample.waiting
  = Ok (false, false) Sample.waiting.
Proof.
  apply (proj1 (failed_remote_reconnects_when_due 16 Demo.prot Witness.plain
                  Demo.center 2 500000 0%nat _ Sample.waiting eq_refl eq_refl
                  ltac:(vm_compute; lia) ltac:(vm_compute; lia))).
  vm_compute. discriminate.
Defined.

(** What the RECONNECT action does to a remote at time [now_us]. *)
Definition revived (now_us : Z) (r : remote) : remote :=
  set_next_reconnect_time now_us
    (set_failcount 0 (if decide (state r = CS_PERMFAILED) then set_state CS_FAILED r else r)).

(** X9.  The RECONNECT action makes every PERMFAILED remote FAILED again,
    clears every failure counter and makes every reconnect time now; it
    touches nothing else.  A remote that had failed, for good or not, is
    therefore set up again by the first pass of the event loop at a later
    time, with its backoff starting afresh. *)
Theorem reconnect_action_revives :
  forall quota prot cfg center fuel modkeys rmt r s,
    remotes s !! rmt = Some r ->
    let s1 := set_remotes (map (revived (clock s)) (remotes s)) s in
    action_cb quota cfg center fuel AT_RECONNECT modkeys s = Ok tt s1 /\
    remotes s1 !! rmt = Some (revived (clock s) r) /\
    (state r <> CS_PERMFAILED -> state (revived (clock s) r) = state r) /\
    (state r = CS_PERMFAILED \/ state r = CS_FAILED ->
     forall fuel' now_us,
       clock s < now_us ->
       (1 + length (due_messages now_us (scheduled_messages r)) <= quota)%nat ->
       (length (due_messages now_us (scheduled_messages r)) < fuel')%nat ->
       exists s2 r2,
         prepare_remote quota prot cfg center fuel' now_us rmt s1 = Ok (true, true) s2 /\
         remotes s2 !! rmt = Some r2 /\
         state r2 = CS_SETTINGUP /\ failcount r2 = 0).
Proof.
  intros quota prot cfg center fuel modkeys rmt r s Hr s1.
  assert (Hr1 : remotes s1 !! rmt = Some (revived (clock s) r)).
  { subst s1. simpl. rewrite list_lookup_fmap, Hr. reflexivity. }
  split; [reflexivity |]. split; [exact Hr1 |]. split.
  - intros Hst. unfold revived.
    destruct (decide (state r = CS_PERMFAILED)); [contradiction | reflexivity].
  - intros Hst fuel' now_us Hnow Hroom Hfuel.
    assert (Hfailed : state (revived (clock s) r) = CS_FAILED).
    { unfold revived. destruct (decide (state r = CS_PERMFAILED)) as [Hp | Hp];
        [reflexivity |]. simpl. destruct Hst; congruence. }
    assert (Hsched : scheduled_messages (revived (clock s) r) = scheduled_messages r).
    { unfold revived. destruct (decide (state r = CS_PERMFAILED)); reflexivity. }
    destruct (prepare_remote_reconnects quota prot cfg center fuel' now_us rmt
                (revived (clock s) r) s1 Hr1 Hfailed)
      as (s2 & Hrun & Hr2 & _).
    + unfold revived. simpl. exact Hnow.
    + rewrite Hsched. exact Hroom.
    + rewrite Hsched. exact Hfuel.
    + eexists _, _. split; [exact Hrun |]. split; [exact Hr2 |].
      split; reflexivity.
Qed.

Lemma reconnect_action_revives_witness :
  exists s1 s2,
    action_cb 16 Witness.plain Demo.center 2 AT_RECONNECT []
              (alter_remote (set_state CS_PERMFAILED) 0%nat Sample.waiting) = Ok tt s1 /\
    prepare_remote 16 Demo.prot Witness.plain Demo.center 2 2000 0%nat s1
    = Ok (true, true) s2 /\
    Demo.state_of 0%nat s2 = Some CS_SETTINGUP.
Proof.
  destruct (reconnect_action_revives 16 Demo.prot Witness.plain Demo.center 2 [] 0%nat _
              (alter_remote (set_state CS_PERMFAILED) 0%nat Sample.waiting) eq_refl)
    as (Hact & _ & _ & Hprep).
  destruct (Hprep (or_introl eq_refl) 2%nat 2000) as (s2 & r2 & Hrun & Hr2 & Hst & _).
  - vm_compute. reflexivity.
  - vm_compute. lia.
  - vm_compute. lia.
  - eexists _, s2. split; [exact Hact |]. split; [exact Hrun |].
    unfold Demo.state_of. rewrite Hr2. simpl. rewrite Hst. reflexivity.
Defined.

(** ** A pass of the event loop with nothing to do *)

Lemma for_each_collect_unchanged {X Y} (l : list X) (f : X -> M Y) s :
  (forall x, x ∈ l -> exists y, f x s = Ok y s) ->
  exists ys, for_each_collect l f s = Ok ys s.
Proof.
  induction l as [| x l IH]; intros Hf; simpl.
  - exists []. reflexivity.
  - destruct (Hf x) as (y & Hy); [left |].
    destruct IH as (ys & Hys); [intros x' Hx'; apply Hf; right; exact Hx' |].
    exists (y :: ys). unfold bind. rewrite Hy, Hys. reflexivity.
Qed.

Lemma for_each_unchanged {X} (l : list X) (f : X -> M unit) s :
  (forall x, x ∈ l -> f x s = Ok tt s) -> for_each l f s = Ok tt s.
Proof.
  induction l as [| x l IH]; intros Hf; simpl; [reflexivity |].
  unfold bind. rewrite (Hf x) by left. apply IH.
  intros x' Hx'. apply Hf. right. exact Hx'.
Qed.

(** Nothing is due for the remote [r] at [now_us]: it is not waiting for a
    reconnect whose time has passed, and if it is live it has no scheduled
    message to send yet. *)
Definition remote_idle (now_us : Z) (r : remote) : Prop :=
  (state r = CS_FAILED -> now_us <= next_reconnect_time r) /\
  (remote_live r = true -> due_messages now_us (scheduled_messages r) = []).

Lemma prepare_remote_idle quota prot cfg center fuel now_us rmt r s :
  remotes s !! rmt = Some r ->
  remote_idle now_us r ->
  (1 <= fuel)%nat ->
  exists sets, prepare_remote quota prot cfg center fuel now_us rmt s = Ok sets s.
Proof.
  intros Hr [Hwait Hsched] Hfuel.
  unfold prepare_remote.
  unfold bind at 1. unfold bind at 1. unfold remote_field at 1, gets at 1.
  rewrite Hr. cbn [from_option].
  unfold bind at 1. unfold remote_field at 1, gets at 1. rewrite Hr. cbn [from_option].
  assert (Hskip : bool_decide (Some (state r) = Some CS_FAILED)
                  && (next_reconnect_time r <? now_us) = false).
  { destruct (decide (state r = CS_FAILED)) as [Hst | Hst].
    - apply andb_false_iff. right. apply Z.ltb_ge. auto.
    - rewrite bool_decide_eq_false_2 by congruence. reflexivity. }
  rewrite Hskip. unfold ret at 1.
  unfold bind at 1. unfold remote_field at 1, gets at 1. rewrite Hr. cbn [from_option].
  destruct (remote_live r) eqn:Hlive; [| eexists; reflexivity].
  destruct fuel as [| fuel]; [lia |].
  cbn [enqueue_scheduled_messages].
  unfold bind, remote_field, gets. rewrite Hr. cbn [from_option].
  specialize (Hsched eq_refl).
  destruct (scheduled_messages r) as [| m q].
  - unfold ret. rewrite Hr. eexists. reflexivity.
  - simpl in Hsched. destruct (sendtime m <=? now_us); [discriminate |].
    unfold ret. rewrite Hr. eexists. reflexivity.
Qed.

Lemma service_remote_idle histlen quota cfg center fuel inp rmt sets s :
  in_readable inp rmt = None -> in_writable inp rmt = None ->
  service_remote histlen quota cfg center fuel inp rmt sets s = Ok tt s.
Proof.
  intros Hrd Hwr. unfold service_remote, bind, remote_field, gets.
  rewrite Hrd, Hwr. reflexivity.
Qed.

(** X10.  A pass of the event loop at a time when no scheduled call is
    due, no failed remote is due for a reconnect, no live remote has a
    scheduled message to send, no descriptor is ready and no platform
    event is pending changes nothing: no remote is set up or failed,
    nothing is sent and the focus stays. *)
Theorem idle_pass_changes_nothing :
  forall histlen quota prot cfg center fuel inp s,
    (1 <= fuel)%nat ->
    head_not_due (in_now inp) (scheduled_calls s) ->
    Forall (remote_idle (in_now inp)) (remotes s) ->
    (forall rmt, in_readable inp rmt = None /\ in_writable inp rmt = None) ->
    in_events inp = [] ->
    handle_fds histlen quota prot cfg center fuel inp s
    = Ok tt (set_clock (in_now inp) s).
Proof.
  intros histlen quota prot cfg center fuel inp s Hfuel Hcalls Hidle Hfds Hevs.
  unfold handle_fds.
  unfold bind at 1. unfold modify at 1.
  set (s0 := set_clock (in_now inp) s).
  unfold bind at 1. unfold get_microtime at 1, gets at 1.
  change (clock s0) with (in_now inp).
  assert (Hrun : run_scheduled_calls fuel (in_now inp) s0 = Ok tt s0).
  { unfold run_scheduled_calls. destruct fuel as [| fuel]; [lia |]. simpl.
    destruct (scheduled_calls s) as [| c q]; [reflexivity |].
    simpl in Hcalls.
    replace (calltime c <=? in_now inp) with false
      by (symmetry; apply Z.leb_gt; exact Hcalls).
    reflexivity. }
  unfold bind at 1. rewrite Hrun.
  unfold bind at 1. unfold gets at 1.
  change (remotes s0) with (remotes s).
  destruct (for_each_collect_unchanged (seq 0 (length (remotes s)))
              (prepare_remote quota prot cfg center fuel (in_now inp)) s0)
    as (fdsets & Hprep).
  { intros rmt Hin. apply elem_of_seq in Hin.
    destruct (lookup_lt_is_Some_2 (remotes s) rmt) as [r Hr]; [lia |].
    apply (prepare_remote_idle quota prot cfg center fuel (in_now inp) rmt r s0);
      [exact Hr | | exact Hfuel].
    rewrite Forall_lookup in Hidle. exact (Hidle rmt r Hr). }
  unfold bind at 1. rewrite Hprep.
  unfold bind at 1. rewrite for_each_unchanged.
  - rewrite Hevs. reflexivity.
  - intros [rmt sets] _. destruct (Hfds rmt) as [Hrd Hwr].
    apply service_remote_idle; assumption.
Qed.

Lemma idle_pass_changes_nothing_witness :
  handle_fds 6 16 Demo.prot Witness.dimming Demo.center 2 (Demo.quiet 50000 [])
             Sample.dimmed
  = Ok tt (set_clock 50000 Sample.dimmed).
Proof.
  apply (idle_pass_changes_nothing 6 16 Demo.prot Witness.dimming Demo.center 2
           (Demo.quiet 50000 []) Sample.dimmed).
  - lia.
  - exact I.
  - repeat constructor; simpl; discriminate.
  - intros rmt. split; reflexivity.
  - reflexivity.
Defined.

(** ** The timeout of [select] *)













(** ** The command line of the transport *)

(** [struct ssh_config]: a string that is not set is a NULL pointer, a
    port that is not set is 0. *)
Record ssh_config := SshConfig
  { remoteshell : option string;
    port : Z;
    bindaddr : option string;
    identityfile : option string;
    username : option string;
    remotecmd : option string }.

(** [SSH_DEFAULT]: the remote's own setting if it has one, else the
    default of the configuration. *)
Definition ssh_default (f : ssh_config -> option string)
  (defaults own : ssh_config) : option string :=
  match f own with
  | Some v => Some v
  | None => f defaults
  end.

Definition get_port (defaults own : ssh_config) : Z :=
  if port own =? 0 then port defaults else port own.

(** [ARR_LEN(argv)] in [exec_remote_shell]: four fixed entries, eleven
    placeholders and the terminator. *)
Definition ARGV_LEN : nat := 16.

(** The argument vector [exec_remote_shell] hands to [execvp], without the
    terminating NULL; [None] when the assertion on its length fails. *)
Definition exec_remote_shell (defaults own : ssh_config) (hostname progname : string)
  : option (list string) :=
  let remote_shell := default "ssh" (ssh_default remoteshell defaults own) in
  let argv :=
    [remote_shell; "-oBatchMode=yes"; "-oServerAliveInterval=2";
     "-oServerAliveCountMax=3"]
    ++ (if get_port defaults own =? 0 then []
        else ["-p"; pretty (get_port defaults own)])
    ++ match ssh_default bindaddr defaults own with
       | Some b => ["-b"; b]
       | None => []
       end
    ++ match ssh_default identityfile defaults own with
       | Some i => ["-oIdentitiesOnly=yes"; "-i"; i]
       | None => []
       end
    ++ match ssh_default username defaults own with
       | Some u => ["-l"; u]
       | None => []
       end
    ++ [hostname]
    ++ [default progname (ssh_default remotecmd defaults own)] in
  if bool_decide (length argv < ARGV_LEN)%nat then Some argv else None.

(** X12.  The argument vector of the transport always fits its array, so
    the assertion of [exec_remote_shell] never fails: it has between 6 and
    15 entries, begins with the remote shell (the remote's own, else the
    default, else ssh) and its three fixed options, and ends with the host
    name followed by the remote command (the remote's own, else the
    default, else the program's own name); whatever options are set come
    in between. *)
Theorem remote_shell_argv_fits :
  forall defaults own hostname progname,
    exists options,
      exec_remote_shell defaults own hostname progname
      = Some ([default "ssh" (ssh_default remoteshell defaults own);
               "-oBatchMode=yes"; "-oServerAliveInterval=2";
               "-oServerAliveCountMax=3"]
              ++ options
              ++ [hostname; default progname (ssh_default remotecmd defaults own)]) /\
      (length options <= 9)%nat /\
      (get_port defaults own = 0 ->
       ssh_default bindaddr defaults own = None ->
       ssh_default identityfile defaults own = None ->
       ssh_default username defaults own = None ->
       options = []).
Proof.
  intros defaults own hostname progname. unfold exec_remote_shell.
  set (p := if get_port defaults own =? 0 then []
            else ["-p"; pretty (get_port defaults own)]).
  set (b := match ssh_default bindaddr defaults own with
            | Some b => ["-b"; b] | None => [] end).
  set (i := match ssh_default identityfile defaults own with
            | Some i => ["-oIdentitiesOnly=yes"; "-i"; i] | None => [] end).
  set (u := match ssh_default username defaults own with
            | Some u => ["-l"; u] | None => [] end).
  assert (Hp : (length p <= 2)%nat)
    by (subst p; destruct (get_port defaults own =? 0); simpl; lia).
  assert (Hb : (length b <= 2)%nat)
    by (subst b; destruct (ssh_default bindaddr defaults own); simpl; lia).
  assert (Hi : (length i <= 3)%nat)
    by (subst i; destruct (ssh_default identityfile defaults own); simpl; lia).
  assert (Hu : (length u <= 2)%nat)
    by (subst u; destruct (ssh_default username defaults own); simpl; lia).
  exists (p ++ b ++ i ++ u).
  split; [| split].
  - rewrite bool_decide_eq_true_2
      by (unfold ARGV_LEN; simpl; rewrite !length_app; simpl; lia).
    f_equal. simpl. f_equal. f_equal. f_equal. f_equal.
    rewrite <- !app_assoc. reflexivity.
  - rewrite !length_app. lia.
  - intros Hport Hbind Hident Huser. subst p b i u.
    rewrite Hport, Hbind, Hident, Huser. reflexivity.
Qed.

(** ** Switches that do not happen *)

(** Whether a switch to the node that already has the focus is shown. *)
Definition nullswitch_shown (cfg : config_t) (from_hotkey : bool) : bool :=
  match show_nullswitch cfg with
  | NS_YES => true
  | NS_HOTKEYONLY => from_hotkey
  | NS_NO => false
  end.

(** The neighbour of the focused node in the direction [dir]. *)
Definition neighbor_of_focused (cfg : config_t) (dir : direction_t) (s : world)
  : noderef :=
  match focused_remote s with
  | Some r => from_option (fun x => dm_get dir (neighbors x)) NT_NONE (remotes s !! r)
  | None => dm_get dir (master_neighbors cfg)
  end.

Lemma focus_neighbor_unfold quota cfg center fuel dir modkeys from_hotkey s :
  focus_neighbor quota cfg center fuel dir modkeys from_hotkey s
  = focus_node quota cfg center (fail_remote quota cfg center fuel)
               (neighbor_of_focused cfg dir s) modkeys from_hotkey s.
Proof.
  unfold focus_neighbor, neighbor_of_focused, bind, gets, remote_field, ret.
  destruct (focused_remote s); reflexivity.
Qed.

(** X13.  A move in a direction does not switch the focus, returns 0 and,
    a log line apart, leaves the state as it is when the focused node has
    no neighbour there (and null switches are not shown), when the
    neighbour is a remote that is not CONNECTED, and when the neighbour is
    a name that was never resolved; the log line of the last case ends
    with the number of the node type. *)
Theorem focus_neighbor_stays :
  forall quota cfg center fuel dir modkeys from_hotkey s,
    (neighbor_of_focused cfg dir s = NT_NONE ->
     nullswitch_shown cfg from_hotkey = false ->
     focus_neighbor quota cfg center fuel dir modkeys from_hotkey s = Ok 0 s) /\
    (forall r rm,
        neighbor_of_focused cfg dir s = NT_REMOTE r ->
        remotes s !! r = Some rm ->
        state rm <> CS_CONNECTED ->
        focus_neighbor quota cfg center fuel dir modkeys from_hotkey s
        = Ok 0 (emit (EvLog ("remote '" +:+ alias rm +:+ "' not connected, can't focus"))
                     s)) /\
    (forall name,
        neighbor_of_focused cfg dir s = NT_REMOTE_TMPNAME name ->
        focus_neighbor quota cfg center fuel dir modkeys from_hotkey s
        = Ok 0 (emit (EvLog ("unexpected neighbor type "
                              +:+ pretty (nodetype_number (NT_REMOTE_TMPNAME name))))
                     s)).
Proof.
  intros quota cfg center fuel dir modkeys from_hotkey s.
  rewrite focus_neighbor_unfold. split; [| split].
  - intros -> Hshown. cbn [focus_node]. unfold bind at 1. unfold gets at 1.
    apply (proj1 (focus_switch_null quota cfg center _ modkeys from_hotkey s)).
    exact Hshown.
  - intros r rm -> Hr Hst. cbn [focus_node].
    unfold bind, remote_field, gets, elog, modify, ret. rewrite Hr. simpl.
    destruct (decide (Some (state rm) = Some CS_CONNECTED)) as [Heq | _];
      [congruence |].
    simpl. rewrite Hr. reflexivity.
  - intros name ->. reflexivity.
Qed.

Lemma focus_neighbor_stays_witness :
  focus_neighbor 16 Witness.plain Demo.center 2 RIGHT [] true Sample.waiting
  = Ok 0 (emit (EvLog "remote 'alpha' not connected, can't focus") Sample.waiting).
Proof.
  apply (proj1 (proj2 (focus_neighbor_stays 16 Witness.plain Demo.center 2 RIGHT []
                         true Sample.waiting)) 0%nat _ eq_refl eq_refl).
  vm_compute. discriminate.
Defined.

(** ** Input events *)

(** The message that carries an input event to a remote. *)
Definition input_message (ev : platform_event) : option message :=
  match ev with
  | PE_Key kc pr => Some (new_message (MT_KEYEVENT kc pr))
  | PE_Motion dx dy => Some (new_message (MT_MOVEREL dx dy))
  | PE_Button button pr => Some (new_message (MT_CLICKEVENT button pr))
  | _ => None
  end.

(** X14.  A key, pointer-motion or button event goes to the focused remote
    and to it alone, as one message at the end of its channel; while the
    master has the focus such an event sends nothing and changes
    nothing. *)
Theorem input_goes_to_focused_remote :
  forall histlen quota cfg center fuel ev msg s,
    input_message ev = Some msg ->
    (focused_remote s = None ->
     handle_event histlen quota cfg center fuel ev s = Ok tt s) /\
    (forall f rf,
        focused_remote s = Some f ->
        remotes s !! f = Some rf ->
        (length (sendqueue (chan rf)) < quota)%nat ->
        handle_event histlen quota cfg center fuel ev s = Ok tt (delivered f msg s) /\
        remotes (delivered f msg s) !! f = Some (with_queued [msg] rf) /\
        (forall c, c <> f -> remotes (delivered f msg s) !! c = remotes s !! c)).
Proof.
  intros histlen quota cfg center fuel ev msg s Hmsg. split.
  - intros Hfoc.
    destruct ev; try discriminate; simpl; unfold bind, gets; rewrite Hfoc; reflexivity.
  - intros f rf Hfoc Hf Hlen. split; [| split].
    + destruct ev; try discriminate; injection Hmsg as <-;
        simpl; unfold bind, gets; rewrite Hfoc; simpl;
        apply (enqueue_message_room quota _ f _ rf); assumption.
    + apply delivered_lookup. exact Hf.
    + intros c Hc. apply delivered_lookup_ne. exact Hc.
Qed.

Lemma input_goes_to_focused_remote_witness :
  handle_event 6 16 Witness.plain Demo.center 2 (PE_Key 38 PR_PRESS) Witness.connected
  = Ok tt Witness.connected.
Proof.
  apply (proj1 (input_goes_to_focused_remote 6 16 Witness.plain Demo.center 2
                  (PE_Key 38 PR_PRESS) _ Witness.connected eq_refl)).
  reflexivity.
Defined.

(** ** Fades without intermediate steps *)

Lemma fade_events_single from to duration steps now_us :
  steps <= 1 -> fade_events from to duration steps now_us = [(to, add64 now_us duration)].
Proof.
  intros Hsteps. unfold fade_events, seqZ.
  replace (Z.to_nat (steps - 1)) with 0%nat by lia. reflexivity.
Qed.

(** X15.  With one fade step or none (zero and negative counts included)
    [transition_brightness] computes no fraction at all: it sets the node
    to [from] at once and schedules the single event that sets it to [to]
    at now + duration, as a scheduled call on the master and as a
    scheduled message on a remote. *)
Theorem fade_without_intermediate_steps :
  forall quota rec from to duration steps s,
    steps <= 1 ->
    (exists s',
        transition_brightness quota rec None from to duration steps s = Ok tt s' /\
        trace s' = trace s ++ [EvSetDisplayBrightness from] /\
        scheduled_calls s'
        = insert_by_time calltime
            (ScheduledCall FN_set_brightness_cb to (add64 (clock s) duration))
            (scheduled_calls s) /\
        remotes s' = remotes s) /\
    (forall rmt r,
        remotes s !! rmt = Some r ->
        (length (sendqueue (chan r)) < quota)%nat ->
        exists s' r',
          transition_brightness quota rec (Some rmt) from to duration steps s
          = Ok tt s' /\
          remotes s' !! rmt = Some r' /\
          sendqueue (chan r')
          = sendqueue (chan r) ++ [new_message (MT_SETBRIGHTNESS from)] /\
          scheduled_messages r'
          = insert_by_time sendtime
              (Message (MT_SETBRIGHTNESS to) (add64 (clock s) duration))
              (scheduled_messages r)).
Proof.
  intros quota rec from to duration steps s Hsteps. split.
  - destruct (transition_brightness_master quota rec from to duration steps s)
      as (s' & Hrun & Htr & Hcalls & Hrem).
    rewrite fade_events_single in Hcalls by exact Hsteps.
    exists s'. auto.
  - intros rmt r Hr Hlen.
    destruct (transition_brightness_remote quota rec rmt from to duration steps s r
                Hr Hlen)
      as (s' & r' & Hrun & Hr' & Hq & Hsched & _).
    rewrite fade_events_single in Hsched by exact Hsteps.
    exists s', r'. auto.
Qed.

Lemma fade_without_intermediate_steps_witness :
  exists s',
    transition_brightness 16 (fail_remote 16 Witness.plain Demo.center 2) None
                          F32.one brightness_0_3 300000 0 Witness.connected = Ok tt s' /\
    map calltime (scheduled_calls s') = [301000].
Proof.
  destruct (proj1 (fade_without_intermediate_steps 16
                     (fail_remote 16 Witness.plain Demo.center 2)
                     F32.one brightness_0_3 300000 0 Witness.connected ltac:(lia)))
    as (s' & Hrun & _ & Hcalls & _).
  exists s'. split; [exact Hrun |]. rewrite Hcalls. reflexivity.
Defined.

(** ** Leaving a remote: the pointer and the input grab *)

(** The state changes made by the functions around [fail_remote] other
    than [focus_node]'s own: those to the pointer, to the saved pointer
    position and to the focus are left out. *)
Record wire_stable (I : world -> Prop) : Prop := WireStable
  { ws_emit : forall e s, I s -> I (emit e s);
    ws_chan : forall (f : remote -> msgchan) rmt s,
      I s -> I (alter_remote (fun r => set_chan (f r) r) rmt s);
    ws_sched_clear : forall rmt s,
      I s -> I (alter_remote (set_scheduled_messages []) rmt s);
    ws_sched_insert : forall msg rmt s,
      I s ->
      I (alter_remote
           (fun r => set_scheduled_messages
                       (insert_by_time sendtime msg (scheduled_messages r)) r) rmt s);
    ws_sshpid : forall v rmt s, I s -> I (alter_remote (set_sshpid v) rmt s);
    ws_failcount : forall (f : remote -> Z) rmt s,
      I s -> I (alter_remote (fun r => set_failcount (f r) r) rmt s);
    ws_state : forall v rmt s, I s -> I (alter_remote (set_state v) rmt s);
    ws_nrt : forall v rmt s, I s -> I (alter_remote (set_next_reconnect_time v) rmt s);
    ws_call : forall fn arg when s,
      I s -> I (Scheduler.schedule_call scheduled_calls set_scheduled_calls fn arg when s) }.

Ltac wire_prim st :=
  first
    [ apply preserves_modify; intros ? ?;
      repeat first [ assumption
                   | apply (ws_emit _ st)
                   | apply (ws_chan _ st)
                   | apply (ws_sched_clear _ st)
                   | apply (ws_sched_insert _ st)
                   | apply (ws_sshpid _ st)
                   | apply (ws_failcount _ st)
                   | apply (ws_state _ st)
                   | apply (ws_nrt _ st)
                   | apply (ws_call _ st) ]
    | pres_step ].

Section WireInvariant.
Variable quota : nat.
Variable cfg : config_t.
Variable center : xypoint.
Variable I : world -> Prop.
Hypothesis stable : wire_stable I.
Variable rec : rid -> string -> M unit.
Hypothesis rec_preserves : forall r reason, preserves I (rec r reason).

Lemma wire_enqueue_message rmt msg :
  preserves I (enqueue_message quota rec rmt msg).
Proof.
  unfold enqueue_message. apply preserves_bind.
  - intros s Hs. unfold mc_enqueue.
    destruct (remotes s !! rmt) as [r |]; [| exact Hs].
    simpl. apply (ws_emit I stable).
    apply (ws_chan I stable (fun _ => _)). exact Hs.
  - intros [|]; [apply rec_preserves | apply preserves_ret].
Qed.

Lemma wire_schedule_brightness_change node f when :
  preserves I (schedule_brightness_change node f when).
Proof.
  unfold schedule_brightness_change, schedule_message, schedule_call.
  destruct node; wire_prim stable.
Qed.

Lemma wire_fade_loop n node from to duration steps now_us i :
  preserves I (fade_loop n node from to duration steps now_us i).
Proof.
  revert i. induction n as [| n IH]; intros i; simpl; [apply preserves_ret |].
  destruct (i <? steps); [| apply preserves_ret].
  apply preserves_bind; [| intros _; apply IH].
  apply wire_schedule_brightness_change.
Qed.

Lemma wire_transition_brightness node from to duration steps :
  preserves I (transition_brightness quota rec node from to duration steps).
Proof.
  unfold transition_brightness, get_microtime, set_node_display_brightness,
    send_setbrightness, set_display_brightness.
  repeat first [ apply wire_enqueue_message
               | apply wire_fade_loop
               | apply wire_schedule_brightness_change
               | wire_prim stable ].
Qed.

Lemma wire_indicate_switch from to :
  preserves I (indicate_switch quota cfg rec from to).
Proof.
  unfold indicate_switch.
  repeat first [ apply wire_transition_brightness | wire_prim stable ].
Qed.

Lemma wire_transfer_clipboard from to :
  preserves I (transfer_clipboard quota rec from to).
Proof.
  unfold transfer_clipboard, elog, get_clipboard_text.
  repeat first [ apply wire_enqueue_message | wire_prim stable ].
Qed.

Lemma wire_transfer_modifiers from to modkeys :
  preserves I (transfer_modifiers quota rec from to modkeys).
Proof.
  unfold transfer_modifiers.
  repeat first [ apply wire_enqueue_message | wire_prim stable ].
Qed.

Hypothesis handback_preserves :
  forall modkeys from_hotkey,
    preserves I (focus_switch quota cfg center rec None modkeys from_hotkey).

Lemma wire_disconnect_remote rmt :
  preserves I (disconnect_remote quota cfg center rec rmt).
Proof.
  unfold disconnect_remote, focus_master, get_current_modifiers. cbn [focus_node].
  repeat first [ apply handback_preserves | wire_prim stable ].
Qed.

Lemma wire_fail_remote_body rmt reason :
  preserves I (fail_remote_body quota cfg center rec rmt reason).
Proof.
  unfold fail_remote_body, elog, get_microtime.
  repeat first [ apply wire_disconnect_remote | wire_prim stable ].
Qed.
End WireInvariant.

(** Since the trace was [tr0], the inputs have been ungrabbed and the
    pointer is back at [p], the position saved when the master lost the
    focus. *)
Definition released (p : xypoint) (tr0 : list event) (s : world) : Prop :=
  saved_master_mousepos s = p /\ mousepos s = p /\
  exists ext, trace s = tr0 ++ ext /\ EvUngrabInputs ∈ ext.

(** The remote [a] still has the focus, or the focus is back with the
    master, the inputs released and the pointer restored. *)
Definition leaving_pointer (a : rid) (p : xypoint) (tr0 : list event) (s : world)
  : Prop :=
  saved_master_mousepos s = p /\
  ((focused_remote s = Some a /\ exists ext, trace s = tr0 ++ ext) \/
   (focused_remote s = None /\ released p tr0 s)).

Lemma released_emit p tr0 e s : released p tr0 s -> released p tr0 (emit e s).
Proof.
  intros (Hsaved & Hpos & ext & Htr & Hin). repeat split; try assumption.
  exists (ext ++ [e]). simpl. rewrite Htr, app_assoc. split; [reflexivity |].
  apply elem_of_app. left. exact Hin.
Qed.

Lemma released_stable p tr0 : wire_stable (released p tr0).
Proof.
  constructor; try (intros; assumption).
  intros e s. apply released_emit.
Qed.

Lemma leaving_pointer_stable a p tr0 : wire_stable (leaving_pointer a p tr0).
Proof.
  constructor; try (intros; assumption).
  intros e s (Hsaved & [(Hfoc & ext & Htr) | (Hfoc & Hrel)]).
  - split; [exact Hsaved |]. left. split; [exact Hfoc |].
    exists (ext ++ [e]). simpl. rewrite Htr, app_assoc. reflexivity.
  - split; [exact Hsaved |]. right. split; [exact Hfoc |].
    apply released_emit. exact Hrel.
Qed.

Section Handback.
Variable quota : nat.
Variable cfg : config_t.
Variable center : xypoint.
Variable p : xypoint.
Variable tr0 : list event.
Variable rec : rid -> string -> M unit.
Hypothesis rec_released : forall r reason, preserves (released p tr0) (rec r reason).

Lemma restore_pointer_released s :
  saved_master_mousepos s = p ->
  (exists ext, trace s = tr0 ++ ext) ->
  released p tr0
    (emit (EvSetMousepos (saved_master_mousepos s))
          (set_mousepos_field (saved_master_mousepos s) (emit EvUngrabInputs s))).
Proof.
  intros Hsaved (ext & Htr). split; [exact Hsaved |]. split; [exact Hsaved |].
  exists (ext ++ [EvUngrabInputs; EvSetMousepos (saved_master_mousepos s)]).
  simpl. rewrite Htr, <- !app_assoc. split; [reflexivity |].
  apply elem_of_app. right. left.
Qed.

(** Handing the focus to the master keeps the inputs released and the
    pointer restored once they are. *)
Lemma handback_released modkeys from_hotkey :
  preserves (released p tr0)
            (focus_switch quota cfg center rec None modkeys from_hotkey).
Proof.
  unfold focus_switch.
  apply hoare_gets_bind. intros f0.
  apply hoare_seq with (R := released p tr0).
  { apply hoare_pre with (P' := released p tr0); [intros s [Hs _]; exact Hs |].
    destruct (_ || _);
      [ apply wire_indicate_switch; [apply released_stable | exact rec_released]
      | apply preserves_ret ]. }
  apply hoare_gets_bind. intros f1.
  destruct (decide (None = f1)) as [Heq | Hne]; [intros s [Hs _]; exact Hs |].
  apply hoare_pre with (P' := released p tr0); [intros s [Hs _]; exact Hs |].
  apply hoare_seq with (R := released p tr0); [| intros s Hs; exact Hs].
  apply hoare_seq with (R := released p tr0);
    [| apply hoare_modify; intros s Hs; exact Hs].
  apply hoare_seq with (R := released p tr0).
  2:{ apply hoare_gets_bind. intros f3.
      apply hoare_pre with (P' := released p tr0); [intros s [Hs _]; exact Hs |].
      apply wire_transfer_modifiers; [apply released_stable | exact rec_released]. }
  apply hoare_seq with (R := released p tr0).
  2:{ apply hoare_gets_bind. intros f2.
      apply hoare_pre with (P' := released p tr0); [intros s [Hs _]; exact Hs |].
      apply wire_transfer_clipboard; [apply released_stable | exact rec_released]. }
  apply hoare_seq with (R := released p tr0); [| apply preserves_ret].
  destruct f1 as [x |]; [| congruence].
  intros s Hs. unfold ungrab_inputs, set_mousepos, bind, gets, modify. simpl.
  destruct Hs as (Hsaved & _ & ext & Htr & _).
  apply restore_pointer_released; eauto.
Qed.

Variable a : rid.
Hypothesis rec_leaving :
  forall r reason, preserves (leaving_pointer a p tr0) (rec r reason).

(** Handing the focus to the master from [a]: afterwards the master has
    it, the inputs are released and the pointer is restored. *)
Lemma handback_leaving_pointer modkeys from_hotkey :
  hoare (leaving_pointer a p tr0)
        (focus_switch quota cfg center rec None modkeys from_hotkey)
        (fun _ s => focused_remote s = None /\ released p tr0 s).
Proof.
  unfold focus_switch.
  apply hoare_gets_bind. intros f0.
  apply hoare_seq with (R := leaving_pointer a p tr0).
  { apply hoare_pre with (P' := leaving_pointer a p tr0); [intros s [Hs _]; exact Hs |].
    destruct (_ || _);
      [ apply wire_indicate_switch; [apply leaving_pointer_stable | exact rec_leaving]
      | apply preserves_ret ]. }
  apply hoare_gets_bind. intros f1.
  destruct (decide (None = f1)) as [Heq | Hne].
  { intros s [(Hsaved & [(Hfoc & _) | (Hfoc & Hrel)]) Hf1]; simpl; [congruence | auto]. }
  apply hoare_seq with (R := fun s => focused_remote s = None /\ released p tr0 s);
    [| intros s Hs; exact Hs].
  apply hoare_seq with (R := released p tr0);
    [| apply hoare_modify; intros s Hs; split; [reflexivity | exact Hs]].
  apply hoare_seq with (R := released p tr0).
  2:{ apply hoare_gets_bind. intros f3.
      apply hoare_pre with (P' := released p tr0); [intros s [Hs _]; exact Hs |].
      apply wire_transfer_modifiers; [apply released_stable | exact rec_released]. }
  apply hoare_seq with (R := released p tr0).
  2:{ apply hoare_gets_bind. intros f2.
      apply hoare_pre with (P' := released p tr0); [intros s [Hs _]; exact Hs |].
      apply wire_transfer_clipboard; [apply released_stable | exact rec_released]. }
  apply hoare_seq with (R := released p tr0); [| apply preserves_ret].
  destruct f1 as [x |]; [| congruence].
  intros s [(Hsaved & Hcase) Hf1]. unfold ungrab_inputs, set_mousepos, bind, gets, modify.
  simpl.
  apply restore_pointer_released; [exact Hsaved |].
  destruct Hcase as [(_ & Hext) | (_ & _ & _ & ext & Htr & _)]; eauto.
Qed.

Lemma handback_keeps_leaving_pointer modkeys from_hotkey :
  preserves (leaving_pointer a p tr0)
            (focus_switch quota cfg center rec None modkeys from_hotkey).
Proof.
  eapply hoare_conseq; [apply handback_leaving_pointer | auto |].
  intros ret s [Hfoc Hrel]. split; [apply Hrel |]. right. auto.
Qed.
End Handback.

Lemma preserves_as_hoare {A} (I : world -> Prop) (m : M A) :
  preserves I m -> hoare I m (fun _ => I).
Proof. intros H. exact H. Qed.

Section HandbackKnot.
Variable quota : nat.
Variable cfg : config_t.
Variable center : xypoint.
Variable p : xypoint.
Variable tr0 : list event.

Lemma released_fail_remote fuel r reason :
  preserves (released p tr0) (fail_remote quota cfg center fuel r reason).
Proof.
  revert r reason. induction fuel as [| fuel IH]; intros r reason; simpl.
  - apply preserves_halt.
  - apply wire_fail_remote_body; [apply released_stable |].
    intros modkeys from_hotkey. apply handback_released. exact IH.
Qed.

Lemma leaving_pointer_fail_remote a fuel r reason :
  preserves (leaving_pointer a p tr0) (fail_remote quota cfg center fuel r reason).
Proof.
  revert r reason. induction fuel as [| fuel IH]; intros r reason; simpl.
  - apply preserves_halt.
  - apply wire_fail_remote_body; [apply leaving_pointer_stable |].
    intros modkeys from_hotkey. apply handback_keeps_leaving_pointer; [| exact IH].
    intros. apply released_fail_remote.
Qed.

Definition back_on_master (s : world) : Prop :=
  focused_remote s = None /\ released p tr0 s.

Lemma back_on_master_stable : wire_stable back_on_master.
Proof.
  pose proof (released_stable p tr0) as [H1 H2 H3 H4 H5 H6 H7 H8 H9].
  constructor; intros; match goal with H : back_on_master _ |- _ => destruct H as [Hf Hr] end;
    (split; [exact Hf | auto]).
Qed.

(** The failure of [a] while it may still have the focus. *)
Lemma fail_remote_leaving_pointer a fuel reason :
  hoare (leaving_pointer a p tr0)
        (fail_remote quota cfg center fuel a reason)
        (fun _ => back_on_master).
Proof.
  destruct fuel as [| fuel]; [apply hoare_halt |]. simpl.
  set (rec := fail_remote quota cfg center fuel).
  assert (Hback : forall r reason', preserves back_on_master (rec r reason')).
  { intros r reason'. apply preserves_and.
    - subst rec. clear. revert r reason'.
      induction fuel as [| fuel IH]; intros r reason'; simpl; [apply preserves_halt |].
      assert (Hfoc : wire_stable (fun s => focused_remote s = None))
        by (constructor; intros; assumption).
      apply wire_fail_remote_body; [exact Hfoc |].
      intros modkeys from_hotkey. unfold focus_switch.
      apply hoare_gets_bind. intros f0.
      apply hoare_seq with (R := fun s => focused_remote s = None).
      { apply hoare_pre with (P' := fun s => focused_remote s = None);
          [intros s [Hs _]; exact Hs |].
        destruct (_ || _);
          [apply wire_indicate_switch; [exact Hfoc | exact IH] | apply preserves_ret]. }
      apply hoare_gets_bind. intros f1.
      destruct (decide (None = f1)) as [_ | Hne]; [intros s [Hs _]; exact Hs |].
      intros s [Hs Hf1]. congruence.
    - subst rec. apply released_fail_remote. }
  unfold fail_remote_body.
  eapply hoare_bind with (Q := fun _ => back_on_master).
  2:{ intros _. unfold remote_field, elog, get_microtime.
      apply preserves_as_hoare. repeat wire_prim back_on_master_stable. }
  apply hoare_seq with (R := back_on_master);
    [| apply preserves_as_hoare; wire_prim back_on_master_stable].
  apply hoare_seq with (R := leaving_pointer a p tr0).
  { unfold remote_field, elog. apply preserves_as_hoare.
    repeat wire_prim (leaving_pointer_stable a p tr0). }
  unfold disconnect_remote.
  apply hoare_seq with (R := leaving_pointer a p tr0).
  { unfold remote_field. apply preserves_as_hoare.
    repeat wire_prim (leaving_pointer_stable a p tr0). }
  apply hoare_gets_bind. intros f.
  destruct (decide (f = Some a)) as [-> | Hne].
  - unfold focus_master, get_current_modifiers.
    apply hoare_gets_bind. intros mods. cbn [focus_node].
    apply hoare_seq with (R := back_on_master); [| apply preserves_ret].
    apply hoare_pre with (P' := leaving_pointer a p tr0);
      [intros s [[Hs _] _]; exact Hs |].
    apply handback_leaving_pointer.
    + intros. apply released_fail_remote.
    + intros. apply leaving_pointer_fail_remote.
  - intros s [(Hsaved & [(Hfoc & _) | Hback']) Hf]; simpl; [congruence | exact Hback'].
Qed.
End HandbackKnot.

Lemma leaving_pointer_start a s :
  focused_remote s = Some a ->
  leaving_pointer a (saved_master_mousepos s) (trace s) s.
Proof.
  intros Hfoc. split; [reflexivity |]. left. split; [exact Hfoc |].
  exists []. rewrite app_nil_r. reflexivity.
Qed.

Lemma return_to_master_pointer quota cfg center fuel a modkeys from_hotkey s res s' :
  focused_remote s = Some a ->
  focus_node quota cfg center (fail_remote quota cfg center fuel) NT_MASTER
             modkeys from_hotkey s = Ok res s' ->
  focused_remote s' = None /\
  mousepos s' = saved_master_mousepos s /\
  saved_master_mousepos s' = saved_master_mousepos s /\
  exists ext, trace s' = trace s ++ ext /\ EvUngrabInputs ∈ ext.
Proof.
  intros Hfoc Hrun.
  pose proof (handback_leaving_pointer quota cfg center (saved_master_mousepos s)
                (trace s) (fail_remote quota cfg center fuel)
                (fun r reason => released_fail_remote quota cfg center _ _ fuel r reason)
                a
                (fun r reason => leaving_pointer_fail_remote quota cfg center _ _ a fuel
                                   r reason)
                modkeys from_hotkey s (leaving_pointer_start a s Hfoc)) as Hpost.
  cbn [focus_node] in Hrun. rewrite Hrun in Hpost.
  destruct Hpost as (Hnone & Hsaved & Hpos & Hext). auto.
Qed.

(** X16.  Whenever [focus_node] is asked for the master while a remote has
    the focus and returns, the master has the focus, the input grab has
    been released and the pointer is back where it was when the master
    lost the focus, whether the remote fails on the way or not and
    whatever the function returns. *)
Theorem return_to_master_restores_pointer :
  forall quota cfg center fuel a modkeys from_hotkey s res s',
    focused_remote s = Some a ->
    focus_node quota cfg center (fail_remote quota cfg center fuel) NT_MASTER
               modkeys from_hotkey s = Ok res s' ->
    focused_remote s' = None /\
    mousepos s' = saved_master_mousepos s /\
    saved_master_mousepos s' = saved_master_mousepos s /\
    exists ext, trace s' = trace s ++ ext /\ EvUngrabInputs ∈ ext.
Proof.
  intros quota cfg center fuel a modkeys from_hotkey s res s'.
  apply return_to_master_pointer.
Qed.

Lemma return_to_master_restores_pointer_witness :
  exists res s',
    focus_node 16 Witness.plain Demo.center (fail_remote 16 Witness.plain Demo.center 2)
               NT_MASTER [] true Witness.on_alpha = Ok res s' /\
    focused_remote s' = None /\ mousepos s' = XY 10 10.
Proof.
  eexists _, _. split; [vm_compute; reflexivity |].
  match goal with
  | |- focused_remote ?s' = _ /\ _ =>
      destruct (return_to_master_restores_pointer 16 Witness.plain Demo.center 2 0%nat
                  [] true Witness.on_alpha 1 s' eq_refl eq_refl)
        as (Hfoc & Hpos & _)
  end.
  split; [exact Hfoc | exact Hpos].
Defined.

(** X17.  The failure of the focused remote hands the focus back to the
    master: when the backlog quota admits the messages of the hand-back,
    [fail_remote] returns with the master focused, the input grab released
    and the pointer restored to the position saved when the master lost
    the focus; the remote is FAILED or PERMFAILED. *)
Theorem failure_of_focused_remote_frees_inputs :
  forall quota cfg center fuel a r reason s,
    remotes s !! a = Some r ->
    focused_remote s = Some a ->
    handback_fits quota cfg a s ->
    exists s' r',
      fail_remote quota cfg center (S fuel) a reason s = Ok tt s' /\
      focused_remote s' = None /\
      mousepos s' = saved_master_mousepos s /\
      (exists ext, trace s' = trace s ++ ext /\ EvUngrabInputs ∈ ext) /\
      remotes s' !! a = Some r' /\
      (state r' = CS_FAILED \/ state r' = CS_PERMFAILED) /\
      failcount r' = failcount r + 1.
Proof.
  intros quota cfg center fuel a r reason s Hr Hfoc Hfit.
  destruct (total_fail_remote_body quota cfg center (fail_remote quota cfg center fuel)
              a (held_modifiers s) (clock s) (failcount r) (next_reconnect_time r)
              (state r) (focused_remote s) (length (sendqueue (chan r))) reason)
    with (s := s) as ([] & s' & Hrun & r' & Hr' & Hfc & Hres).
  - intros Hfoc'. specialize (Hfit Hfoc'). unfold handback_messages in Hfit.
    unfold dim_messages. lia.
  - repeat split. exists r. repeat split; try assumption. lia.
  - pose proof (fail_remote_leaving_pointer quota cfg center (saved_master_mousepos s)
                  (trace s) a (S fuel) reason s (leaving_pointer_start a s Hfoc))
      as Hpost.
    cbn [fail_remote] in Hpost. rewrite Hrun in Hpost.
    destruct Hpost as (Hnone & _ & Hpos & Hext).
    exists s', r'. split; [exact Hrun |].
    repeat split; try assumption.
    destruct (MAX_RECONNECT_ATTEMPTS <? failcount r + 1);
      [right | left]; apply Hres.
Qed.

Lemma failure_of_focused_remote_frees_inputs_witness :
  exists s',
    fail_remote 16 Witness.plain Demo.center 1 0%nat "connection lost" Witness.on_alpha
    = Ok tt s' /\
    focused_remote s' = None /\ mousepos s' = XY 10 10.
Proof.
  destruct (failure_of_focused_remote_frees_inputs 16 Witness.plain Demo.center 0
              0%nat _ "connection lost" Witness.on_alpha eq_refl eq_refl)
    as (s' & r' & Hrun & Hfoc & Hpos & _).
  - intros _. vm_compute. lia.
  - exists s'. split; [exact Hrun |]. split; [exact Hfoc | exact Hpos].
Defined.

(** ** Leaving the master and coming back *)

Section OnMaster.
Variable quota : nat.
Variable cfg : config_t.
Variable center : xypoint.
Variable I : world -> Prop.
Hypothesis stable : wire_stable I.
Hypothesis on_master : forall s, I s -> focused_remote s = None.

(** While the master has the focus, handing the focus to the master is a
    null switch. *)
Lemma handback_on_master rec modkeys from_hotkey :
  (forall r reason, preserves I (rec r reason)) ->
  preserves I (focus_switch quota cfg center rec None modkeys from_hotkey).
Proof.
  intros Hrec. unfold focus_switch.
  apply hoare_gets_bind. intros f0.
  apply hoare_seq with (R := I).
  { apply hoare_pre with (P' := I); [intros s [Hs _]; exact Hs |].
    destruct (_ || _);
      [apply wire_indicate_switch; [exact stable | exact Hrec] | apply preserves_ret]. }
  apply hoare_gets_bind. intros f1.
  destruct (decide (None = f1)) as [_ | Hne]; [intros s [Hs _]; exact Hs |].
  intros s [Hs Hf1]. apply on_master in Hs. congruence.
Qed.

(** So the failure of a remote changes nothing about the master's side. *)
Lemma fail_remote_on_master fuel r reason :
  preserves I (fail_remote quota cfg center fuel r reason).
Proof.
  revert r reason. induction fuel as [| fuel IH]; intros r reason; simpl.
  - apply preserves_halt.
  - apply wire_fail_remote_body; [exact stable |].
    intros modkeys from_hotkey. apply handback_on_master. exact IH.
Qed.
End OnMaster.

(** The master has the focus and the pointer is at [m]. *)
Definition master_pointer (m : xypoint) (tr0 : list event) (s : world) : Prop :=
  focused_remote s = None /\ mousepos s = m /\ exists ext, trace s = tr0 ++ ext.

(** The master is about to lose the focus: the pointer position [m] has
    been saved, the inputs grabbed and the pointer moved to [c]. *)
Definition master_left (m c : xypoint) (tr0 : list event) (s : world) : Prop :=
  focused_remote s = None /\ saved_master_mousepos s = m /\ mousepos s = c /\
  exists ext, trace s = tr0 ++ ext /\ EvGrabInputs ∈ ext.

Lemma master_pointer_stable m tr0 : wire_stable (master_pointer m tr0).
Proof.
  constructor; try (intros; assumption).
  intros e s (Hfoc & Hpos & ext & Htr). repeat split; try assumption.
  exists (ext ++ [e]). simpl. rewrite Htr, app_assoc. reflexivity.
Qed.

Lemma master_left_stable m c tr0 : wire_stable (master_left m c tr0).
Proof.
  constructor; try (intros; assumption).
  intros e s (Hfoc & Hsaved & Hpos & ext & Htr & Hin). repeat split; try assumption.
  exists (ext ++ [e]). simpl. rewrite Htr, app_assoc. split; [reflexivity |].
  apply elem_of_app. left. exact Hin.
Qed.

Lemma focus_switch_leaves_master quota cfg center fuel m tr0 b modkeys from_hotkey :
  hoare (master_pointer m tr0)
        (focus_switch quota cfg center (fail_remote quota cfg center fuel) (Some b)
                      modkeys from_hotkey)
        (fun ret s => ret = 1 /\ focused_remote s = Some b /\
                      saved_master_mousepos s = m /\ mousepos s = center /\
                      exists ext, trace s = tr0 ++ ext /\ EvGrabInputs ∈ ext).
Proof.
  pose proof (fun r reason =>
                fail_remote_on_master quota cfg center _ (master_pointer_stable m tr0)
                  (fun s Hs => proj1 Hs) fuel r reason) as Hrec0.
  pose proof (fun r reason =>
                fail_remote_on_master quota cfg center _ (master_left_stable m center tr0)
                  (fun s Hs => proj1 Hs) fuel r reason) as Hrec1.
  unfold focus_switch.
  apply hoare_gets_bind. intros f0.
  apply hoare_seq with (R := master_pointer m tr0).
  { apply hoare_pre with (P' := master_pointer m tr0); [intros s [Hs _]; exact Hs |].
    destruct (_ || _);
      [ apply wire_indicate_switch; [apply master_pointer_stable | exact Hrec0]
      | apply preserves_ret ]. }
  apply hoare_gets_bind. intros f1.
  apply (hoare_pure _ (f1 = None)).
  { intros s [(Hfoc & _) Hf1]. congruence. }
  intros ->. destruct (decide (Some b = None)) as [Heq | _]; [discriminate |].
  apply hoare_pre with (P' := master_pointer m tr0); [intros s [Hs _]; exact Hs |].
  apply hoare_seq
    with (R := fun s => focused_remote s = Some b /\
                        saved_master_mousepos s = m /\ mousepos s = center /\
                        exists ext, trace s = tr0 ++ ext /\ EvGrabInputs ∈ ext);
    [| intros s Hs; simpl; auto].
  apply hoare_seq with (R := master_left m center tr0).
  2:{ apply hoare_modify. intros s (_ & Hsaved & Hpos & Hext). auto. }
  apply hoare_seq with (R := master_left m center tr0).
  2:{ apply hoare_gets_bind. intros f3.
      apply hoare_pre with (P' := master_left m center tr0); [intros s [Hs _]; exact Hs |].
      apply wire_transfer_modifiers; [apply master_left_stable | exact Hrec1]. }
  apply hoare_seq with (R := master_left m center tr0).
  2:{ apply hoare_gets_bind. intros f2.
      apply hoare_pre with (P' := master_left m center tr0); [intros s [Hs _]; exact Hs |].
      apply wire_transfer_clipboard; [apply master_left_stable | exact Hrec1]. }
  intros s (Hfoc & Hpos & ext & Htr).
  unfold get_mousepos, grab_inputs, set_mousepos, bind, gets, modify. simpl.
  repeat split; try assumption.
  exists (ext ++ [EvGrabInputs; EvSetMousepos center]).
  split; [simpl; rewrite Htr, <- !app_assoc; reflexivity |].
  apply elem_of_app. right. left.
Qed.

(** X18.  A real switch from the master to a remote saves the pointer
    position, grabs the inputs and puts the pointer at the centre of the
    screen; when the focus then returns to the master the grab is released
    and the pointer is back exactly where it was before the first switch.
    This holds also when a remote fails during either switch. *)
Theorem pointer_round_trip :
  forall quota cfg center fuel1 fuel2 b modkeys1 hotkey1 modkeys2 hotkey2 s s1 res s2,
    focused_remote s = None ->
    focus_node quota cfg center (fail_remote quota cfg center fuel1) (NT_REMOTE b)
               modkeys1 hotkey1 s = Ok 1 s1 ->
    focus_node quota cfg center (fail_remote quota cfg center fuel2) NT_MASTER
               modkeys2 hotkey2 s1 = Ok res s2 ->
    (focused_remote s1 = Some b /\ mousepos s1 = center /\
     exists ext, trace s1 = trace s ++ ext /\ EvGrabInputs ∈ ext) /\
    (focused_remote s2 = None /\ mousepos s2 = mousepos s /\
     exists ext, trace s2 = trace s1 ++ ext /\ EvUngrabInputs ∈ ext).
Proof.
  intros quota cfg center fuel1 fuel2 b modkeys1 hotkey1 modkeys2 hotkey2 s s1 res s2
    Hfoc Hout Hback.
  assert (Hs : master_pointer (mousepos s) (trace s) s).
  { repeat split; [exact Hfoc |]. exists []. rewrite app_nil_r. reflexivity. }
  assert (Hleg : focused_remote s1 = Some b /\
                 saved_master_mousepos s1 = mousepos s /\ mousepos s1 = center /\
                 exists ext, trace s1 = trace s ++ ext /\ EvGrabInputs ∈ ext).
  { cbn [focus_node] in Hout.
    unfold bind at 1 in Hout. unfold remote_field at 1, gets at 1 in Hout.
    destruct (decide (from_option (fun x => Some (state x)) None (remotes s !! b)
                      = Some CS_CONNECTED)) as [_ | _].
    - pose proof (focus_switch_leaves_master quota cfg center fuel1 (mousepos s)
                    (trace s) b modkeys1 hotkey1 s Hs) as Hpost.
      rewrite Hout in Hpost. apply Hpost.
    - unfold bind, remote_field, gets, elog, modify, ret in Hout. discriminate. }
  destruct Hleg as (Hfoc1 & Hsaved1 & Hpos1 & Hext1).
  destruct (return_to_master_pointer quota cfg center fuel2 b modkeys2 hotkey2 s1 res s2
              Hfoc1 Hback) as (Hfoc2 & Hpos2 & _ & Hext2).
  split; [auto |]. split; [exact Hfoc2 |]. split; [congruence | exact Hext2].
Qed.

Lemma pointer_round_trip_witness :
  exists s1 res s2,
    focus_node 16 Witness.plain Demo.center (fail_remote 16 Witness.plain Demo.center 2)
               (NT_REMOTE 0%nat) [] true Witness.connected = Ok 1 s1 /\
    focus_node 16 Witness.plain Demo.center (fail_remote 16 Witness.plain Demo.center 2)
               NT_MASTER [] true s1 = Ok res s2 /\
    mousepos s1 = Demo.center /\ mousepos s2 = XY 10 10.
Proof.
  eexists _, _, _.
  split; [vm_compute; reflexivity |]. split; [vm_compute; reflexivity |].
  match goal with
  | |- mousepos ?s1 = _ /\ mousepos ?s2 = _ =>
      destruct (pointer_round_trip 16 Witness.plain Demo.center 2 2 0%nat [] true [] true
                  Witness.connected s1 1 s2 eq_refl eq_refl eq_refl)
        as ((_ & Hpos1 & _) & (_ & Hpos2 & _))
  end.
  split; [exact Hpos1 | exact Hpos2].
Defined.

(** ** The neighbour graph at start-up *)

(** What [check_remotes] reads and writes of a [struct remote]. *)
Record node_decl := NodeDecl
  { nd_alias : string;
    nd_hostname : string;
    nd_neighbors : dirmap noderef;
    nd_reachable : bool }.

(** The configuration as the parser leaves it: the neighbours of the
    master and the list of remotes. *)
Record topology := Topology
  { tp_master : dirmap noderef;
    tp_nodes : list node_decl }.

Definition set_nd_neighbors (v : dirmap noderef) (n : node_decl) : node_decl :=
  NodeDecl (nd_alias n) (nd_hostname n) v (nd_reachable n).

Definition set_nd_reachable (v : bool) (n : node_decl) : node_decl :=
  NodeDecl (nd_alias n) (nd_hostname n) (nd_neighbors n) v.

(** First the remote whose alias is [name], failing that the first whose
    host name is. *)
Definition find_remote (nodes : list node_decl) (name : string) : option rid :=
  match list_find (fun n => nd_alias n = name) nodes with
  | Some (i, _) => Some i
  | None =>
      match list_find (fun n => nd_hostname n = name) nodes with
      | Some (i, _) => Some i
      | None => None
      end
  end.

(** How start-up ends when it does not get to the event loop. *)
Inductive startup_error :=
| SE_OutOfFuel
| SE_NoSuchRemote (name : string).

(** A [struct noderef*] into the configuration: an entry of the neighbour
    array of the master ([None]) or of a remote. *)
Definition neighbor_loc : Type := option rid * direction_t.

Definition get_ref (loc : neighbor_loc) (t : topology) : noderef :=
  match loc.1 with
  | None => dm_get loc.2 (tp_master t)
  | Some r => from_option (fun n => dm_get loc.2 (nd_neighbors n)) NT_NONE (tp_nodes t !! r)
  end.

Definition set_ref (loc : neighbor_loc) (v : noderef) (t : topology) : topology :=
  match loc.1 with
  | None => Topology (dm_set loc.2 v (tp_master t)) (tp_nodes t)
  | Some r =>
      Topology (tp_master t)
               (alter (fun n => set_nd_neighbors (dm_set loc.2 v (nd_neighbors n)) n) r
                      (tp_nodes t))
  end.

(** [resolve_noderef]: a name is replaced, in place, by the remote it
    names; the program exits when there is none. *)
Definition resolve_noderef (loc : neighbor_loc) (t : topology)
  : startup_error + topology :=
  match get_ref loc t with
  | NT_REMOTE_TMPNAME name =>
      match find_remote (tp_nodes t) name with
      | Some r => inr (set_ref loc (NT_REMOTE r) t)
      | None => inl (SE_NoSuchRemote name)
      end
  | _ => inr t
  end.

(** [rmt->reachable]; a handle outside the registry does not arise and
    reads as already seen. *)
Definition seen (t : topology) (r : rid) : bool :=
  from_option nd_reachable true (tp_nodes t !! r).

Definition set_reachable (r : rid) (t : topology) : topology :=
  Topology (tp_master t) (alter (set_nd_reachable true) r (tp_nodes t)).

(** A loop over directions whose body may end the program. *)
Fixpoint for_each_dir (dirs : list direction_t)
  (body : direction_t -> topology -> startup_error + topology) (t : topology)
  : startup_error + topology :=
  match dirs with
  | [] => inr t
  | d :: rest =>
      match body d t with
      | inl e => inl e
      | inr t' => for_each_dir rest body t'
      end
  end.

(** [mark_reachable], with at most [fuel] calls nested in one another. *)
Fixpoint mark_reachable (fuel : nat) (loc : neighbor_loc) (t : topology)
  : startup_error + topology :=
  match fuel with
  | O => inl SE_OutOfFuel
  | S fuel' =>
      let visit (r : rid) (t1 : topology) :=
        let was_seen := seen t1 r in
        let t2 := set_reachable r t1 in
        if was_seen then inr t2
        else for_each_dir all_directions
               (fun dir => mark_reachable fuel' (Some r, dir)) t2 in
      match get_ref loc t with
      | NT_REMOTE_TMPNAME _ =>
          match resolve_noderef loc t with
          | inl e => inl e
          | inr t1 =>
              match get_ref loc t1 with
              | NT_REMOTE r => visit r t1
              | _ => inr t1
              end
          end
      | NT_REMOTE r => visit r t
      | _ => inr t
      end
  end.

Definition is_none (n : noderef) : bool :=
  match n with NT_NONE => true | _ => false end.

(** [num_neighbors] at the end of the loop over the directions. *)
Definition num_neighbors (n : node_decl) : nat :=
  length (filter (fun dir => is_none (dm_get dir (nd_neighbors n)) = false)
                 all_directions).

(** The warnings of [check_remotes] for one remote. *)
Definition remote_warnings (n : node_decl) : list string :=
  (if nd_reachable n then []
   else ["Warning: remote '" +:+ nd_alias n +:+ "' is not reachable"])
  ++ (if (num_neighbors n =? 0)%nat
      then ["Warning: remote '" +:+ nd_alias n +:+ "' has no neighbors"]
      else []).

(** [check_remotes]: the configuration with the names resolved and the
    reachable remotes marked, and the warnings logged. *)
Definition check_remotes (fuel : nat) (t : topology)
  : startup_error + (topology * list string) :=
  match for_each_dir all_directions (fun dir => mark_reachable fuel (None, dir)) t with
  | inl e => inl e
  | inr t' => inr (t', flat_map remote_warnings (tp_nodes t'))
  end.

(** *** What [check_remotes] computes *)

(** The remote a reference stands for. *)
Definition target (nodes : list node_decl) (n : noderef) : option rid :=
  match n with
  | NT_REMOTE r => Some r
  | NT_REMOTE_TMPNAME name => find_remote nodes name
  | _ => None
  end.

(** The remotes that can be reached from the master by following
    neighbour references. *)
Inductive reach (t : topology) : rid -> Prop :=
| reach_master dir dst :
    target (tp_nodes t) (get_ref (None, dir) t) = Some dst -> reach t dst
| reach_step r dir dst :
    reach t r ->
    target (tp_nodes t) (get_ref (Some r, dir) t) = Some dst -> reach t dst.

Definition names (t : topology) : list (string * string) :=
  map (fun n => (nd_alias n, nd_hostname n)) (tp_nodes t).

(** The number of remotes that are not marked. *)
Fixpoint count_unmarked (nodes : list node_decl) : nat :=
  match nodes with
  | [] => 0
  | n :: rest => ((if nd_reachable n then 0 else 1) + count_unmarked rest)%nat
  end.

Definition unmarked (t : topology) : nat := count_unmarked (tp_nodes t).

(** The reference is resolved and the remote it names, if any, is marked. *)
Definition done_ref (t : topology) (n : noderef) : Prop :=
  match n with
  | NT_REMOTE r => seen t r = true
  | NT_REMOTE_TMPNAME _ => False
  | _ => True
  end.

(** What [mark_reachable] may do to a configuration: names stay, marks
    are only set, and a reference changes only from a name to the remote
    it names. *)
Definition evolves (t t' : topology) : Prop :=
  names t' = names t /\
  (forall r, seen t r = true -> seen t' r = true) /\
  (unmarked t' <= unmarked t)%nat /\
  (forall loc,
      get_ref loc t' = get_ref loc t \/
      exists name r, get_ref loc t = NT_REMOTE_TMPNAME name /\
                     find_remote (tp_nodes t) name = Some r /\
                     get_ref loc t' = NT_REMOTE r).

Lemma find_remote_names nodes nodes' name :
  map (fun n => (nd_alias n, nd_hostname n)) nodes
  = map (fun n => (nd_alias n, nd_hostname n)) nodes' ->
  find_remote nodes name = find_remote nodes' name.
Proof.
  intros Hnames.
  assert (Hfind : forall (proj : string * string -> string) (l : list node_decl),
             fst <$> list_find (fun n => proj (nd_alias n, nd_hostname n) = name) l
             = fst <$> list_find (fun x => proj x = name)
                         (map (fun n => (nd_alias n, nd_hostname n)) l)).
  { intros proj l. rewrite list_find_fmap.
    destruct (list_find _ l) as [[i n] |]; reflexivity. }
  pose proof (Hfind fst nodes) as Ha. pose proof (Hfind fst nodes') as Ha'.
  pose proof (Hfind snd nodes) as Hh. pose proof (Hfind snd nodes') as Hh'.
  rewrite Hnames in Ha, Hh. rewrite <- Ha' in Ha. rewrite <- Hh' in Hh.
  simpl in Ha, Hh. unfold find_remote.
  destruct (list_find (fun n => nd_alias n = name) nodes) as [[i n] |],
           (list_find (fun n => nd_alias n = name) nodes') as [[i' n'] |];
    simpl in Ha; try discriminate; [congruence |].
  destruct (list_find (fun n => nd_hostname n = name) nodes) as [[j m] |],
           (list_find (fun n => nd_hostname n = name) nodes') as [[j' m'] |];
    simpl in Hh; try discriminate; congruence.
Qed.

Lemma evolves_refl t : evolves t t.
Proof. repeat split; auto. Qed.

Lemma evolves_find t t' name :
  evolves t t' -> find_remote (tp_nodes t') name = find_remote (tp_nodes t) name.
Proof. intros (Hnames & _). apply find_remote_names. exact Hnames. Qed.

Lemma evolves_trans t1 t2 t3 : evolves t1 t2 -> evolves t2 t3 -> evolves t1 t3.
Proof.
  intros H12 H23.
  pose proof (fun name => evolves_find t1 t2 name H12) as Hfind.
  destruct H12 as (Hn12 & Hs12 & Hu12 & Hr12), H23 as (Hn23 & Hs23 & Hu23 & Hr23).
  split; [congruence |]. split; [auto |]. split; [lia |].
  intros loc. destruct (Hr23 loc) as [Heq23 | (name & r & Hname & Hfind23 & Hres)].
  - rewrite Heq23. apply Hr12.
  - destruct (Hr12 loc) as [Heq12 | (name' & r' & Hname' & _ & Hres')].
    + right. exists name, r. rewrite <- Heq12, <- Hfind. auto.
    + congruence.
Qed.

Lemma evolves_target t t' loc :
  evolves t t' ->
  target (tp_nodes t') (get_ref loc t') = target (tp_nodes t) (get_ref loc t).
Proof.
  intros Hev. pose proof (fun name => evolves_find t t' name Hev) as Hfind.
  destruct Hev as (_ & _ & _ & Hrefs).
  destruct (Hrefs loc) as [-> | (name & r & -> & Hname & ->)].
  - destruct (get_ref loc t); simpl; auto.
  - simpl. congruence.
Qed.

Lemma evolves_done_ref t t' loc :
  evolves t t' -> done_ref t (get_ref loc t) -> done_ref t' (get_ref loc t').
Proof.
  intros (_ & Hseen & _ & Hrefs) Hdone.
  destruct (Hrefs loc) as [-> | (name & r & Hname & _)].
  - destruct (get_ref loc t); simpl in *; auto.
  - rewrite Hname in Hdone. contradiction.
Qed.

Lemma map_alter_same {X Y} (h : X -> Y) (g : X -> X) (i : nat) (l : list X) :
  (forall x, h (g x) = h x) -> map h (alter g i l) = map h l.
Proof.
  intros Hg. revert i. induction l as [| x l IH]; intros [| i]; simpl; try reflexivity.
  - rewrite Hg. reflexivity.
  - f_equal. apply IH.
Qed.

Lemma dm_get_set_ne {X} (d d' : direction_t) (x : X) (m : dirmap X) :
  d <> d' -> dm_get d (dm_set d' x m) = dm_get d m.
Proof. destruct d, d'; intros Hne; try reflexivity; contradiction. Qed.

Lemma unmarked_alter_same g i nodes :
  (forall n, nd_reachable (g n) = nd_reachable n) ->
  count_unmarked (alter g i nodes) = count_unmarked nodes.
Proof.
  intros Hg. revert i. induction nodes as [| n nodes IH]; intros [| i]; simpl;
    try reflexivity.
  - rewrite Hg. reflexivity.
  - f_equal. apply IH.
Qed.

Lemma unmarked_set_reachable i nodes :
  (count_unmarked (alter (set_nd_reachable true) i nodes) <= count_unmarked nodes)%nat /\
  (forall n, nodes !! i = Some n -> nd_reachable n = false ->
             (count_unmarked (alter (set_nd_reachable true) i nodes)
              < count_unmarked nodes)%nat).
Proof.
  revert i. induction nodes as [| n nodes IH]; intros [| i]; simpl.
  - split; [lia | intros ? [=]].
  - split; [lia | intros ? [=]].
  - split; [destruct (nd_reachable n); lia |].
    intros ? [= <-] ->. lia.
  - destruct (IH i) as [Hle Hlt]. unfold alter in Hle, Hlt.
    destruct (nd_reachable n); (split; [lia |]);
      intros m Hm Hf; specialize (Hlt m Hm Hf); lia.
Qed.

Lemma get_ref_set_ref_eq loc v t :
  (forall r, loc.1 = Some r -> (r < length (tp_nodes t))%nat) ->
  get_ref loc (set_ref loc v t) = v.
Proof.
  destruct loc as [[r |] d]; unfold get_ref, set_ref; simpl; intros Hrange.
  - rewrite list_lookup_alter_eq.
    destruct (lookup_lt_is_Some_2 (tp_nodes t) r (Hrange r eq_refl)) as [n ->].
    simpl. apply dm_get_set.
  - apply dm_get_set.
Qed.

Lemma get_ref_set_ref_ne loc loc' v t :
  loc' <> loc -> get_ref loc' (set_ref loc v t) = get_ref loc' t.
Proof.
  destruct loc as [[r |] d], loc' as [[r' |] d']; unfold get_ref, set_ref; simpl;
    intros Hne; try reflexivity.
  - destruct (decide (r = r')) as [-> | Hr].
    + rewrite list_lookup_alter_eq. destruct (tp_nodes t !! r') as [n |]; simpl;
        [| reflexivity].
      apply dm_get_set_ne. congruence.
    + rewrite list_lookup_alter_ne by exact Hr. reflexivity.
  - apply dm_get_set_ne. congruence.
Qed.

Lemma seen_set_ref loc v t r : seen (set_ref loc v t) r = seen t r.
Proof.
  destruct loc as [[r0 |] d]; unfold seen, set_ref; simpl; [| reflexivity].
  destruct (decide (r0 = r)) as [-> | Hne].
  - rewrite list_lookup_alter_eq. destruct (tp_nodes t !! r); reflexivity.
  - rewrite list_lookup_alter_ne by exact Hne. reflexivity.
Qed.

Lemma get_ref_in_range r d t :
  get_ref (Some r, d) t <> NT_NONE -> (r < length (tp_nodes t))%nat.
Proof.
  unfold get_ref. simpl. intros Hne.
  destruct (tp_nodes t !! r) as [n |] eqn:Hr; [| contradiction].
  apply lookup_lt_Some in Hr. exact Hr.
Qed.

(** Resolving a name in place. *)
Lemma set_ref_evolves loc name r t :
  get_ref loc t = NT_REMOTE_TMPNAME name ->
  find_remote (tp_nodes t) name = Some r ->
  evolves t (set_ref loc (NT_REMOTE r) t) /\
  get_ref loc (set_ref loc (NT_REMOTE r) t) = NT_REMOTE r.
Proof.
  intros Hname Hfind.
  assert (Hsame : get_ref loc (set_ref loc (NT_REMOTE r) t) = NT_REMOTE r).
  { apply get_ref_set_ref_eq. intros r0 Hloc. destruct loc as [l1 d]. simpl in Hloc.
    subst l1. apply (get_ref_in_range r0 d). rewrite Hname. discriminate. }
  split; [| exact Hsame].
  split; [| split; [| split]].
  - destruct loc as [[r0 |] d]; unfold names, set_ref; simpl; [| reflexivity].
    apply map_alter_same. reflexivity.
  - intros r'. rewrite seen_set_ref. auto.
  - destruct loc as [[r0 |] d]; unfold unmarked, set_ref; simpl; [| lia].
    rewrite unmarked_alter_same by reflexivity. lia.
  - intros loc'. destruct (decide (loc' = loc)) as [-> | Hne].
    + right. exists name, r. auto.
    + left. apply get_ref_set_ref_ne. exact Hne.
Qed.

Lemma get_ref_set_reachable loc r t : get_ref loc (set_reachable r t) = get_ref loc t.
Proof.
  destruct loc as [[r0 |] d]; unfold get_ref, set_reachable; simpl; [| reflexivity].
  destruct (decide (r = r0)) as [-> | Hne].
  - rewrite list_lookup_alter_eq. destruct (tp_nodes t !! r0); reflexivity.
  - rewrite list_lookup_alter_ne by exact Hne. reflexivity.
Qed.

Lemma seen_set_reachable r r' t :
  seen (set_reachable r t) r' = if decide (r' = r) then true else seen t r'.
Proof.
  unfold seen, set_reachable. simpl.
  destruct (decide (r' = r)) as [-> | Hne].
  - rewrite list_lookup_alter_eq. destruct (tp_nodes t !! r); reflexivity.
  - rewrite list_lookup_alter_ne by congruence. reflexivity.
Qed.

(** Marking a remote. *)
Lemma set_reachable_evolves r t :
  evolves t (set_reachable r t) /\
  (seen t r = false -> (unmarked (set_reachable r t) < unmarked t)%nat).
Proof.
  split; [split; [| split; [| split]] |].
  - unfold names, set_reachable. simpl. apply map_alter_same. reflexivity.
  - intros r' Hseen. rewrite seen_set_reachable.
    destruct (decide (r' = r)); [reflexivity | exact Hseen].
  - apply unmarked_set_reachable.
  - intros loc. left. apply get_ref_set_reachable.
  - unfold seen, unmarked, set_reachable. simpl.
    destruct (tp_nodes t !! r) as [n |] eqn:Hr; simpl; [| discriminate].
    intros Hf. eapply (proj2 (unmarked_set_reachable r (tp_nodes t))); eassumption.
Qed.

(** Every neighbour reference of the remote is resolved and leads to a
    marked remote. *)
Definition finished (t : topology) (r : rid) : Prop :=
  forall dir, done_ref t (get_ref (Some r, dir) t).

(** Every marked remote is finished, those still being visited apart. *)
Definition closed_but (visiting : list rid) (t : topology) : Prop :=
  forall r, seen t r = true -> r ∉ visiting -> finished t r.

Lemma evolves_finished t t' r : evolves t t' -> finished t r -> finished t' r.
Proof. intros Hev Hfin dir. eapply evolves_done_ref; [exact Hev | apply Hfin]. Qed.

Lemma evolves_length t t' : evolves t t' -> length (tp_nodes t') = length (tp_nodes t).
Proof.
  intros (Hnames & _). unfold names in Hnames.
  apply (f_equal length) in Hnames. rewrite !length_map in Hnames. exact Hnames.
Qed.

Section MarkReachable.
Variable t0 : topology.
(** A set of remotes that is closed under the neighbour references of the
    configuration [t0]. *)
Variable R : rid -> Prop.
Hypothesis R_closed :
  forall r dir dst,
    R r -> target (tp_nodes t0) (get_ref (Some r, dir) t0) = Some dst -> R dst.

Definition sound (t : topology) : Prop :=
  forall r, (r < length (tp_nodes t))%nat -> seen t r = true -> R r.

Definition mark_post (visiting : list rid) (t : topology)
  (P : topology -> Prop) (res : startup_error + topology) : Prop :=
  match res with
  | inl SE_OutOfFuel => False
  | inl (SE_NoSuchRemote name) => find_remote (tp_nodes t0) name = None
  | inr t' => evolves t t' /\ closed_but visiting t' /\ sound t' /\ P t'
  end.

Lemma for_each_dir_spec visiting (src : option rid) bound
  (body : direction_t -> topology -> startup_error + topology) :
  (forall d t,
      evolves t0 t -> closed_but visiting t -> sound t -> (unmarked t < bound)%nat ->
      mark_post visiting t (fun t' => done_ref t' (get_ref (src, d) t')) (body d t)) ->
  forall dirs t,
    evolves t0 t -> closed_but visiting t -> sound t -> (unmarked t < bound)%nat ->
    mark_post visiting t
      (fun t' => forall d, d ∈ dirs -> done_ref t' (get_ref (src, d) t'))
      (for_each_dir dirs body t).
Proof.
  intros Hbody dirs. induction dirs as [| d dirs IH]; intros t Hev Hclosed Hsound Hfuel.
  - simpl. repeat split; try assumption; try apply evolves_refl.
    intros d Hd. inversion Hd.
  - simpl. specialize (Hbody d t Hev Hclosed Hsound Hfuel).
    destruct (body d t) as [e | t1]; [exact Hbody |].
    destruct Hbody as (Hev1 & Hclosed1 & Hsound1 & Hdone1).
    assert (Hfuel1 : (unmarked t1 < bound)%nat)
      by (destruct Hev1 as (_ & _ & Hle & _); lia).
    specialize (IH t1 (evolves_trans _ _ _ Hev Hev1) Hclosed1 Hsound1 Hfuel1).
    destruct (for_each_dir dirs body t1) as [e | t2]; [exact IH |].
    destruct IH as (Hev2 & Hclosed2 & Hsound2 & Hdone2).
    split; [eapply evolves_trans; eassumption |].
    split; [exact Hclosed2 |]. split; [exact Hsound2 |].
    intros d' Hd'. apply elem_of_cons in Hd'. destruct Hd' as [-> | Hd'].
    + eapply evolves_done_ref; eassumption.
    + apply Hdone2. exact Hd'.
Qed.

Lemma mark_reachable_spec fuel :
  forall loc t visiting,
    evolves t0 t -> closed_but visiting t -> sound t ->
    (forall dst, target (tp_nodes t0) (get_ref loc t0) = Some dst -> R dst) ->
    (unmarked t < fuel)%nat ->
    mark_post visiting t (fun t' => done_ref t' (get_ref loc t'))
              (mark_reachable fuel loc t).
Proof.
  induction fuel as [| fuel IH]; intros loc t visiting Hev Hclosed Hsound Hroot Hfuel;
    [lia |].
  assert (Hvisit : forall r t1,
             evolves t t1 ->
             (forall r', seen t1 r' = true -> seen t r' = true) ->
             get_ref loc t1 = NT_REMOTE r ->
             mark_post visiting t (fun t' => done_ref t' (get_ref loc t'))
               (if seen t1 r then inr (set_reachable r t1)
                else for_each_dir all_directions
                       (fun dir => mark_reachable fuel (Some r, dir))
                       (set_reachable r t1))).
  { intros r t1 Hev1 Hsame Hloc.
    pose proof (evolves_trans _ _ _ Hev Hev1) as Hev01.
    assert (HR : R r).
    { apply Hroot. rewrite <- (evolves_target t0 t1 loc Hev01), Hloc. reflexivity. }
    assert (Hclosed1 : closed_but visiting t1).
    { intros r' Hseen Hnot. eapply evolves_finished; [exact Hev1 |].
      apply Hclosed; auto. }
    assert (Hsound1 : sound t1).
    { intros r' Hrange Hseen. apply Hsound; [| auto].
      rewrite <- (evolves_length t t1 Hev1). exact Hrange. }
    destruct (set_reachable_evolves r t1) as [Hev2 Hless].
    assert (Hsound2 : sound (set_reachable r t1)).
    { intros r' Hrange Hseen. rewrite seen_set_reachable in Hseen.
      destruct (decide (r' = r)) as [-> | Hne]; [exact HR |].
      apply Hsound1; [| exact Hseen].
      rewrite <- (evolves_length _ _ Hev2). exact Hrange. }
    assert (Hloc2 : get_ref loc (set_reachable r t1) = NT_REMOTE r)
      by (rewrite get_ref_set_reachable; exact Hloc).
    assert (Hseen2 : seen (set_reachable r t1) r = true).
    { rewrite seen_set_reachable. destruct (decide (r = r)); congruence. }
    destruct (seen t1 r) eqn:Hseen1.
    - split; [eapply evolves_trans; eassumption |].
      split; [| split; [exact Hsound2 |]].
      + intros r' Hseen Hnot. eapply evolves_finished; [exact Hev2 |].
        apply Hclosed1; [| exact Hnot].
        rewrite seen_set_reachable in Hseen.
        destruct (decide (r' = r)) as [-> | _]; assumption.
      + simpl. rewrite Hloc2. exact Hseen2.
    - assert (Hclosed2 : closed_but (r :: visiting) (set_reachable r t1)).
      { intros r' Hseen Hnot. apply not_elem_of_cons in Hnot. destruct Hnot as [Hne Hnot].
        eapply evolves_finished; [exact Hev2 |]. apply Hclosed1; [| exact Hnot].
        rewrite seen_set_reachable in Hseen.
        destruct (decide (r' = r)); [contradiction | exact Hseen]. }
      assert (Hfuel2 : (unmarked (set_reachable r t1) < fuel)%nat).
      { specialize (Hless eq_refl). destruct Hev1 as (_ & _ & Hle & _). lia. }
      pose proof (for_each_dir_spec (r :: visiting) (Some r) fuel
                    (fun dir => mark_reachable fuel (Some r, dir))) as Hloop.
      specialize (Hloop
        (fun d t' Hev' Hcl' Hso' Hfu' =>
           IH (Some r, d) t' (r :: visiting) Hev' Hcl' Hso'
              (fun dst Hdst => R_closed r d dst HR Hdst) Hfu')
        all_directions (set_reachable r t1)
        (evolves_trans _ _ _ Hev01 Hev2) Hclosed2 Hsound2 Hfuel2).
      destruct (for_each_dir all_directions _ (set_reachable r t1)) as [e | t3];
        [exact Hloop |].
      destruct Hloop as (Hev3 & Hclosed3 & Hsound3 & Hdone3).
      split; [eapply evolves_trans; [| exact Hev3]; eapply evolves_trans; eassumption |].
      assert (Hseen3 : seen t3 r = true) by (apply Hev3; exact Hseen2).
      split; [| split; [exact Hsound3 |]].
      + intros r' Hseen Hnot. destruct (decide (r' = r)) as [-> | Hne].
        * intros d. apply Hdone3. destruct d; unfold all_directions;
            repeat first [left | right].
        * apply Hclosed3; [exact Hseen |]. apply not_elem_of_cons. auto.
      + simpl.
        assert (Hloc3 : get_ref loc t3 = NT_REMOTE r).
        { destruct Hev3 as (_ & _ & _ & Hrefs).
          destruct (Hrefs loc) as [-> | (name & r' & Hname & _)]; [exact Hloc2 |].
          congruence. }
        rewrite Hloc3. exact Hseen3. }
  cbn [mark_reachable]. cbv zeta.
  destruct (get_ref loc t) as [| | r | name] eqn:Hloc.
  - repeat split; try assumption; try apply evolves_refl. rewrite Hloc. exact I.
  - repeat split; try assumption; try apply evolves_refl. rewrite Hloc. exact I.
  - apply (Hvisit r t (evolves_refl t)); [auto | exact Hloc].
  - unfold resolve_noderef. rewrite Hloc.
    rewrite (evolves_find t0 t name Hev).
    destruct (find_remote (tp_nodes t0) name) as [r |] eqn:Hfind; [| exact Hfind].
    destruct (set_ref_evolves loc name r t Hloc) as [Hev1 Hloc1];
      [rewrite (evolves_find t0 t name Hev); exact Hfind |].
    rewrite Hloc1.
    apply (Hvisit r _ Hev1); [| exact Hloc1].
    intros r' Hseen. rewrite seen_set_ref in Hseen. exact Hseen.
Qed.
End MarkReachable.

Lemma count_unmarked_le nodes : (count_unmarked nodes <= length nodes)%nat.
Proof. induction nodes as [| n nodes IH]; simpl; [lia |]. destruct (nd_reachable n); lia. Qed.

Lemma in_all_directions d : d ∈ all_directions.
Proof. destruct d; unfold all_directions; repeat first [left | right]. Qed.

(** A finished reference is the remote that the reference of the
    original configuration stands for. *)
Lemma done_ref_target t0 t loc :
  evolves t0 t -> done_ref t (get_ref loc t) ->
  get_ref loc t
  = from_option NT_REMOTE (get_ref loc t0) (target (tp_nodes t0) (get_ref loc t0)) /\
  (forall dst, target (tp_nodes t0) (get_ref loc t0) = Some dst -> seen t dst = true).
Proof.
  intros (_ & _ & _ & Hrefs) Hdone.
  destruct (Hrefs loc) as [Heq | (name & r & Hname & Hfind & Hres)].
  - rewrite Heq in *. destruct (get_ref loc t0) as [| | r | name]; simpl in *;
      try (split; [reflexivity | intros ? [=]]; fail).
    + split; [reflexivity |]. intros dst [=]. subst. exact Hdone.
    + contradiction.
  - rewrite Hres in *. rewrite Hname. simpl. rewrite Hfind. simpl.
    split; [reflexivity |]. intros dst [=]. subst. exact Hdone.
Qed.

Lemma num_neighbors_evolves t t' r n n' :
  evolves t t' -> tp_nodes t !! r = Some n -> tp_nodes t' !! r = Some n' ->
  nd_alias n' = nd_alias n /\ num_neighbors n' = num_neighbors n.
Proof.
  intros (Hnames & _ & _ & Hrefs) Hn Hn'. split.
  - unfold names in Hnames.
    apply (f_equal (fun l => l !! r)) in Hnames.
    rewrite !list_lookup_fmap, Hn, Hn' in Hnames. simpl in Hnames. congruence.
  - assert (Hnone : forall d, is_none (dm_get d (nd_neighbors n'))
                              = is_none (dm_get d (nd_neighbors n))).
    { intros d. specialize (Hrefs (Some r, d)). unfold get_ref in Hrefs. simpl in Hrefs.
      rewrite Hn, Hn' in Hrefs. simpl in Hrefs.
      destruct Hrefs as [-> | (name & r' & -> & _ & ->)]; reflexivity. }
    unfold num_neighbors, all_directions. rewrite !filter_cons, filter_nil.
    rewrite !Hnone. reflexivity.
Qed.

(** X19.  [check_remotes] marks exactly the remotes that can be reached
    from the master through neighbour references, resolving on the way
    every name among the references of the master and of the remotes it
    reaches; it stops the program only for a name that no remote carries
    as alias or host name.  Names and neighbour counts are untouched, so
    the first warning is given for exactly the remotes that cannot be
    reached and the second for those with no neighbour at all.  A nesting
    depth above the number of remotes is always enough. *)
Theorem check_remotes_marks_reachable :
  forall fuel t0,
    Forall (fun n => nd_reachable n = false) (tp_nodes t0) ->
    (length (tp_nodes t0) < fuel)%nat ->
    match check_remotes fuel t0 with
    | inl SE_OutOfFuel => False
    | inl (SE_NoSuchRemote name) => find_remote (tp_nodes t0) name = None
    | inr (t', warnings) =>
        (forall r n, tp_nodes t0 !! r = Some n ->
                     exists n', tp_nodes t' !! r = Some n' /\
                                nd_alias n' = nd_alias n /\
                                num_neighbors n' = num_neighbors n /\
                                (nd_reachable n' = true <-> reach t0 r)) /\
        (forall src d,
            src = None \/ (exists r, src = Some r /\ reach t0 r) ->
            get_ref (src, d) t'
            = from_option NT_REMOTE (get_ref (src, d) t0)
                          (target (tp_nodes t0) (get_ref (src, d) t0))) /\
        warnings = flat_map remote_warnings (tp_nodes t')
    end.
Proof.
  intros fuel t0 Hfresh Hfuel. unfold check_remotes.
  assert (Hunseen : forall r, (r < length (tp_nodes t0))%nat -> seen t0 r = false).
  { intros r Hr. unfold seen.
    destruct (lookup_lt_is_Some_2 _ _ Hr) as [n Hn]. rewrite Hn. simpl.
    rewrite Forall_lookup in Hfresh. exact (Hfresh r n Hn). }
  pose proof (for_each_dir_spec t0 (reach t0) [] None fuel
                (fun dir => mark_reachable fuel (None, dir))) as Hloop.
  specialize (Hloop
    (fun d t Hev Hcl Hso Hfu =>
       mark_reachable_spec t0 (reach t0)
         (fun r dir dst Hr Hdst => reach_step t0 r dir dst Hr Hdst)
         fuel (None, d) t [] Hev Hcl Hso
         (fun dst Hdst => reach_master t0 d dst Hdst) Hfu)
    all_directions t0 (evolves_refl t0)).
  assert (Hclosed0 : closed_but [] t0).
  { intros r Hseen _ dir. unfold get_ref. simpl.
    destruct (tp_nodes t0 !! r) as [n |] eqn:Hn; [| exact I].
    rewrite Hunseen in Hseen by (eapply lookup_lt_Some; exact Hn). discriminate. }
  assert (Hsound0 : sound (reach t0) t0).
  { intros r Hr Hseen. rewrite Hunseen in Hseen by exact Hr. discriminate. }
  assert (Hfuel0 : (unmarked t0 < fuel)%nat).
  { unfold unmarked. pose proof (count_unmarked_le (tp_nodes t0)). lia. }
  specialize (Hloop Hclosed0 Hsound0 Hfuel0).
  destruct (for_each_dir all_directions _ t0) as [e | t']; [exact Hloop |].
  destruct Hloop as (Hev & Hclosed & Hsound & Hmaster).
  assert (Hcomplete : forall r, reach t0 r -> seen t' r = true).
  { intros r Hr. induction Hr as [d dst Hdst | r d dst Hr IH Hdst].
    - exact (proj2 (done_ref_target t0 t' (None, d) Hev
                      (Hmaster d (in_all_directions d))) dst Hdst).
    - exact (proj2 (done_ref_target t0 t' (Some r, d) Hev
                      (Hclosed r IH (not_elem_of_nil r) d)) dst Hdst). }
  split; [| split; [| reflexivity]].
  - intros r n Hn.
    assert (Hr : (r < length (tp_nodes t'))%nat).
    { rewrite (evolves_length _ _ Hev). eapply lookup_lt_Some; exact Hn. }
    destruct (lookup_lt_is_Some_2 _ _ Hr) as [n' Hn'].
    exists n'. split; [exact Hn' |].
    destruct (num_neighbors_evolves t0 t' r n n' Hev Hn Hn') as [Halias Hnum].
    split; [exact Halias |]. split; [exact Hnum |].
    assert (Hseen : seen t' r = nd_reachable n') by (unfold seen; rewrite Hn'; reflexivity).
    rewrite <- Hseen. split; [apply Hsound; exact Hr | apply Hcomplete].
  - intros src d Hsrc. apply (done_ref_target t0 t' (src, d) Hev).
    destruct Hsrc as [-> | (r & -> & Hr)].
    + apply Hmaster, in_all_directions.
    + exact (Hclosed r (Hcomplete r Hr) (not_elem_of_nil r) d).
Qed.

(** A configuration with four remotes: the master has alpha on its right,
    alpha names beta by its host name, gamma points at beta but nothing
    points at gamma, and delta has no neighbour. *)
Module TopoDemo.

Definition node (alias host : string) (nb : dirmap noderef) : node_decl :=
  NodeDecl alias host nb false.

Definition t : topology :=
  Topology
    (dm_set RIGHT (NT_REMOTE_TMPNAME "alpha") (dm_const NT_NONE))
    [ node "alpha" "alpha.example.org"
        (dm_set LEFT NT_MASTER
           (dm_set RIGHT (NT_REMOTE_TMPNAME "beta.example.org") (dm_const NT_NONE)));
      node "beta" "beta.example.org"
        (dm_set LEFT (NT_REMOTE_TMPNAME "alpha") (dm_const NT_NONE));
      node "gamma" "gamma.example.org"
        (dm_set UP (NT_REMOTE_TMPNAME "beta") (dm_const NT_NONE));
      node "delta" "delta.example.org" (dm_const NT_NONE) ].

Definition checked : startup_error + (topology * list string) :=
  Eval vm_compute in check_remotes 5 t.

End TopoDemo.

Lemma check_remotes_marks_reachable_witness :
  Forall (fun n => nd_reachable n = false) (tp_nodes TopoDemo.t) /\
  (length (tp_nodes TopoDemo.t) < 5)%nat /\
  exists t',
    check_remotes 5 TopoDemo.t
    = inr (t', ["Warning: remote 'gamma' is not reachable";
                "Warning: remote 'delta' is not reachable";
                "Warning: remote 'delta' has no neighbors"]) /\
    reach TopoDemo.t 1 /\ ~ reach TopoDemo.t 2 /\
    get_ref (Some 0%nat, RIGHT) t' = NT_REMOTE 1.
Proof.
  assert (Hfresh : Forall (fun n => nd_reachable n = false) (tp_nodes TopoDemo.t))
    by (repeat constructor).
  assert (Hfuel : (length (tp_nodes TopoDemo.t) < 5)%nat) by (simpl; lia).
  split; [exact Hfresh |]. split; [exact Hfuel |].
  pose proof (check_remotes_marks_reachable 5 TopoDemo.t Hfresh Hfuel) as H.
  destruct (check_remotes 5 TopoDemo.t) as [e | [t' w]] eqn:Hrun;
    [vm_compute in Hrun; discriminate |].
  exists t'. destruct H as (Hnodes & Hrefs & _).
  assert (Hw : inr (t', w) = TopoDemo.checked) by (rewrite <- Hrun; vm_compute; reflexivity).
  injection Hw as Ht' Hwarn.
  split; [rewrite Hwarn; reflexivity |].
  destruct (Hnodes 1%nat _ eq_refl) as (n1 & Hn1 & _ & _ & Hreach1).
  destruct (Hnodes 2%nat _ eq_refl) as (n2 & Hn2 & _ & _ & Hreach2).
  rewrite Ht' in Hn1, Hn2. injection Hn1 as <-. injection Hn2 as <-.
  assert (H1 : reach TopoDemo.t 1) by (apply Hreach1; reflexivity).
  split; [exact H1 |]. split.
  - intros H2. apply Hreach2 in H2. discriminate.
  - rewrite (Hrefs (Some 0%nat) RIGHT (or_intror (ex_intro _ 0%nat (conj eq_refl
              (reach_master TopoDemo.t RIGHT 0%nat eq_refl))))).
    reflexivity.
Defined.

(** X20.  [find_remote] prefers aliases to host names: it finds nothing
    exactly when no remote carries the name as alias or as host name, and
    the remote it finds is the first with that alias, or, when no remote
    has that alias, the first with that host name. *)
Theorem find_remote_alias_first :
  forall nodes name,
    (find_remote nodes name = None <->
     forall n, n ∈ nodes -> nd_alias n <> name /\ nd_hostname n <> name) /\
    (forall i, find_remote nodes name = Some i ->
       exists n, nodes !! i = Some n /\
         ((nd_alias n = name /\
           forall j m, nodes !! j = Some m -> (j < i)%nat -> nd_alias m <> name) \/
          (nd_hostname n = name /\
           (forall m, m ∈ nodes -> nd_alias m <> name) /\
           forall j m, nodes !! j = Some m -> (j < i)%nat -> nd_hostname m <> name))).
Proof.
  intros nodes name. unfold find_remote. split.
  - destruct (list_find (fun n => nd_alias n = name) nodes) as [[i n] |] eqn:Ha.
    + split; [discriminate |]. intros Hall.
      apply list_find_Some in Ha as (Hi & Hn & _).
      destruct (Hall n (list_elem_of_lookup_2 _ _ _ Hi)) as [Hne _]. contradiction.
    + destruct (list_find (fun n => nd_hostname n = name) nodes) as [[i n] |] eqn:Hh.
      * split; [discriminate |]. intros Hall.
        apply list_find_Some in Hh as (Hi & Hn & _).
        destruct (Hall n (list_elem_of_lookup_2 _ _ _ Hi)) as [_ Hne]. contradiction.
      * split; [| reflexivity]. intros _ n Hin.
        apply list_find_None in Ha, Hh. rewrite Forall_forall in Ha, Hh.
        split; [apply Ha | apply Hh]; exact Hin.
  - intros i Hfind.
    destruct (list_find (fun n => nd_alias n = name) nodes) as [[i' n] |] eqn:Ha.
    + injection Hfind as ->. apply list_find_Some in Ha as (Hi & Hn & Hbefore).
      exists n. split; [exact Hi |]. left. split; [exact Hn |]. exact Hbefore.
    + destruct (list_find (fun n => nd_hostname n = name) nodes) as [[i' n] |] eqn:Hh;
        [| discriminate].
      injection Hfind as ->. apply list_find_Some in Hh as (Hi & Hn & Hbefore).
      exists n. split; [exact Hi |]. right. split; [exact Hn |]. split; [| exact Hbefore].
      apply list_find_None in Ha. rewrite Forall_forall in Ha. exact Ha.
Qed.

(** ** Multi-tap edge switching: the focus moves *)

(** The number of messages [indicate_switch] enqueues on the remote that
    gains the focus. *)
Definition hint_messages (cfg : config_t) : nat :=
  match fh_type (focus_hint cfg) with FH_NONE => 0 | _ => 1 end.

Section Switching.
Variable quota : nat.
Variable cfg : config_t.
Variable center : xypoint.
Variable rec : rid -> string -> M unit.

(** What stays fixed about the state while the focus is switched. *)
Variable mods : list Z.
Variable now : Z.
Variable clip : string.
Variable st : rid -> connstate_t.

Definition calm (foc : option rid) (s : world) : Prop :=
  focused_remote s = foc /\ held_modifiers s = mods /\ clock s = now /\
  clipboard s = clip.

(** The remotes that [bound] names are in the registry, in their state,
    with no more messages in their channel than [bound] says. *)
Definition within (bound : rid -> option nat) (s : world) : Prop :=
  forall r j, bound r = Some j ->
    exists x, remotes s !! r = Some x /\ state x = st r /\
              (length (sendqueue (chan x)) <= j)%nat.

Definition poised (foc : option rid) (bound : rid -> option nat) (s : world) : Prop :=
  calm foc s /\ within bound s.

Definition raise (r : rid) (n : nat) (bound : rid -> option nat) : rid -> option nat :=
  fun r' => if decide (r' = r) then (fun j => (j + n)%nat) <$> bound r' else bound r'.

Definition looser (b b' : rid -> option nat) : Prop :=
  forall r j', b' r = Some j' -> exists j, b r = Some j /\ (j <= j')%nat.

Lemma poised_looser foc b b' s : looser b b' -> poised foc b s -> poised foc b' s.
Proof.
  intros Hl [Hc Hw]. split; [exact Hc |]. intros r j' Hb'.
  destruct (Hl r j' Hb') as (j & Hb & Hle).
  destruct (Hw r j Hb) as (x & Hx & Hst & Hlen).
  exists x. repeat split; try assumption. lia.
Qed.

Lemma poised_frame foc b s s' :
  focused_remote s' = focused_remote s -> held_modifiers s' = held_modifiers s ->
  clock s' = clock s -> clipboard s' = clipboard s -> remotes s' = remotes s ->
  poised foc b s -> poised foc b s'.
Proof. unfold poised, calm, within. intros -> -> -> -> ->. auto. Qed.

Lemma poised_alter foc b f r s :
  (forall x, state (f x) = state x /\ chan (f x) = chan x) ->
  poised foc b s -> poised foc b (alter_remote f r s).
Proof.
  intros Hf [Hc Hw]. split; [exact Hc |].
  intros r' j Hb. destruct (Hw r' j Hb) as (x & Hx & Hst & Hlen).
  destruct (decide (r' = r)) as [-> | Hne].
  - exists (f x). simpl. rewrite list_lookup_alter_eq, Hx.
    destruct (Hf x) as [-> ->]. auto.
  - exists x. simpl. rewrite list_lookup_alter_ne by congruence. auto.
Qed.

Lemma poised_focus foc foc' b s :
  poised foc b s -> poised foc' b (set_focused_remote foc' s).
Proof. intros [(_ & Hm & Hn & Hc) Hw]. split; [repeat split; assumption | exact Hw]. Qed.

Local Ltac looser_tac :=
  let r := fresh "r" in
  let j := fresh "j" in
  let H := fresh "H" in
  unfold looser, raise; intros r j H;
  repeat match goal with
         | H : context [decide (?x = ?y)] |- _ => destruct (decide (x = y)); subst
         | |- context [decide (?x = ?y)] => destruct (decide (x = y)); subst
         end;
  try congruence;
  repeat match goal with
         | H : context [?f <$> ?b ?r] |- _ =>
             let E := fresh "E" in destruct (b r) eqn:E; simpl in H
         end;
  simplify_eq; simpl;
  try (eexists; split; [first [reflexivity | eassumption] | lia]).

Lemma total_enqueue_within foc b r j msg :
  b r = Some j -> (j < quota)%nat ->
  total (poised foc b) (enqueue_message quota rec r msg)
        (fun _ => poised foc (raise r 1 b)).
Proof.
  intros Hb Hj s [Hc Hw]. destruct (Hw r j Hb) as (x & Hx & Hst & Hlen).
  unfold enqueue_message, bind, mc_enqueue. rewrite Hx. simpl.
  rewrite bool_decide_eq_false_2 by (rewrite length_app; simpl; lia).
  eexists _, _. split; [reflexivity |].
  split; [exact Hc |].
  intros r' j' Hb'. unfold raise in Hb'.
  destruct (decide (r' = r)) as [-> | Hne].
  - rewrite Hb in Hb'. simpl in Hb'. injection Hb' as <-.
    eexists. simpl. rewrite list_lookup_alter_eq, Hx. simpl.
    repeat split; [exact Hst |]. simpl. rewrite length_app. simpl. lia.
  - destruct (Hw r' j' Hb') as (x' & Hx' & Hst' & Hlen').
    exists x'. simpl. rewrite list_lookup_alter_ne by congruence. auto.
Qed.

Lemma total_sbc_within foc b node f when :
  total (poised foc b) (schedule_brightness_change node f when)
        (fun _ => poised foc b).
Proof.
  unfold schedule_brightness_change, schedule_message, schedule_call.
  destruct node; apply total_modify; intros s Hs.
  - apply poised_alter; [intros x; split; reflexivity | exact Hs].
  - apply (poised_frame foc b s); try reflexivity. exact Hs.
Qed.

Lemma total_fade_within foc b n node from to duration steps now_us i :
  total (poised foc b) (fade_loop n node from to duration steps now_us i)
        (fun _ => poised foc b).
Proof.
  revert i. induction n as [| n IH]; intros i; simpl; [apply total_skip |].
  destruct (i <? steps); [| apply total_skip].
  eapply total_seq; [apply total_sbc_within | intros ? s Hs; exact Hs |].
  apply IH.
Qed.

Lemma total_transition_remote_within foc b r j from to duration steps :
  b r = Some j -> (j < quota)%nat ->
  total (poised foc b)
        (transition_brightness quota rec (Some r) from to duration steps)
        (fun _ => poised foc (raise r 1 b)).
Proof.
  intros Hb Hj. unfold transition_brightness, get_microtime.
  apply total_gets_any; intros now_us.
  eapply total_seq;
    [ eapply total_seq;
      [ apply (total_enqueue_within foc b r j); assumption
      | intros ? s Hs; exact Hs
      | apply total_fade_within ]
    | intros ? s Hs; exact Hs
    | apply total_sbc_within ].
Qed.

Lemma total_transition_master_within foc b from to duration steps :
  total (poised foc b)
        (transition_brightness quota rec None from to duration steps)
        (fun _ => poised foc b).
Proof.
  unfold transition_brightness, get_microtime, set_node_display_brightness,
    set_display_brightness.
  apply total_gets_any; intros now_us.
  eapply total_seq;
    [ eapply total_seq;
      [ apply total_modify; intros s Hs;
        apply (poised_frame foc b s); try reflexivity; exact Hs
      | intros ? s Hs; exact Hs
      | apply total_fade_within ]
    | intros ? s Hs; exact Hs
    | apply total_sbc_within ].
Qed.

(** The key events of [transfer_modifiers] for one remote. *)
Lemma total_keys_within foc b r j keys pr :
  b r = Some j -> (j + length keys <= quota)%nat ->
  total (poised foc b)
        (for_each keys
           (fun k => enqueue_message quota rec r (new_message (MT_KEYEVENT k pr))))
        (fun _ => poised foc (raise r (length keys) b)).
Proof.
  intros Hb Hj.
  eapply total_conseq;
    [ apply (total_for_each_counted (fun i => poised foc (raise r i b)) _ keys
               (length keys)) with (j := 0%nat); [| lia]
    | intros s Hs; eapply poised_looser; [| exact Hs]; looser_tac
    | intros ? s Hs; exact Hs ].
  intros k i Hi.
  eapply total_conseq;
    [ apply (total_enqueue_within foc (raise r i b) r (j + i));
      [unfold raise; rewrite decide_True by reflexivity; rewrite Hb; reflexivity | lia]
    | intros s Hs; exact Hs
    | intros ? s Hs; eapply poised_looser; [| exact Hs]; looser_tac ].
Qed.

Lemma total_indicate_arrival foc b t j :
  b t = Some j -> (j + hint_messages cfg <= quota)%nat ->
  total (poised foc b) (indicate_switch quota cfg rec None (Some t))
        (fun _ => poised foc (raise t (hint_messages cfg) b)).
Proof.
  unfold hint_messages, indicate_switch.
  destruct (fh_type (focus_hint cfg)); intros Hb Hj.
  - eapply total_conseq;
      [ apply total_skip
      | intros s Hs; exact Hs
      | intros ? s Hs; eapply poised_looser; [| exact Hs]; looser_tac ].
  - destruct (decide (None <> Some t)) as [_ | Hne];
      [| exfalso; apply Hne; discriminate].
    eapply total_seq;
      [ apply total_transition_master_within
      | intros ? s Hs; exact Hs
      | apply (total_transition_remote_within foc b t j); [exact Hb | lia] ].
  - apply (total_transition_remote_within foc b t j); [exact Hb | lia].
Qed.

Lemma total_indicate_departure foc b a j :
  b a = Some j -> (j + dim_messages cfg <= quota)%nat ->
  total (poised foc b) (indicate_switch quota cfg rec (Some a) None)
        (fun _ => poised foc (raise a (dim_messages cfg) b)).
Proof.
  unfold dim_messages, indicate_switch.
  destruct (fh_type (focus_hint cfg)); intros Hb Hj.
  - eapply total_conseq;
      [ apply total_skip
      | intros s Hs; exact Hs
      | intros ? s Hs; eapply poised_looser; [| exact Hs]; looser_tac ].
  - destruct (decide (Some a <> None)) as [_ | Hne];
      [| exfalso; apply Hne; discriminate].
    eapply total_seq;
      [ apply (total_transition_remote_within foc b a j); [exact Hb | lia]
      | intros ? s Hs; exact Hs
      | apply total_transition_master_within ].
  - eapply total_conseq;
      [ apply total_transition_master_within
      | intros s Hs; exact Hs
      | intros ? s Hs; eapply poised_looser; [| exact Hs]; looser_tac ].
Qed.

Lemma total_indicate_relay foc b a t ja jt :
  a <> t -> b a = Some ja -> b t = Some jt ->
  (ja + dim_messages cfg <= quota)%nat -> (jt + hint_messages cfg <= quota)%nat ->
  total (poised foc b) (indicate_switch quota cfg rec (Some a) (Some t))
        (fun _ => poised foc (raise t (hint_messages cfg)
                                    (raise a (dim_messages cfg) b))).
Proof.
  unfold dim_messages, hint_messages, indicate_switch.
  destruct (fh_type (focus_hint cfg)); intros Hne Ha Ht Hja Hjt.
  - eapply total_conseq;
      [ apply total_skip
      | intros s Hs; exact Hs
      | intros ? s Hs; eapply poised_looser; [| exact Hs]; looser_tac ].
  - destruct (decide (Some a <> Some t)) as [_ | Heq];
      [| exfalso; apply Heq; congruence].
    eapply total_seq;
      [ apply (total_transition_remote_within foc b a ja); [exact Ha | lia]
      | intros ? s Hs; exact Hs
      | apply (total_transition_remote_within foc _ t jt); [| lia];
        unfold raise; rewrite decide_False by congruence; exact Ht ].
  - eapply total_conseq;
      [ apply (total_transition_remote_within foc b t jt); [exact Ht | lia]
      | intros s Hs; exact Hs
      | intros ? s Hs; eapply poised_looser; [| exact Hs]; looser_tac ].
Qed.

Lemma total_switched to b :
  total (poised to b) (ret 1) (fun a s => a = 1 /\ poised to b s).
Proof. intros s Hs. exists 1, s. auto. Qed.

Lemma total_keep foc b (f : world -> world) :
  (forall s, poised foc b s -> poised foc b (f s)) ->
  total (poised foc b) (modify f) (fun _ => poised foc b).
Proof. intros Hf. apply total_modify. exact Hf. Qed.

Local Ltac keep :=
  apply total_keep;
  let s := fresh "s" in
  let Hs := fresh "Hs" in
  intros s Hs; apply (poised_frame _ _ s); [reflexivity .. | exact Hs].

(** From the master to the remote [t]. *)
Lemma total_focus_arrival b t j from_hotkey :
  b t = Some j ->
  (j + hint_messages cfg + 1 + length mods <= quota)%nat ->
  Z.of_nat (String.length clip) <= UINT32_MAX ->
  total (poised None b)
        (focus_switch quota cfg center rec (Some t) mods from_hotkey)
        (fun a s => a = 1 /\
                    poised (Some t)
                           (raise t (hint_messages cfg + 1 + length mods) b) s).
Proof.
  intros Hb Hj Hclip. unfold focus_switch.
  apply (total_gets_known _ _ None); [intros s Hs; apply Hs |].
  rewrite bool_decide_eq_true_2 by discriminate. cbn [orb].
  eapply total_seq;
    [ apply (total_indicate_arrival None b t j); [exact Hb | lia]
    | intros ? s Hs; exact Hs |].
  apply (total_gets_known _ _ None); [intros s Hs; apply Hs |].
  destruct (decide (Some t = None)) as [Heq | _]; [discriminate |].
  eapply total_seq;
    [ eapply total_seq;
      [ eapply total_seq;
        [ eapply total_seq;
          [ eapply total_seq;
            [ eapply total_seq;
              [ unfold get_mousepos; apply total_gets_any; intros pos; keep
              | intros ? s Hs; exact Hs
              | unfold grab_inputs; keep ]
            | intros ? s Hs; exact Hs
            | unfold set_mousepos; keep ]
          | intros ? s Hs; exact Hs
          | apply (total_gets_known _ _ None); [intros s Hs; apply Hs |];
            unfold transfer_clipboard, get_clipboard_text;
            apply (total_gets_known _ _ clip); [intros s Hs; apply Hs |];
            rewrite (proj2 (Z.leb_le _ _) Hclip);
            apply (total_enqueue_within None _ t (j + hint_messages cfg));
            [unfold raise; rewrite decide_True by reflexivity; rewrite Hb; reflexivity
            | lia] ]
        | intros ? s Hs; exact Hs
        | apply (total_gets_known _ _ None); [intros s Hs; apply Hs |];
          unfold transfer_modifiers;
          eapply total_seq;
          [ apply total_skip
          | intros ? s Hs; exact Hs
          | apply (total_keys_within None _ t (j + hint_messages cfg + 1));
            [unfold raise; rewrite !decide_True by reflexivity; rewrite Hb; reflexivity
            | lia] ] ]
      | intros ? s Hs; exact Hs
      | apply total_modify; intros s Hs; apply (poised_focus None (Some t)); exact Hs ]
    | intros ? s Hs; exact Hs |].
  eapply total_conseq;
    [ apply total_switched
    | intros s Hs; exact Hs
    | intros a s [Ha Hs]; split; [exact Ha |];
      eapply poised_looser; [| exact Hs]; looser_tac ].
Qed.

(** From the remote [a] to the master. *)
Lemma total_focus_departure b a j from_hotkey :
  b a = Some j ->
  (j + dim_messages cfg + 1 + length mods <= quota)%nat ->
  total (poised (Some a) b)
        (focus_switch quota cfg center rec None mods from_hotkey)
        (fun res s => res = 1 /\
                      poised None (raise a (dim_messages cfg + 1 + length mods) b) s).
Proof.
  intros Hb Hj. unfold focus_switch.
  apply (total_gets_known _ _ (Some a)); [intros s Hs; apply Hs |].
  rewrite bool_decide_eq_true_2 by discriminate. cbn [orb].
  eapply total_seq;
    [ apply (total_indicate_departure (Some a) b a j); [exact Hb | lia]
    | intros ? s Hs; exact Hs |].
  apply (total_gets_known _ _ (Some a)); [intros s Hs; apply Hs |].
  destruct (decide (None = Some a)) as [Heq | _]; [discriminate |].
  eapply total_seq;
    [ eapply total_seq;
      [ eapply total_seq;
        [ eapply total_seq;
          [ eapply total_seq;
            [ eapply total_seq;
              [ unfold ungrab_inputs; keep
              | intros ? s Hs; exact Hs
              | apply total_gets_any; intros saved; unfold set_mousepos; keep ]
            | intros ? s Hs; exact Hs
            | apply total_skip ]
          | intros ? s Hs; exact Hs
          | apply (total_gets_known _ _ (Some a)); [intros s Hs; apply Hs |];
            unfold transfer_clipboard;
            apply (total_enqueue_within (Some a) _ a (j + dim_messages cfg));
            [unfold raise; rewrite decide_True by reflexivity; rewrite Hb; reflexivity
            | lia] ]
        | intros ? s Hs; exact Hs
        | apply (total_gets_known _ _ (Some a)); [intros s Hs; apply Hs |];
          unfold transfer_modifiers;
          eapply total_seq;
          [ apply (total_keys_within (Some a) _ a (j + dim_messages cfg + 1));
            [unfold raise; rewrite !decide_True by reflexivity; rewrite Hb; reflexivity
            | lia]
          | intros ? s Hs; exact Hs
          | apply total_skip ] ]
      | intros ? s Hs; exact Hs
      | apply total_modify; intros s Hs; apply (poised_focus (Some a) None); exact Hs ]
    | intros ? s Hs; exact Hs |].
  eapply total_conseq;
    [ apply total_switched
    | intros s Hs; exact Hs
    | intros res s [Hres Hs]; split; [exact Hres |];
      eapply poised_looser; [| exact Hs]; looser_tac ].
Qed.

(** From the remote [a] to the remote [t]. *)
Lemma total_focus_relay b a t ja jt from_hotkey :
  a <> t -> b a = Some ja -> b t = Some jt ->
  (ja + dim_messages cfg + 1 + length mods <= quota)%nat ->
  (jt + hint_messages cfg + length mods <= quota)%nat ->
  total (poised (Some a) b)
        (focus_switch quota cfg center rec (Some t) mods from_hotkey)
        (fun res s => res = 1 /\
                      poised (Some t)
                             (raise t (hint_messages cfg + length mods)
                                (raise a (dim_messages cfg + 1 + length mods) b)) s).
Proof.
  intros Hne Ha Ht Hja Hjt. unfold focus_switch.
  apply (total_gets_known _ _ (Some a)); [intros s Hs; apply Hs |].
  rewrite bool_decide_eq_true_2 by congruence. cbn [orb].
  eapply total_seq;
    [ apply (total_indicate_relay (Some a) b a t ja jt); solve [assumption | lia]
    | intros ? s Hs; exact Hs |].
  apply (total_gets_known _ _ (Some a)); [intros s Hs; apply Hs |].
  destruct (decide (Some t = Some a)) as [Heq | _]; [congruence |].
  eapply total_seq;
    [ eapply total_seq;
      [ eapply total_seq;
        [ eapply total_seq;
          [ eapply total_seq;
            [ apply total_skip
            | intros ? s Hs; exact Hs
            | unfold set_mousepos; keep ]
          | intros ? s Hs; exact Hs
          | apply (total_gets_known _ _ (Some a)); [intros s Hs; apply Hs |];
            unfold transfer_clipboard;
            apply (total_enqueue_within (Some a) _ a (ja + dim_messages cfg));
            [unfold raise; rewrite decide_False by congruence;
             rewrite decide_True by reflexivity; rewrite Ha; reflexivity
            | lia] ]
        | intros ? s Hs; exact Hs
        | apply (total_gets_known _ _ (Some a)); [intros s Hs; apply Hs |];
          unfold transfer_modifiers;
          eapply total_seq;
          [ apply (total_keys_within (Some a) _ a (ja + dim_messages cfg + 1));
            [unfold raise; rewrite decide_True by reflexivity;
             rewrite decide_False by congruence;
             rewrite decide_True by reflexivity; rewrite Ha; reflexivity
            | lia]
          | intros ? s Hs; exact Hs
          | apply (total_keys_within (Some a) _ t (jt + hint_messages cfg));
            [unfold raise; rewrite !(decide_False (P := t = a)) by congruence;
             rewrite decide_True by reflexivity; rewrite Ht; reflexivity
            | lia] ] ]
      | intros ? s Hs; exact Hs
      | apply total_modify; intros s Hs; apply (poised_focus (Some a) (Some t)); exact Hs ]
    | intros ? s Hs; exact Hs |].
  eapply total_conseq;
    [ apply total_switched
    | intros s Hs; exact Hs
    | intros res s [Hres Hs]; split; [exact Hres |];
      eapply poised_looser; [| exact Hs]; looser_tac ].
Qed.
End Switching.

(** The entry that [get_edgehist_entry] reads after an event has been
    recorded, in terms of the events recorded so far: entry [k] is the time
    of the [k]-th most recent of them, the new one counted as entry 0. *)
Lemma recorded_entry histlen es0 evs ev when k e ts :
  hist_wf histlen es0 ->
  ev <> last_evtype (record_all histlen es0 evs).1 ->
  0 <= k < histlen ->
  reverse ((record_all histlen es0 evs).2 ++ [(ev, when)]) !! Z.to_nat k = Some (e, ts) ->
  get_edgehist_entry histlen
    (record_edgeevent histlen (record_all histlen es0 evs).1 ev when).1 k = Some ts.
Proof.
  intros Hwf0 Hne Hk Hlk.
  pose proof (record_all_wf histlen es0 evs Hwf0) as Hwf.
  rewrite reverse_app in Hlk. simpl in Hlk.
  destruct (decide (k = 0)) as [-> | Hpos].
  - simpl in Hlk. injection Hlk as _ <-.
    apply record_edgeevent_newest; assumption.
  - rewrite record_edgeevent_older by (try assumption; lia).
    rewrite record_all_entry by (try assumption; lia).
    replace (Z.to_nat k) with (S (Z.to_nat (k - 1))) in Hlk by lia.
    simpl in Hlk. rewrite Hlk. reflexivity.
Qed.

Lemma put_hist_lookup h es r x s :
  remotes s !! r = Some x ->
  exists x', remotes (put_hist h es s) !! r = Some x' /\
             state x' = state x /\ chan x' = chan x /\ neighbors x' = neighbors x.
Proof.
  intros Hx. destruct h as [[o |] d]; unfold put_hist; simpl.
  - destruct (decide (r = o)) as [-> | Hne].
    + eexists. rewrite list_lookup_alter_eq, Hx. simpl. auto.
    + exists x. rewrite list_lookup_alter_ne by congruence. auto.
  - exists x. auto.
Qed.

Lemma put_hist_calm h es s :
  focused_remote (put_hist h es s) = focused_remote s /\
  held_modifiers (put_hist h es s) = held_modifiers s /\
  clock (put_hist h es s) = clock s /\
  clipboard (put_hist h es s) = clipboard s /\
  trace (put_hist h es s) = trace s.
Proof. destruct h as [[o |] d]; repeat split. Qed.

(** The state from which the focus is switched is poised, each remote
    with the messages it holds. *)
Lemma poised_start s :
  poised (held_modifiers s) (clock s) (clipboard s)
         (fun r => from_option state CS_CONNECTED (remotes s !! r))
         (focused_remote s)
         (fun r => (fun x => length (sendqueue (chan x))) <$> remotes s !! r) s.
Proof.
  split; [repeat split |].
  intros r j Hb. destruct (remotes s !! r) as [x |] eqn:Hx; [| discriminate].
  simpl in Hb. injection Hb as <-. exists x. auto.
Qed.

(** [edgeswitch_reposition] after a switch to the remote [t] whose channel
    has room. *)
Lemma reposition_delivered quota cfg center fuel dir src_x src_y t x s :
  focused_remote s = Some t ->
  remotes s !! t = Some x ->
  (length (sendqueue (chan x)) < quota)%nat ->
  let msg := new_message
               match dir with
               | LEFT => MT_SETMOUSEPOSSCREENREL F32.one src_y
               | RIGHT => MT_SETMOUSEPOSSCREENREL F32.zero src_y
               | UP => MT_SETMOUSEPOSSCREENREL src_x F32.one
               | DOWN => MT_SETMOUSEPOSSCREENREL src_x F32.zero
               end in
  exists s' x',
    edgeswitch_reposition quota cfg center fuel dir src_x src_y s = Ok tt s' /\
    focused_remote s' = Some t /\
    remotes s' !! t = Some x' /\ state x' = state x /\
    last (sendqueue (chan x')) = Some msg /\
    last (trace s') = Some (EvEnqueue t msg).
Proof.
  intros Hfoc Hx Hroom msg.
  exists (delivered t msg s), (with_queued [msg] x).
  split; [| split; [| split; [| split; [| split]]]].
  - unfold edgeswitch_reposition, bind, gets. subst msg.
    destruct dir; simpl; rewrite Hfoc;
      apply (enqueue_message_room quota _ t _ x); assumption.
  - rewrite (proj1 (delivered_same t msg s)). exact Hfoc.
  - apply delivered_lookup. exact Hx.
  - reflexivity.
  - simpl. apply last_snoc.
  - rewrite (delivered_trace t msg x s Hx). apply last_snoc.
Qed.

(** [alpha] has the focus and has reported that the pointer touched the
    edge [dir] of its screen at 1000 and left it at 51000; it is now
    201000. *)
Module Taps.

Definition tapped (dir : direction_t) (r : remote) : remote :=
  set_edgehist
    (dm_set dir (EdgeState 2 [0; 1000; 51000; 0; 0; 0] EE_DEPART) (edgehist r)) r.

Definition on_alpha (dir : direction_t) : world :=
  Eval vm_compute in
    set_clock 201000 (alter_remote (tapped dir) 0%nat Witness.on_alpha).

Definition taps : list (edgeevent_t * Z) := [(EE_ARRIVE, 1000); (EE_DEPART, 51000)].

End Taps.

(** C5.  With mouseswitch type MULTITAP, tap count [N] and window [W]: an
    ARRIVE event that is recorded, when the event recorded [(N-1)*2]
    recordings back in the history (the new ARRIVE counted as entry 0) is
    less than [W] before now, switches the focus to the neighbour in the
    direction of the edge, and the newly focused node is told to put its
    pointer at the opposite edge (LEFT: x = 1.0, RIGHT: x = 0.0, UP:
    y = 1.0, DOWN: y = 0.0, the other coordinate kept): a remote by a
    SETMOUSEPOSSCREENREL message, the last of its channel, the master by
    the platform call.  The neighbour is the master or a CONNECTED remote
    and the channels have room for the messages of the switch. *)
Theorem multitap_arrive_switches :
  forall histlen quota cfg center fuel h dir src_x src_y s N W es0 evs ev ts,
    ms_type (mouseswitch cfg) = MS_MULTITAP ->
    ms_num (mouseswitch cfg) = N ->
    ms_window (mouseswitch cfg) = W ->
    hist_valid h s ->
    hist_wf histlen es0 ->
    get_hist h s = (record_all histlen es0 evs).1 ->
    last_evtype (get_hist h s) <> EE_ARRIVE ->
    0 <= (N - 1) * 2 < histlen ->
    reverse ((record_all histlen es0 evs).2 ++ [(EE_ARRIVE, clock s)])
      !! Z.to_nat ((N - 1) * 2) = Some (ev, ts) ->
    0 <= ts <= clock s -> clock s < UINT64_MOD ->
    clock s - ts < W ->
    let run := trigger_edgeevent histlen quota cfg center fuel h dir EE_ARRIVE
                                 src_x src_y s in
    let reposition :=
      new_message
        match dir with
        | LEFT => MT_SETMOUSEPOSSCREENREL F32.one src_y
        | RIGHT => MT_SETMOUSEPOSSCREENREL F32.zero src_y
        | UP => MT_SETMOUSEPOSSCREENREL src_x F32.one
        | DOWN => MT_SETMOUSEPOSSCREENREL src_x F32.zero
        end in
    let held := length (held_modifiers s) in
    (forall b rb,
        focused_remote s = None ->
        dm_get dir (master_neighbors cfg) = NT_REMOTE b ->
        remotes s !! b = Some rb -> state rb = CS_CONNECTED ->
        Z.of_nat (String.length (clipboard s)) <= UINT32_MAX ->
        (length (sendqueue (chan rb)) + hint_messages cfg + 1 + held + 1
         <= quota)%nat ->
        exists s' rb',
          run = Ok 0 s' /\ focused_remote s' = Some b /\
          remotes s' !! b = Some rb' /\ state rb' = CS_CONNECTED /\
          last (sendqueue (chan rb')) = Some reposition /\
          last (trace s') = Some (EvEnqueue b reposition)) /\
    (forall a ra b rb,
        focused_remote s = Some a -> remotes s !! a = Some ra ->
        dm_get dir (neighbors ra) = NT_REMOTE b -> b <> a ->
        remotes s !! b = Some rb -> state rb = CS_CONNECTED ->
        (length (sendqueue (chan ra)) + dim_messages cfg + 1 + held <= quota)%nat ->
        (length (sendqueue (chan rb)) + hint_messages cfg + held + 1 <= quota)%nat ->
        exists s' rb',
          run = Ok 0 s' /\ focused_remote s' = Some b /\
          remotes s' !! b = Some rb' /\ state rb' = CS_CONNECTED /\
          last (sendqueue (chan rb')) = Some reposition /\
          last (trace s') = Some (EvEnqueue b reposition)) /\
    (forall a ra,
        focused_remote s = Some a -> remotes s !! a = Some ra ->
        dm_get dir (neighbors ra) = NT_MASTER ->
        (length (sendqueue (chan ra)) + dim_messages cfg + 1 + held <= quota)%nat ->
        exists s',
          run = Ok 0 s' /\ focused_remote s' = None /\
          last (trace s')
          = Some match dir with
                 | LEFT => EvSetMouseposScreenrel F32.one src_y
                 | RIGHT => EvSetMouseposScreenrel F32.zero src_y
                 | UP => EvSetMouseposScreenrel src_x F32.one
                 | DOWN => EvSetMouseposScreenrel src_x F32.zero
                 end).
Proof.
  intros histlen quota cfg center fuel h dir src_x src_y s N W es0 evs ev ts
         Htype HN HW Hvalid Hwf0 Hhist Hlast HN2 Hlk Hts Hnow Hwin run reposition held.
  assert (Hentry : get_edgehist_entry histlen
                     (record_edgeevent histlen (get_hist h s) EE_ARRIVE (clock s)).1
                     ((N - 1) * 2) = Some ts).
  { rewrite Hhist in *. eapply recorded_entry; try eassumption. congruence. }
  destruct (trigger_edgeevent_multitap histlen quota cfg center fuel h dir src_x src_y s
              N W ts Htype HN HW Hvalid Hlast Hentry Hts Hnow Hwin) as [Hrun _].
  subst run. rewrite Hrun. clear Hrun.
  set (s1 := put_hist h _ s).
  destruct (put_hist_calm h (record_edgeevent histlen (get_hist h s) EE_ARRIVE
                               (clock s)).1 s)
    as (Hfoc1 & Hmods1 & Hclock1 & Hclip1 & Htrace1).
  fold s1 in Hfoc1, Hmods1, Hclock1, Hclip1, Htrace1.
  pose proof (poised_start s1) as Hstart.
  split; [| split].
  - intros b rb Hfoc Hnb Hb Hst Hclip Hroom.
    unfold bind at 1. rewrite focus_neighbor_unfold.
    destruct (put_hist_lookup h (record_edgeevent histlen (get_hist h s) EE_ARRIVE
                                   (clock s)).1 b rb s Hb)
      as (rb1 & Hb1 & Hst1 & Hch1 & _). fold s1 in Hb1.
    unfold neighbor_of_focused. rewrite Hfoc1, Hfoc, Hnb. cbn [focus_node].
    unfold bind at 1. unfold remote_field at 1, gets at 1. rewrite Hb1. cbn [from_option].
    rewrite Hst1, Hst.
    destruct (decide (Some CS_CONNECTED = Some CS_CONNECTED)); [| congruence].
    rewrite Hfoc1, Hfoc in Hstart. rewrite <- Hmods1.
    destruct (total_focus_arrival quota cfg center
                (fail_remote quota cfg center fuel) (held_modifiers s1) (clock s1)
                (clipboard s1)
                (fun r => from_option state CS_CONNECTED (remotes s1 !! r))
                (fun r => (fun x => length (sendqueue (chan x))) <$> remotes s1 !! r)
                b (length (sendqueue (chan rb1))) false)
      with (s := s1) as (res & s2 & Hsw & -> & (Hfoc2 & _) & Hw2).
    { rewrite Hb1. reflexivity. }
    { rewrite Hmods1, Hch1. subst held. lia. }
    { rewrite Hclip1. exact Hclip. }
    { exact Hstart. }
    rewrite Hsw. change (negb (1 =? 0)) with true. cbv iota.
    destruct (Hw2 b (length (sendqueue (chan rb1)) + (hint_messages cfg + 1
                       + length (held_modifiers s1)))%nat)
      as (x2 & Hx2 & Hst2 & Hlen2).
    { unfold raise. rewrite decide_True by reflexivity. rewrite Hb1. reflexivity. }
    destruct (reposition_delivered quota cfg center fuel dir src_x src_y b x2 s2 Hfoc2 Hx2)
      as (s' & x' & Hrep & Hfoc' & Hx' & Hst' & Hq & Htr).
    { rewrite Hmods1, Hch1 in Hlen2. subst held. lia. }
    exists s', x'. unfold bind. rewrite Hrep. unfold ret.
    split; [reflexivity |]. split; [exact Hfoc' |]. split; [exact Hx' |].
    split; [| split; [exact Hq | exact Htr]].
    rewrite Hst', Hst2, Hb1. simpl. congruence.
  - intros a ra b rb Hfoc Ha Hnb Hne Hb Hst Hrooma Hroomb.
    unfold bind at 1. rewrite focus_neighbor_unfold.
    destruct (put_hist_lookup h (record_edgeevent histlen (get_hist h s) EE_ARRIVE
                                   (clock s)).1 b rb s Hb)
      as (rb1 & Hb1 & Hst1 & Hch1 & _). fold s1 in Hb1.
    destruct (put_hist_lookup h (record_edgeevent histlen (get_hist h s) EE_ARRIVE
                                   (clock s)).1 a ra s Ha)
      as (ra1 & Ha1 & _ & Hcha1 & Hnb1). fold s1 in Ha1.
    unfold neighbor_of_focused. rewrite Hfoc1, Hfoc, Ha1. cbn [from_option].
    rewrite Hnb1, Hnb. cbn [focus_node].
    unfold bind at 1. unfold remote_field at 1, gets at 1. rewrite Hb1. cbn [from_option].
    rewrite Hst1, Hst.
    destruct (decide (Some CS_CONNECTED = Some CS_CONNECTED)); [| congruence].
    rewrite Hfoc1, Hfoc in Hstart. rewrite <- Hmods1.
    destruct (total_focus_relay quota cfg center
                (fail_remote quota cfg center fuel) (held_modifiers s1) (clock s1)
                (clipboard s1)
                (fun r => from_option state CS_CONNECTED (remotes s1 !! r))
                (fun r => (fun x => length (sendqueue (chan x))) <$> remotes s1 !! r)
                a b (length (sendqueue (chan ra1)))
                (length (sendqueue (chan rb1))) false)
      with (s := s1) as (res & s2 & Hsw & -> & (Hfoc2 & _) & Hw2).
    { congruence. }
    { rewrite Ha1. reflexivity. }
    { rewrite Hb1. reflexivity. }
    { rewrite Hmods1, Hcha1. subst held. lia. }
    { rewrite Hmods1, Hch1. subst held. lia. }
    { exact Hstart. }
    rewrite Hsw. change (negb (1 =? 0)) with true. cbv iota.
    destruct (Hw2 b (length (sendqueue (chan rb1))
                     + (hint_messages cfg + length (held_modifiers s1)))%nat)
      as (x2 & Hx2 & Hst2 & Hlen2).
    { unfold raise. rewrite decide_True by reflexivity.
      rewrite decide_False by congruence. rewrite Hb1. reflexivity. }
    destruct (reposition_delivered quota cfg center fuel dir src_x src_y b x2 s2 Hfoc2 Hx2)
      as (s' & x' & Hrep & Hfoc' & Hx' & Hst' & Hq & Htr).
    { rewrite Hmods1, Hch1 in Hlen2. subst held. lia. }
    exists s', x'. unfold bind. rewrite Hrep. unfold ret.
    split; [reflexivity |]. split; [exact Hfoc' |]. split; [exact Hx' |].
    split; [| split; [exact Hq | exact Htr]].
    rewrite Hst', Hst2, Hb1. simpl. congruence.
  - intros a ra Hfoc Ha Hnb Hrooma.
    unfold bind at 1. rewrite focus_neighbor_unfold.
    destruct (put_hist_lookup h (record_edgeevent histlen (get_hist h s) EE_ARRIVE
                                   (clock s)).1 a ra s Ha)
      as (ra1 & Ha1 & _ & Hcha1 & Hnb1). fold s1 in Ha1.
    unfold neighbor_of_focused. rewrite Hfoc1, Hfoc, Ha1. cbn [from_option].
    rewrite Hnb1, Hnb. cbn [focus_node].
    rewrite Hfoc1, Hfoc in Hstart. rewrite <- Hmods1.
    destruct (total_focus_departure quota cfg center
                (fail_remote quota cfg center fuel) (held_modifiers s1) (clock s1)
                (clipboard s1)
                (fun r => from_option state CS_CONNECTED (remotes s1 !! r))
                (fun r => (fun x => length (sendqueue (chan x))) <$> remotes s1 !! r)
                a (length (sendqueue (chan ra1))) false)
      with (s := s1) as (res & s2 & Hsw & -> & (Hfoc2 & _) & _).
    { rewrite Ha1. reflexivity. }
    { rewrite Hmods1, Hcha1. subst held. lia. }
    { exact Hstart. }
    rewrite Hsw. change (negb (1 =? 0)) with true. cbv iota.
    assert (Hrep : exists e,
               edgeswitch_reposition quota cfg center fuel dir src_x src_y s2
               = Ok tt (emit e s2) /\
               e = match dir with
                   | LEFT => EvSetMouseposScreenrel F32.one src_y
                   | RIGHT => EvSetMouseposScreenrel F32.zero src_y
                   | UP => EvSetMouseposScreenrel src_x F32.one
                   | DOWN => EvSetMouseposScreenrel src_x F32.zero
                   end).
    { eexists. split; [| reflexivity].
      unfold edgeswitch_reposition, bind, gets, set_mousepos_screenrel, modify.
      destruct dir; simpl; rewrite Hfoc2; reflexivity. }
    destruct Hrep as (e & Hrep & He).
    exists (emit e s2). unfold bind. rewrite Hrep. unfold ret.
    split; [reflexivity |]. split; [exact Hfoc2 |].
    rewrite <- He. simpl. apply last_snoc.
Qed.

Lemma multitap_arrive_switches_witness :
  (ms_type (mouseswitch Witness.plain) = MS_MULTITAP /\
   201000 - 1000 < ms_window (mouseswitch Witness.plain)) /\
  (get_hist Witness.master_right Witness.tapped_once
   = (record_all 6 Demo.no_history Taps.taps).1 /\
   focused_remote Witness.tapped_once = None /\
   exists s' rb',
     trigger_edgeevent 6 16 Witness.plain Demo.center 2 Witness.master_right RIGHT
                       EE_ARRIVE F32.zero brightness_0_3 Witness.tapped_once = Ok 0 s' /\
     focused_remote s' = Some 0%nat /\
     remotes s' !! 0%nat = Some rb' /\ state rb' = CS_CONNECTED /\
     last (sendqueue (chan rb'))
     = Some (new_message (MT_SETMOUSEPOSSCREENREL F32.zero brightness_0_3))) /\
  (focused_remote (Taps.on_alpha RIGHT) = Some 0%nat /\
   exists s' rb',
     trigger_edgeevent 6 16 Witness.plain Demo.center 2 (HistRef (Some 0%nat) RIGHT)
                       RIGHT EE_ARRIVE F32.zero brightness_0_3 (Taps.on_alpha RIGHT)
     = Ok 0 s' /\
     focused_remote s' = Some 1%nat /\
     remotes s' !! 1%nat = Some rb' /\ state rb' = CS_CONNECTED /\
     last (sendqueue (chan rb'))
     = Some (new_message (MT_SETMOUSEPOSSCREENREL F32.zero brightness_0_3))) /\
  (focused_remote (Taps.on_alpha LEFT) = Some 0%nat /\
   exists s',
     trigger_edgeevent 6 16 Witness.plain Demo.center 2 (HistRef (Some 0%nat) LEFT)
                       LEFT EE_ARRIVE brightness_0_3 F32.zero (Taps.on_alpha LEFT)
     = Ok 0 s' /\
     focused_remote s' = None /\
     last (trace s') = Some (EvSetMouseposScreenrel F32.one F32.zero)).
Proof.
  assert (Hwf : hist_wf 6 Demo.no_history)
    by (unfold hist_wf; simpl; split; [lia | reflexivity]).
  split; [split; [reflexivity | vm_compute; reflexivity] |].
  split; [| split].
  - split; [reflexivity |]. split; [reflexivity |].
    destruct (multitap_arrive_switches 6 16 Witness.plain Demo.center 2
                Witness.master_right RIGHT F32.zero brightness_0_3 Witness.tapped_once
                2 400000 Demo.no_history Taps.taps EE_ARRIVE 1000
                eq_refl eq_refl eq_refl I Hwf eq_refl) as [Hmaster _].
    + vm_compute. discriminate.
    + lia.
    + reflexivity.
    + vm_compute. split; discriminate.
    + vm_compute. reflexivity.
    + vm_compute. reflexivity.
    + destruct (Hmaster 0%nat _ eq_refl eq_refl eq_refl eq_refl)
        as (s' & rb' & Hrun & Hfoc & Hrb & Hst & Hq & _).
      * vm_compute. discriminate.
      * vm_compute. lia.
      * exists s', rb'. auto.
  - split; [reflexivity |].
    destruct (multitap_arrive_switches 6 16 Witness.plain Demo.center 2
                (HistRef (Some 0%nat) RIGHT) RIGHT F32.zero brightness_0_3
                (Taps.on_alpha RIGHT)
                2 400000 Demo.no_history Taps.taps EE_ARRIVE 1000
                eq_refl eq_refl eq_refl) as (_ & Hrelay & _).
    + vm_compute. eauto.
    + exact Hwf.
    + reflexivity.
    + vm_compute. discriminate.
    + lia.
    + reflexivity.
    + vm_compute. split; discriminate.
    + vm_compute. reflexivity.
    + vm_compute. reflexivity.
    + edestruct Hrelay as (s' & rb' & Hrun & Hfoc & Hrb & Hst & Hq & _).
      * reflexivity.
      * reflexivity.
      * reflexivity.
      * discriminate.
      * reflexivity.
      * reflexivity.
      * vm_compute. lia.
      * vm_compute. lia.
      * exists s', rb'. auto.
  - split; [reflexivity |].
    destruct (multitap_arrive_switches 6 16 Witness.plain Demo.center 2
                (HistRef (Some 0%nat) LEFT) LEFT brightness_0_3 F32.zero
                (Taps.on_alpha LEFT)
                2 400000 Demo.no_history Taps.taps EE_ARRIVE 1000
                eq_refl eq_refl eq_refl) as (_ & _ & Hback).
    + vm_compute. eauto.
    + exact Hwf.
    + reflexivity.
    + vm_compute. discriminate.
    + lia.
    + reflexivity.
    + vm_compute. split; discriminate.
    + vm_compute. reflexivity.
    + vm_compute. reflexivity.
    + destruct (Hback 0%nat _ eq_refl eq_refl eq_refl)
        as (s' & Hrun & Hfoc & Htr).
      * vm_compute. lia.
      * exists s'. auto.
Defined.
